(** * A reactive dependency-tracking runtime (Vue-style [effect] / [computed])

    Shallow embedding of [src/self-code/4.8计算属性和lazy.js] (module-level
    definitions of this file) and of the earlier iteration
    [src/self-code/4-6.js] (module [V46]).

    Every function of the runtime ([track], [trigger], [cleanup], [effectFn],
    [effect], [computed], the accessor [get value()] and the two Proxy traps)
    is a Rocq function over an explicit [state].  The JavaScript heap is
    explicit: [Set] objects live in a store and are referred to by address,
    because the same [Set] is reachable from [bucket] and from the [deps]
    array of every subscribed effect.

    The callbacks handed to the runtime by its user (the [fn] of an effect, a
    [getter], a user [scheduler]) are arbitrary JavaScript closures.  They are
    represented by [prog], the tree of the runtime operations such a closure
    performs; what the closure computes between two operations is an ordinary
    Rocq function (the continuation).

    The recursion [trigger -> effectFn -> fn -> set trap -> trigger] need not
    terminate; the functions are tied together by [level n], the runtime
    restricted to call depth [n]. *)

From stdpp Require Import gmap strings list.

Open Scope Z_scope.
Open Scope nat_scope.

(** ** Values *)

Inductive value :=
| VUndefined
| VNull
| VNaN
| VNum (n : Z).

Global Instance value_eq_dec : EqDecision value.
Proof. solve_decision. Defined.

(** JavaScript [a + b] on the values above ([null] counts as 0, [undefined]
    and [NaN] give [NaN]). *)
Definition js_add (a b : value) : value :=
  match a, b with
  | VNum x, VNum y => VNum (x + y)
  | VNum x, VNull => VNum x
  | VNull, VNum y => VNum y
  | VNull, VNull => VNum 0
  | _, _ => VNaN
  end.

(** ** Keys of [bucket]

    [bucket] is a [WeakMap] keyed by object identity.  Two kinds of object are
    ever passed to [track] and [trigger]: the proxied [data] (from the Proxy
    traps) and the [obj] created by a call of [computed]. *)

Inductive target :=
| TData
| TComputed (c : nat).

Global Instance target_eq_dec : EqDecision target.
Proof. solve_decision. Defined.

Global Instance target_countable : Countable target.
Proof.
  refine (inj_countable'
            (λ t, match t with TData => None | TComputed c => Some c end)
            (λ o, match o with None => TData | Some c => TComputed c end) _).
  by intros [].
Defined.

(** ** User closures *)

Local Set Warnings "-register-all,-clear-no-such-hyp".


Inductive prog :=
| Ret (v : value)
    (* return v *)
| Throw
    (* throw ... *)
| Get (k : string) (cont : value → prog)
    (* obj[k], through the Proxy get trap *)
| Put (k : string) (v : value) (cont : prog)
    (* obj[k] = v, through the Proxy set trap *)
| Log (v : value) (cont : prog)
    (* console.log(v) *)
| Effect (fn : prog) (lazy : bool) (scheduler : option (nat → prog))
         (cont : nat → prog)
    (* effect(fn, {lazy, scheduler}); the continuation gets the handle *)
| Call (e : nat) (cont : value → prog)
    (* e(), for a handle e returned by effect *)
| Computed (getter : prog) (cont : nat → prog)
    (* computed(getter) *)
| Value (c : nat) (cont : value → prog).
    (* c.value, for an object c returned by computed *)

(** The closure stored in [options.scheduler]: either the one built by
    [computed] (line 155 of the source, closed over the [dirty] and [obj] of
    that call) or one supplied by the user. *)
Inductive scheduler :=
| SchedComputed (c : nat)
| SchedUser (f : nat → prog).

(** ** The heap *)

(** An [effectFn] closure with its two properties [options] and [deps]. *)
Record effect_rec := {
  fn : prog;
  opt_lazy : bool;
  opt_scheduler : option scheduler;
  deps : list nat            (* addresses of Set objects *)
}.

(** The variables one call of [computed] closes over. *)
Record computed_rec := {
  c_value : value;           (* let value *)
  c_dirty : bool;            (* let dirty *)
  c_effectFn : nat           (* const effectFn *)
}.

(** Ghost history: no function of the runtime reads it. *)
Inductive event :=
| EvRun (e : nat)                                   (* effectFn e entered *)
| EvTrack (e : nat) (t : target) (k : string) (sid : nat)
                                                    (* track subscribed e *)
| EvWrite (k : string) (v : value)                  (* target[key] = newValue *)
| EvValue (c : nat) (e : nat)       (* c.value read; e is the effect of c *)
| EvCall (e : nat).                 (* the handle e called by a closure *)

Global Instance event_eq_dec : EqDecision event.
Proof. solve_decision. Defined.

Record state := {
  data : gmap string value;                 (* const data *)
  bucket : gmap target (gmap string nat);   (* const bucket: target -> key -> Set *)
  sets : list (list nat);                   (* the Set objects, in insertion order *)
  effects : list effect_rec;                (* the effectFn closures *)
  computeds : list computed_rec;            (* the closures of computed *)
  activeEffect : option nat;                (* let activeEffect; None is null/undefined *)
  effectStack : list nat;                   (* const effectStack *)
  console : list value;                     (* what console.log printed *)
  history : list event                      (* ghost *)
}.

Inductive result (A : Type) :=
| Done (a : A) (s : state)     (* returned a *)
| Raised (s : state)           (* threw; the heap is as the throw left it *)
| OutOfFuel.                   (* call depth exhausted *)
Arguments Done {A} a s.
Arguments Raised {A} s.
Arguments OutOfFuel {A}.

Definition bind {A B} (r : result A) (k : A → state → result B) : result B :=
  match r with
  | Done a s => k a s
  | Raised s => Raised s
  | OutOfFuel => OutOfFuel
  end.

(** *** Field updates *)

Definition with_data (d : gmap string value) (s : state) : state :=
  {| data := d; bucket := bucket s; sets := sets s; effects := effects s;
     computeds := computeds s; activeEffect := activeEffect s;
     effectStack := effectStack s; console := console s; history := history s |}.

Definition with_bucket (b : gmap target (gmap string nat)) (s : state) : state :=
  {| data := data s; bucket := b; sets := sets s; effects := effects s;
     computeds := computeds s; activeEffect := activeEffect s;
     effectStack := effectStack s; console := console s; history := history s |}.

Definition with_sets (l : list (list nat)) (s : state) : state :=
  {| data := data s; bucket := bucket s; sets := l; effects := effects s;
     computeds := computeds s; activeEffect := activeEffect s;
     effectStack := effectStack s; console := console s; history := history s |}.

Definition with_effects (l : list effect_rec) (s : state) : state :=
  {| data := data s; bucket := bucket s; sets := sets s; effects := l;
     computeds := computeds s; activeEffect := activeEffect s;
     effectStack := effectStack s; console := console s; history := history s |}.

Definition with_computeds (l : list computed_rec) (s : state) : state :=
  {| data := data s; bucket := bucket s; sets := sets s; effects := effects s;
     computeds := l; activeEffect := activeEffect s;
     effectStack := effectStack s; console := console s; history := history s |}.

Definition with_activeEffect (a : option nat) (s : state) : state :=
  {| data := data s; bucket := bucket s; sets := sets s; effects := effects s;
     computeds := computeds s; activeEffect := a;
     effectStack := effectStack s; console := console s; history := history s |}.

Definition with_effectStack (l : list nat) (s : state) : state :=
  {| data := data s; bucket := bucket s; sets := sets s; effects := effects s;
     computeds := computeds s; activeEffect := activeEffect s;
     effectStack := l; console := console s; history := history s |}.

Definition with_console (l : list value) (s : state) : state :=
  {| data := data s; bucket := bucket s; sets := sets s; effects := effects s;
     computeds := computeds s; activeEffect := activeEffect s;
     effectStack := effectStack s; console := l; history := history s |}.

Definition log_event (ev : event) (s : state) : state :=
  {| data := data s; bucket := bucket s; sets := sets s; effects := effects s;
     computeds := computeds s; activeEffect := activeEffect s;
     effectStack := effectStack s; console := console s;
     history := history s ++ [ev] |}.

(** The heap when the script starts: [data] as the caller wrote it, an empty
    [bucket], [activeEffect = null], an empty [effectStack]. *)
Definition init (d : gmap string value) : state :=
  {| data := d; bucket := ∅; sets := []; effects := []; computeds := [];
     activeEffect := None; effectStack := []; console := []; history := [] |}.

(** ** [Set.prototype.add] and [Set.prototype.delete] *)

Definition set_add {A} `{EqDecision A} (x : A) (l : list A) : list A :=
  if decide (x ∈ l) then l else l ++ [x].

Definition set_delete {A} `{EqDecision A} (x : A) (l : list A) : list A :=
  filter (λ y, y ≠ x) l.

(** ** The runtime, lines 21-174 *)

Definition deps_of (s : state) (e : nat) : list nat :=
  match effects s !! e with
  | Some r => deps r
  | None => []
  end.

Definition push_dep (sid : nat) (r : effect_rec) : effect_rec :=
  {| fn := fn r; opt_lazy := opt_lazy r; opt_scheduler := opt_scheduler r;
     deps := deps r ++ [sid] |}.

Definition clear_deps (r : effect_rec) : effect_rec :=
  {| fn := fn r; opt_lazy := opt_lazy r; opt_scheduler := opt_scheduler r;
     deps := [] |}.

(** [deps.add(activeEffect); activeEffect.deps.push(deps)] for the Set at
    address [sid]. *)
Definition subscribe (a : nat) (t : target) (k : string) (sid : nat)
    (s : state) : state :=
  log_event (EvTrack a t k sid)
    (with_effects (alter (push_dep sid) a (effects s))
       (with_sets (alter (set_add a) sid (sets s)) s)).

(** [track], lines 21-34. *)
Definition track (t : target) (k : string) (s : state) : state :=
  match activeEffect s with
  | None => s                                   (* if (!activeEffect) return *)
  | Some a =>
    let depsMap := default ∅ (bucket s !! t) in
    match depsMap !! k with
    | Some sid => subscribe a t k sid s
    | None =>
      let sid := length (sets s) in             (* deps = new Set() *)
      subscribe a t k sid
        (with_bucket (<[t := <[k := sid]> depsMap]> (bucket s))
           (with_sets (sets s ++ [[]]) s))
    end
  end.

(** [cleanup], lines 99-105. *)
Definition cleanup (e : nat) (s : state) : state :=
  with_effects (alter clear_deps e (effects s))
    (with_sets
       (foldl (λ st sid, alter (set_delete e) sid st) (sets s) (deps_of s e))
       s).

(** [effectStack.push(effectFn)] after [activeEffect = effectFn]. *)
Definition enter (e : nat) (s : state) : state :=
  with_effectStack (effectStack s ++ [e]) (with_activeEffect (Some e) s).

(** [effectStack.pop()], then
    [activeEffect = effectStack[effectStack.length - 1]]. *)
Definition leave (s : state) : state :=
  let stack := removelast (effectStack s) in
  with_activeEffect (last stack) (with_effectStack stack s).

(** The copy loop of [trigger], lines 43-50, over the members of the live Set
    in insertion order. *)
Definition effectsToRun (active : option nat) (members : list nat) : list nat :=
  foldl (λ acc e, if decide (Some e = active) then acc else set_add e acc)
        [] members.

(** [Set.prototype.forEach] over a Set that nothing mutates meanwhile
    ([effectsToRun] is local to [trigger]). *)
Fixpoint forEach (f : nat → state → result unit) (l : list nat) (s : state)
    : result unit :=
  match l with
  | [] => Done tt s
  | e :: l' => bind (f e s) (λ _ s1, forEach f l' s1)
  end.

Definition mark_dirty (c : nat) (s : state) : state :=
  with_computeds
    (alter (λ r, {| c_value := c_value r; c_dirty := true;
                    c_effectFn := c_effectFn r |}) c (computeds s)) s.

(** [value = effectFn(); dirty = false]. *)
Definition set_cache (c : nat) (v : value) (s : state) : state :=
  with_computeds
    (alter (λ r, {| c_value := v; c_dirty := false;
                    c_effectFn := c_effectFn r |}) c (computeds s)) s.

(** [target[key] = newValue]. *)
Definition store (k : string) (v : value) (s : state) : state :=
  log_event (EvWrite k v) (with_data (<[k := v]> (data s)) s).

Definition print (v : value) (s : state) : state :=
  with_console (console s ++ [v]) s.

(** What a function calls one call level down. *)
Record callees := {
  run_closure : prog → state → result value;
  run_trigger : target → string → state → result unit
}.

Section Runtime.
Variable rec : callees.

(** [effectFn], lines 74-87.  A handle that [effect] never returned cannot
    be called in JavaScript; the model raises for it. *)
Definition effectFn (e : nat) (s : state) : result value :=
  match effects s !! e with
  | None => Raised s
  | Some r =>
    let s1 := cleanup e (log_event (EvRun e) s) in
    let s2 := enter e s1 in
    bind (run_closure rec (fn r) s2) (λ res s3, Done res (leave s3))
  end.

(** The scheduler of [computed], lines 155-160. *)
Definition computed_scheduler (c : nat) (s : state) : result unit :=
  match computeds s !! c with
  | None => Raised s
  | Some cr =>
    if c_dirty cr then Done tt s
    else run_trigger rec (TComputed c) "value" (mark_dirty c s)
  end.

(** The body of the second [forEach] of [trigger], lines 51-57. *)
Definition notify (e : nat) (s : state) : result unit :=
  match effects s !! e with
  | None => Raised s
  | Some r =>
    match opt_scheduler r with
    | Some (SchedComputed c) => computed_scheduler c s
    | Some (SchedUser f) =>
      bind (run_closure rec (f e) s) (λ _ s1, Done tt s1)
    | None => bind (effectFn e s) (λ _ s1, Done tt s1)
    end
  end.

(** [trigger], lines 37-58. *)
Definition trigger (t : target) (k : string) (s : state) : result unit :=
  match bucket s !! t with
  | None => Done tt s                         (* if (!depsMap) return *)
  | Some depsMap =>
    let members :=
      match depsMap !! k with
      | Some sid => default [] (sets s !! sid)
      | None => []
      end in
    forEach notify (effectsToRun (activeEffect s) members) s
  end.

(** [effect], lines 72-96. *)
Definition effect (f : prog) (lazy : bool) (sch : option scheduler)
    (s : state) : result nat :=
  let e := length (effects s) in
  let s1 := with_effects
              (effects s ++ [{| fn := f; opt_lazy := lazy;
                                opt_scheduler := sch; deps := [] |}]) s in
  if lazy then Done e s1
  else bind (effectFn e s1) (λ _ s2, Done e s2).

(** [computed], lines 148-174: the closure is allocated, nothing runs. *)
Definition computed (getter : prog) (s : state) : nat * state :=
  let c := length (computeds s) in
  let e := length (effects s) in
  (c, with_computeds
        (computeds s ++ [{| c_value := VNull; c_dirty := true;
                            c_effectFn := e |}])
        (with_effects
           (effects s ++ [{| fn := getter; opt_lazy := true;
                             opt_scheduler := Some (SchedComputed c);
                             deps := [] |}]) s)).

(** The accessor [get value()], lines 164-171. *)
Definition get_value (c : nat) (s : state) : result value :=
  match computeds s !! c with
  | None => Raised s
  | Some cr =>
    let s0 := log_event (EvValue c (c_effectFn cr)) s in
    if c_dirty cr then
      bind (effectFn (c_effectFn cr) s0)
           (λ v s1, Done v (track (TComputed c) "value" (set_cache c v s1)))
    else Done (c_value cr) (track (TComputed c) "value" s0)
  end.

(** The Proxy traps, lines 8-17. *)
Definition get_trap (k : string) (s : state) : value * state :=
  let s1 := track TData k s in
  (default VUndefined (data s1 !! k), s1).

Definition set_trap (k : string) (v : value) (s : state) : result unit :=
  trigger TData k (store k v s).

(** Running a user closure. *)
Fixpoint exec (p : prog) (s : state) : result value :=
  match p with
  | Ret v => Done v s
  | Throw => Raised s
  | Get k cont =>
    let '(v, s1) := get_trap k s in exec (cont v) s1
  | Put k v cont =>
    bind (set_trap k v s) (λ _ s1, exec cont s1)
  | Log v cont => exec cont (print v s)
  | Effect f lazy sch cont =>
    bind (effect f lazy (SchedUser <$> sch) s) (λ e s1, exec (cont e) s1)
  | Call e cont =>
    bind (effectFn e (log_event (EvCall e) s)) (λ v s1, exec (cont v) s1)
  | Computed getter cont =>
    let '(c, s1) := computed getter s in exec (cont c) s1
  | Value c cont =>
    bind (get_value c s) (λ v s1, exec (cont v) s1)
  end.

Definition next : callees :=
  {| run_closure := exec; run_trigger := trigger |}.
End Runtime.

Definition bottom : callees :=
  {| run_closure := λ _ _, OutOfFuel; run_trigger := λ _ _ _, OutOfFuel |}.

(** The runtime with call depth at most [n]. *)
Fixpoint level (n : nat) : callees :=
  match n with
  | 0 => bottom
  | S n' => next (level n')
  end.

(** A script run at top level. *)
Definition run (n : nat) (p : prog) (d : gmap string value) : result value :=
  exec (level n) p (init d).

(** * The earlier iteration, [src/self-code/4-6.js]

    Same registry and same [effectStack]; [track] has no guard on
    [activeEffect], [effect] takes no options and returns nothing, and there
    is no [computed].  [activeEffect] is [null] when the script starts and
    [undefined] after [effectStack[effectStack.length - 1]] on an empty stack;
    the two differ under [!==] and both can end up in a [Set], so they are
    kept apart here. *)

Module V46.

Inductive slot :=
| Null
| Undefined
| Fn (e : nat).

Global Instance slot_eq_dec : EqDecision slot.
Proof. solve_decision. Defined.

Inductive prog :=
| Ret                                          (* the closure returns *)
| Throw
| Get (k : string) (cont : value → prog)
| Put (k : string) (v : value) (cont : prog)
| Log (v : value) (cont : prog)
| Effect (fn : prog) (cont : prog).            (* effect(fn) *)

Record effect_rec := {
  fn : prog;
  deps : list nat
}.

Record state := {
  data : gmap string value;
  bucket : gmap target (gmap string nat);
  sets : list (list slot);
  effects : list effect_rec;
  activeEffect : slot;
  effectStack : list nat;
  console : list value
}.

Inductive result :=
| Done (s : state)
| Raised (s : state)
| OutOfFuel.

Definition bind (r : result) (k : state → result) : result :=
  match r with
  | Done s => k s
  | Raised s => Raised s
  | OutOfFuel => OutOfFuel
  end.

Definition init (d : gmap string value) : state :=
  {| data := d; bucket := ∅; sets := []; effects := []; activeEffect := Null;
     effectStack := []; console := [] |}.

Definition deps_of (s : state) (e : nat) : list nat :=
  match effects s !! e with
  | Some r => deps r
  | None => []
  end.

(** [track], lines 21-33: [deps.add(activeEffect)] comes first, then
    [activeEffect.deps] throws a TypeError unless [activeEffect] is an
    effect. *)
Definition track (t : target) (k : string) (s : state) : result :=
  let depsMap := default ∅ (bucket s !! t) in
  let '(sid, b, l) :=
    match depsMap !! k with
    | Some sid => (sid, bucket s, sets s)
    | None => (length (sets s), <[t := <[k := length (sets s)]> depsMap]> (bucket s),
               sets s ++ [[]])
    end in
  let l' := alter (set_add (activeEffect s)) sid l in
  match activeEffect s with
  | Fn a =>
    Done {| data := data s; bucket := b; sets := l';
            effects := alter (λ r, {| fn := fn r; deps := deps r ++ [sid] |})
                             a (effects s);
            activeEffect := activeEffect s; effectStack := effectStack s;
            console := console s |}
  | _ =>
    Raised {| data := data s; bucket := b; sets := l'; effects := effects s;
              activeEffect := activeEffect s; effectStack := effectStack s;
              console := console s |}
  end.

(** [cleanup], lines 81-87. *)
Definition cleanup (e : nat) (s : state) : state :=
  {| data := data s; bucket := bucket s;
     sets := foldl (λ st sid, alter (set_delete (Fn e)) sid st) (sets s)
                   (deps_of s e);
     effects := alter (λ r, {| fn := fn r; deps := [] |}) e (effects s);
     activeEffect := activeEffect s; effectStack := effectStack s;
     console := console s |}.

Definition enter (e : nat) (s : state) : state :=
  {| data := data s; bucket := bucket s; sets := sets s; effects := effects s;
     activeEffect := Fn e; effectStack := effectStack s ++ [e];
     console := console s |}.

Definition leave (s : state) : state :=
  let stack := removelast (effectStack s) in
  {| data := data s; bucket := bucket s; sets := sets s; effects := effects s;
     activeEffect := match last stack with Some e => Fn e | None => Undefined end;
     effectStack := stack; console := console s |}.

Definition store (k : string) (v : value) (s : state) : state :=
  {| data := <[k := v]> (data s); bucket := bucket s; sets := sets s;
     effects := effects s; activeEffect := activeEffect s;
     effectStack := effectStack s; console := console s |}.

Definition print (v : value) (s : state) : state :=
  {| data := data s; bucket := bucket s; sets := sets s; effects := effects s;
     activeEffect := activeEffect s; effectStack := effectStack s;
     console := console s ++ [v] |}.

Definition effectsToRun (active : slot) (members : list slot) : list slot :=
  foldl (λ acc x, if decide (x = active) then acc else set_add x acc)
        [] members.

Fixpoint forEach (f : slot → state → result) (l : list slot) (s : state)
    : result :=
  match l with
  | [] => Done s
  | x :: l' => bind (f x s) (forEach f l')
  end.

Section Runtime.
Variable run_closure : prog → state → result.

(** [effectFn], lines 64-74. *)
Definition effectFn (e : nat) (s : state) : result :=
match effects s !! e with
| None => Raised s
| Some r =>
  bind (run_closure (fn r) (enter e (cleanup e s))) (λ s3, Done (leave s3))
end.

(** [effectFn => effectFn()], line 52: calling [null] or [undefined] is a
  TypeError. *)
Definition call (x : slot) (s : state) : result :=
match x with
| Fn e => effectFn e s
| _ => Raised s
end.

(** [trigger], lines 36-53. *)
Definition trigger (t : target) (k : string) (s : state) : result :=
match bucket s !! t with
| None => Done s
| Some depsMap =>
  let members :=
    match depsMap !! k with
    | Some sid => default [] (sets s !! sid)
    | None => []
    end in
  forEach call (effectsToRun (activeEffect s) members) s
end.

(** [effect], lines 62-78. *)
Definition effect (f : prog) (s : state) : result :=
effectFn (length (effects s))
  {| data := data s; bucket := bucket s; sets := sets s;
     effects := effects s ++ [{| fn := f; deps := [] |}];
     activeEffect := activeEffect s; effectStack := effectStack s;
     console := console s |}.

(** The Proxy traps, lines 8-17. *)
Definition get_trap (k : string) (s : state) : result :=
track TData k s.

Definition set_trap (k : string) (v : value) (s : state) : result :=
trigger TData k (store k v s).

Fixpoint exec (p : prog) (s : state) : result :=
match p with
| Ret => Done s
| Throw => Raised s
| Get k cont =>
  bind (get_trap k s)
       (λ s1, exec (cont (default VUndefined (data s1 !! k))) s1)
| Put k v cont => bind (set_trap k v s) (exec cont)
| Log v cont => exec cont (print v s)
| Effect f cont => bind (effect f s) (exec cont)
end.
End Runtime.

Fixpoint level (n : nat) : prog → state → result :=
  match n with
  | 0 => λ _ _, OutOfFuel
  | S n' => exec (level n')
  end.

Definition run (n : nat) (p : prog) (d : gmap string value) : result :=
  exec (level n) p (init d).

End V46.

(** * The vocabulary of the specification *)

Definition outcome {A} (D E : state → state → Prop) (s : state)
    (r : result A) : Prop :=
  match r with
  | Done _ s' => D s s'
  | Raised s' => E s s'
  | OutOfFuel => True
  end.

Definition sound (D E : state → state → Prop) (rec : callees) : Prop :=
  (∀ p s, outcome D E s (run_closure rec p s)) ∧
  (∀ t k s, outcome D E s (run_trigger rec t k s)).

(** A relation that every single heap update of the runtime respects. *)
Record closed (R : state → state → Prop) : Prop := {
  closed_refl : ∀ s, R s s;
  closed_trans : ∀ s1 s2 s3, R s1 s2 → R s2 s3 → R s1 s3;
  closed_track : ∀ t k s, R s (track t k s);
  closed_store : ∀ k v s, R s (store k v s);
  closed_print : ∀ v s, R s (print v s);
  closed_mark_dirty : ∀ c s, R s (mark_dirty c s);
  closed_set_cache : ∀ c v s, R s (set_cache c v s);
  closed_new_effect : ∀ f lazy sch s,
    R s (with_effects (effects s ++ [{| fn := f; opt_lazy := lazy;
                                        opt_scheduler := sch; deps := [] |}]) s);
  closed_computed : ∀ g s, R s (computed g s).2;
  closed_value : ∀ c e s, R s (log_event (EvValue c e) s);
  closed_call : ∀ e s, R s (log_event (EvCall e) s);
  closed_begin : ∀ e r s,
    effects s !! e = Some r →
    R s (enter e (cleanup e (log_event (EvRun e) s)));
  closed_leave : ∀ s, R s (leave s)
}.

Definition set_at (s : state) (t : target) (k : string) : option nat :=
  m ← bucket s !! t; m !! k.

Record ext (s s' : state) : Prop := {
  ext_history : history s `prefix_of` history s';
  ext_effects : ∀ e r, effects s !! e = Some r →
    ∃ r', effects s' !! e = Some r' ∧ fn r' = fn r ∧
          opt_lazy r' = opt_lazy r ∧ opt_scheduler r' = opt_scheduler r;
  ext_computeds : ∀ c cr, computeds s !! c = Some cr →
    ∃ cr', computeds s' !! c = Some cr' ∧ c_effectFn cr' = c_effectFn cr;
  ext_bucket : ∀ t k sid, set_at s t k = Some sid → set_at s' t k = Some sid;
  ext_sets : length (sets s) ≤ length (sets s')
}.

Definition same_stack (s s' : state) : Prop := effectStack s' = effectStack s.
Definition grown_stack (s s' : state) : Prop :=
  effectStack s `prefix_of` effectStack s'.

(** The subscriptions [e] took since it was last entered, oldest first. *)
Definition tracked_step (e : nat) (acc : list (target * string * nat))
    (ev : event) : list (target * string * nat) :=
  match ev with
  | EvRun e' => if decide (e' = e) then [] else acc
  | EvTrack e' t k sid => if decide (e' = e) then acc ++ [(t, k, sid)] else acc
  | _ => acc
  end.

Definition tracked (e : nat) (h : list event) : list (target * string * nat) :=
  foldl (tracked_step e) [] h.

(** The fields [e] read since it was last entered. *)
Definition reads (e : nat) (h : list event) : list (target * string) :=
  fst <$> tracked e h.

(** How often [effectFn e] was entered. *)
Definition runs (e : nat) (h : list event) : nat :=
  length (filter (λ ev, ev = EvRun e) h).

(** The subscriber Set of field [k] of [t], empty when [bucket] has none. *)
Definition subscribers (s : state) (t : target) (k : string) : list nat :=
  match set_at s t k with
  | Some sid => default [] (sets s !! sid)
  | None => []
  end.

(** [e] is in the subscriber Set of the field, and that Set is in [e.deps]. *)
Definition subscribed (s : state) (e : nat) (t : target) (k : string) : Prop :=
  match set_at s t k with
  | Some sid => e ∈ default [] (sets s !! sid) ∧ sid ∈ deps_of s e
  | None => False
  end.

Global Instance subscribed_dec s e t k : Decision (subscribed s e t k).
Proof. unfold subscribed. destruct (set_at s t k); apply _. Defined.

Record Inv (s : state) : Prop := {
  inv_consistent : ∀ e sid,
    sid ∈ deps_of s e ↔ ∃ m, sets s !! sid = Some m ∧ e ∈ m;
  inv_scoped : activeEffect s = last (effectStack s);
  inv_stack : ∀ a, a ∈ effectStack s → a < length (effects s);
  inv_bucket : ∀ t k sid, set_at s t k = Some sid → sid < length (sets s);
  inv_inj : ∀ t k t' k' sid,
    set_at s t k = Some sid → set_at s t' k' = Some sid → t = t' ∧ k = k';
  inv_traced : ∀ e, deps_of s e = snd <$> tracked e (history s);
  inv_hist : ∀ e t k sid,
    EvTrack e t k sid ∈ history s → set_at s t k = Some sid
}.

(** The invariant holds whenever control is back in the caller, whether the
    callee returned or threw. *)
Definition keeps (s s' : state) : Prop := Inv s → Inv s'.

(** The heap a call ended in ([s] if it ran out of call depth). *)
Definition heap_of {A} (r : result A) (s : state) : state :=
  match r with
  | Done _ s' => s'
  | Raised s' => s'
  | OutOfFuel => s
  end.

(** The values written to field [k] of [data] in a stretch of history. *)
Definition writes (k : string) (h : list event) : list value :=
  omap (λ ev, match ev with
              | EvWrite k' v => if decide (k' = k) then Some v else None
              | _ => None
              end) h.

(** Field [k] of [data] holds the last value written to it. *)
Definition last_write (k : string) (s s' : state) : Prop :=
  ∃ seg, history s' = history s ++ seg ∧
         data s' !! k = match last (writes k seg) with
                        | Some v => Some v
                        | None => data s !! k
                        end.

(** A closure is quiet when all it does is read fields of [obj] and print,
    like [() => console.log(obj.foo)] and [() => obj.foo + obj.bar]. *)
Inductive quiet : prog → Prop :=
| quiet_Ret v : quiet (Ret v)
| quiet_Get k cont : (∀ v, quiet (cont v)) → quiet (Get k cont)
| quiet_Log v cont : quiet cont → quiet (Log v cont).

(** What a quiet closure returns on [data], and the fields it reads. *)
Fixpoint answer (p : prog) (d : gmap string value) : value :=
  match p with
  | Ret v => v
  | Get k cont => answer (cont (default VUndefined (d !! k))) d
  | Log _ cont => answer cont d
  | _ => VUndefined
  end.

Fixpoint fields (p : prog) (d : gmap string value) : list string :=
  match p with
  | Get k cont => k :: fields (cont (default VUndefined (d !! k))) d
  | Log _ cont => fields cont d
  | _ => []
  end.

(** An effect without scheduler whose computation is quiet. *)
Definition leaf (s : state) (e : nat) : Prop :=
  ∃ r, effects s !! e = Some r ∧ opt_scheduler r = None ∧ quiet (fn r).

(** What a quiet closure leaves alone. *)
Record calm (s s' : state) : Prop := {
  calm_data : data s' = data s;
  calm_computeds : computeds s' = computeds s;
  calm_active : activeEffect s' = activeEffect s;
  calm_history : ∃ seg, history s' = history s ++ seg ∧ ∀ e, EvRun e ∉ seg;
  calm_sets : ∀ sid m x,
    sets s' !! sid = Some m → x ∈ m →
    activeEffect s = Some x ∨ ∃ m0, sets s !! sid = Some m0 ∧ x ∈ m0
}.

(** The effect [e] carries the scheduler of an allocated [computed]. *)
Definition derived_unit (s : state) (e : nat) : Prop :=
  ∃ r c cr, effects s !! e = Some r ∧
            opt_scheduler r = Some (SchedComputed c) ∧
            computeds s !! c = Some cr.

Definition lazy_graph (s : state) : Prop :=
  ∀ sid m e, sets s !! sid = Some m → e ∈ m → derived_unit s e.

(** The number of [computed] values whose [dirty] is false. *)
Definition clean_count (s : state) : nat :=
  length (filter (λ cr, c_dirty cr = false) (computeds s)).

Definition raised_flag (cr cr' : computed_rec) : Prop :=
  c_value cr' = c_value cr ∧ c_effectFn cr' = c_effectFn cr ∧
  (c_dirty cr = true → c_dirty cr' = true).

(** [s'] is [s] with some [dirty] flags set. *)
Definition dirtied (s s' : state) : Prop :=
  s' = with_computeds (computeds s') s ∧
  Forall2 raised_flag (computeds s) (computeds s').

Definition flag_raised (s : state) (c : nat) : Prop :=
  ∃ cr, computeds s !! c = Some cr ∧ c_dirty cr = true.

(** [obj[k1] = v1; ...; obj[kn] = vn]. *)
Fixpoint puts (ws : list (string * value)) : prog :=
  match ws with
  | [] => Ret VUndefined
  | (k, v) :: ws' => Put k v (puts ws')
  end.

(** The heap with the writes stored and nobody notified. *)
Definition stores (ws : list (string * value)) (s : state) : state :=
  foldl (λ st kv, store kv.1 kv.2 st) s ws.

Definition stack46 (s : V46.state) (r : V46.result) : Prop :=
  match r with
  | V46.Done s' => V46.effectStack s' = V46.effectStack s
  | V46.Raised s' => V46.effectStack s `prefix_of` V46.effectStack s'
  | V46.OutOfFuel => True
  end.

(** What a returned pass of [trigger] consists of: the units of the list are
    notified one after the other, each once, and each returns. *)
Inductive pass (f : nat → state → result unit) : list nat → state → state → Prop :=
| pass_nil s : pass f [] s s
| pass_cons e l s s1 s' :
    f e s = Done tt s1 → pass f l s1 s' → pass f (e :: l) s s'.

(** The entries of effect [e] that a history asks for: a read of [value] of
    a [computed] whose effect is [e], and a call of the handle of [e]. *)
Definition asks (e : nat) (ev : event) : bool :=
  match ev with
  | EvValue _ e' | EvCall e' => bool_decide (e' = e)
  | _ => false
  end.

Definition requests (e : nat) (h : list event) : nat :=
  length (filter (λ ev, asks e ev) h).

(** [effectFn.options.scheduler] is set. *)
Definition scheduled (s : state) (e : nat) : Prop :=
  ∃ r, effects s !! e = Some r ∧ is_Some (opt_scheduler r).

(** From [s] to [s'] an effect [e] with a scheduler was entered at most
    [slack] times more often than it was asked for. *)
Definition on_demand (slack e : nat) (s s' : state) : Prop :=
  ext s s' ∧
  (scheduled s e →
   runs e (history s') + requests e (history s)
   ≤ runs e (history s) + requests e (history s') + slack).

(** The effect [e] exists, is not running and is in no subscriber [Set]. *)
Definition idle (s : state) (e : nat) : Prop :=
  e < length (effects s) ∧ (e ∉ effectStack s) ∧ (activeEffect s ≠ Some e) ∧
  ∀ sid m, sets s !! sid = Some m → e ∉ m.

(** From [s] to [s'] an idle effect [e] stayed idle and was not entered,
    unless it was asked for. *)
Definition left_alone (e : nat) (s s' : state) : Prop :=
  ext s s' ∧
  (idle s e → requests e (history s') = requests e (history s) →
   idle s' e ∧ runs e (history s') = runs e (history s)).

(** The [computed]s that have become dirty from [s] to [s'] have taken
    their readers along: a [computed] whose effect is subscribed to [value]
    of one of them is dirty in [s'] as well. *)
Definition readers_raised (s s' : state) : Prop :=
  ∀ c cr e r c',
    computeds s !! c = Some cr → c_dirty cr = false → flag_raised s' c →
    e ∈ subscribers s (TComputed c) "value" → effects s !! e = Some r →
    opt_scheduler r = Some (SchedComputed c') → flag_raised s' c'.

(** [() => { obj[k]; obj[k'] = v }]: an effect that reads one field and
    writes another. *)
Definition relay (k k' : string) (v : value) : prog :=
  Get k (λ _, Put k' v (Ret VUndefined)).

(** Two effects without scheduler, each subscribed to the field the other
    one writes: [a] reads [x] and writes [y], [b] reads [y] and writes
    [x]. *)
Record crossed (x y : string) (vx vy : value) (a b : nat) (s : state)
    : Prop := {
  crossed_a : ∃ r, effects s !! a = Some r ∧ fn r = relay x y vy ∧
                   opt_scheduler r = None;
  crossed_b : ∃ r, effects s !! b = Some r ∧ fn r = relay y x vx ∧
                   opt_scheduler r = None;
  crossed_x : subscribers s TData x = [a];
  crossed_y : subscribers s TData y = [b]
}.

(** What a quiet closure prints on [data]. *)
Fixpoint prints (p : prog) (d : gmap string value) : list value :=
  match p with
  | Get k cont => prints (cont (default VUndefined (d !! k))) d
  | Log v cont => v :: prints cont d
  | _ => []
  end.

(** [() => console.log(sumRes.value)], line 186. *)
Definition print_value (c : nat) : prog :=
  Value c (λ v, Log v (Ret VUndefined)).

(** A closure of [4-6.js] run by the later file: [effect(fn)] is
    [effect(fn, {})], and what the closure returns is dropped. *)
Fixpoint lift (p : V46.prog) : prog :=
  match p with
  | V46.Ret => Ret VUndefined
  | V46.Throw => Throw
  | V46.Get k cont => Get k (λ v, lift (cont v))
  | V46.Put k v cont => Put k v (lift cont)
  | V46.Log v cont => Log v (lift cont)
  | V46.Effect f cont => Effect (lift f) false None (λ _, lift cont)
  end.

Definition unit_of (x : V46.slot) : option nat :=
  match x with
  | V46.Fn e => Some e
  | _ => None
  end.

Definition lift_rec (r : V46.effect_rec) : effect_rec :=
  {| fn := lift (V46.fn r); opt_lazy := false; opt_scheduler := None;
     deps := V46.deps r |}.

(** A heap of [4-6.js] and a heap of the later file hold the same [data],
    the same registry, the same effects, the same [effectStack] and the
    same output; no [Set] of the former holds [null] or [undefined]. *)
Record agree (s46 : V46.state) (s : state) : Prop := {
  agree_data : data s = V46.data s46;
  agree_bucket : bucket s = V46.bucket s46;
  agree_sets : V46.sets s46 = (λ m : list nat, V46.Fn <$> m) <$> sets s;
  agree_effects : effects s = lift_rec <$> V46.effects s46;
  agree_active : activeEffect s = unit_of (V46.activeEffect s46);
  agree_stack : effectStack s = V46.effectStack s46;
  agree_console : console s = V46.console s46
}.

(** * Sample closures and heaps *)

(** Sample data and closures: [data] of [4.8计算属性和lazy.js], the effect of
    [4-6.js] ([console.log(obj.foo)]), and an effect that throws. *)
Definition sample_data : gmap string value :=
  <["foo" := VNum 1]> (<["bar" := VNum 2]> ∅).

Definition log_foo : prog := Get "foo" (λ v, Log v (Ret v)).

(** The heap after [effect(fn, {lazy: true})] at the start of the script. *)
Definition lazy_unit (f : prog) : state :=
  heap_of (effect (level 0) f true None (init sample_data)) (init sample_data).

(** Two effects read [foo]; the first one throws when it sees 7. *)
Definition throw_on_7 : prog :=
  Get "foo" (λ v, if decide (v = VNum 7) then Throw else Ret v).

Definition two_subscribers : prog :=
  Effect throw_on_7 false None (λ _,
  Effect log_foo false None (λ _,
  Put "foo" (VNum 7) (Ret VUndefined))).

Definition before_write : state :=
  heap_of (exec (level 1)
             (Effect throw_on_7 false None (λ _,
              Effect log_foo false None (λ _, Ret VUndefined)))
             (init sample_data)) (init sample_data).

(** An outer effect that creates an inner one and then reads [bar]. *)
Definition nested : prog :=
  Effect log_foo false None (λ _, Get "bar" (λ v, Ret v)).

(** The heap in which the outer effect runs its computation. *)
Definition inside_outer : state :=
  enter 0 (lazy_unit nested).

(** Two effects that print [foo]. *)
Definition two_loggers : state :=
  heap_of (exec (level 1)
             (Effect log_foo false None (λ _,
              Effect log_foo false None (λ _, Ret VUndefined)))
             (init sample_data)) (init sample_data).

(** An effect that reads [foo] only while [flag] is 0, and then creates an
    effect that sets [flag] to 1. *)
Definition reentrant : prog :=
  Get "flag" (λ f,
    if decide (f = VNum 0) then
      Get "foo" (λ _,
        Effect (Put "flag" (VNum 1) (Ret VUndefined)) false None
               (λ _, Ret VUndefined))
    else Ret VUndefined).

Definition reentrant_start : state :=
  heap_of (effect (level 0) reentrant true None
             (init (<["flag" := VNum 0]> sample_data)))
          (init (<["flag" := VNum 0]> sample_data)).

(** An effect that reads [ok ? foo : bar]. *)
Definition branching : prog :=
  Get "ok" (λ c, if decide (c = VNum 1) then Get "foo" Ret else Get "bar" Ret).

(** The effect has run with [ok = 0]; then [ok] has become 1. *)
Definition branch_taken : state :=
  store "ok" (VNum 1)
    (heap_of (effect (level 1) branching false None
                (init (<["ok" := VNum 0]> sample_data)))
             (init (<["ok" := VNum 0]> sample_data))).

(** A heap of [4-6.js] in which [bucket] has an empty [depsMap]. *)
Definition heap46 : V46.state :=
  {| V46.data := sample_data; V46.bucket := {[TData := ∅]}; V46.sets := [];
     V46.effects := []; V46.activeEffect := V46.Null; V46.effectStack := [];
     V46.console := [] |}.

(** A heap of [4-6.js] that holds one effect, which has not run. *)
Definition unit46 (f : V46.prog) : V46.state :=
  {| V46.data := sample_data; V46.bucket := ∅; V46.sets := [];
     V46.effects := [{| V46.fn := f; V46.deps := [] |}];
     V46.activeEffect := V46.Null; V46.effectStack := []; V46.console := [] |}.

(** The heap of [4-6.js] after the two effects of [two_subscribers] have
    been created. *)
Definition before_write46 : V46.state :=
  match V46.run 1
          (V46.Effect (V46.Get "foo" (λ v, if decide (v = VNum 7) then V46.Throw
                                           else V46.Ret))
             (V46.Effect (V46.Get "foo" (λ v, V46.Log v V46.Ret)) V46.Ret))
          sample_data with
  | V46.Done s => s
  | _ => V46.init sample_data
  end.

(** [two_subscribers] in [4-6.js]. *)
Definition two_subscribers46 : V46.prog :=
  V46.Effect (V46.Get "foo" (λ v, if decide (v = VNum 7) then V46.Throw
                                  else V46.Ret))
    (V46.Effect (V46.Get "foo" (λ v, V46.Log v V46.Ret))
       (V46.Put "foo" (VNum 7) V46.Ret)).

(** An effect that writes the field it reads: [obj.foo = obj.foo + 1]. *)
Definition bump_foo : prog :=
  Get "foo" (λ v, Put "foo" (js_add v (VNum 1)) (Ret VUndefined)).

(** [sumRes = computed(() => obj.foo + obj.bar)], line 176. *)
Definition sum_getter : prog :=
  Get "foo" (λ a, Get "bar" (λ b, Ret (js_add a b))).

(** The heap after line 176, and after the first read of [sumRes.value]. *)
Definition fresh_sum : state := (computed sum_getter (init sample_data)).2.

Definition read_sum : state :=
  heap_of (get_value (level 1) 0 fresh_sum) fresh_sum.

(** [obj.foo++]. *)
Definition incr_foo (cont : prog) : prog :=
  Get "foo" (λ v, Put "foo" (js_add v (VNum 1)) cont).

(** Lines 176-189 of [4.8计算属性和lazy.js]. *)
Definition script : prog :=
  Computed sum_getter (λ sumRes,
    Value sumRes (λ v1, Log v1
   (Value sumRes (λ v2, Log v2
   (incr_foo
   (Value sumRes (λ v3, Log v3
   (Effect (Value sumRes (λ v, Log v (Ret VUndefined))) false None
      (λ _, incr_foo (Ret VUndefined)))))))))).

(** An effect that reads [obj.foo] before it reads [value] of the sum, so
    that it comes before the getter in the subscriber Set of [foo]; then a
    write to [foo]. *)
Definition read_then_write (sumRes : nat) : prog :=
  Effect (Get "foo" (λ _, Value sumRes (λ v, Log v (Ret VUndefined))))
         false None
    (λ _, Put "foo" (VNum 5) (Ret VUndefined)).

Definition stale_reader : prog := Computed sum_getter read_then_write.

(** Lines 89-91 of [4-6.js], and the heap they leave. *)
Definition script46 : V46.prog :=
  V46.Effect (V46.Get "foo" (λ v, V46.Log v V46.Ret)) V46.Ret.

Definition after_script46 : V46.state :=
  match V46.run 1 script46 sample_data with
  | V46.Done s => s
  | _ => V46.init sample_data
  end.

(** The heap after [sumRes] and the effect of lines 185-187 have been
    made. *)
Definition watched_sum : state :=
  heap_of (exec (level 3)
             (Computed sum_getter (λ sumRes,
                Effect (print_value sumRes) false None (λ _, Ret VUndefined)))
             (init sample_data)) (init sample_data).

(** A second [computed] that reads the sum, [computed(() => sumRes.value
    + 1)], and the heap after its [value] has been read once. *)
Definition successor_of (c : nat) : prog :=
  Value c (λ v, Ret (js_add v (VNum 1))).

Definition chained : state :=
  heap_of (exec (level 4)
             (Computed sum_getter (λ sumRes,
                Computed (successor_of sumRes) (λ next,
                  Value next (λ _, Ret VUndefined))))
             (init sample_data)) (init sample_data).

(** An effect that reads [foo] and writes [bar] has run; a second effect,
    which reads [bar] and writes [foo], is running and has just read
    [bar]. *)
Definition crossing : state :=
  track TData "bar"
    (enter 1
       (heap_of (exec (level 2)
                   (Effect (relay "foo" "bar" (VNum 0)) false None (λ _,
                    Effect (relay "bar" "foo" (VNum 0)) true None (λ _,
                    Ret VUndefined)))
                   (init sample_data)) (init sample_data))).

(** [data] with arbitrary values in its two fields. *)
Definition fields_of (a b : value) : gmap string value :=
  <["foo" := a]> (<["bar" := b]> ∅).

(** * Reasoning principles *)

(** ** Sets *)

Section Sets.
Context {A : Type} `{EqDecision A}.
Implicit Types (x y : A) (l : list A).

Lemma elem_of_set_add x y l : x ∈ set_add y l ↔ x = y ∨ x ∈ l.
Proof.
  unfold set_add. case_decide.
  - split; [auto | intros [->|]; done].
  - rewrite elem_of_app, list_elem_of_singleton. tauto.
Qed.

Lemma NoDup_set_add y l : NoDup l → NoDup (set_add y l).
Proof.
  intros Hl. unfold set_add. case_decide; [done|].
  apply NoDup_app. split_and!; [done | | apply NoDup_singleton].
  intros x Hx ->%list_elem_of_singleton. done.
Qed.

Lemma elem_of_set_delete x y l : x ∈ set_delete y l ↔ x ≠ y ∧ x ∈ l.
Proof. unfold set_delete. by rewrite list_elem_of_filter. Qed.

Lemma set_delete_idemp y l : set_delete y (set_delete y l) = set_delete y l.
Proof.
  unfold set_delete. induction l as [|x l IH]; [done|].
  rewrite filter_cons. case_decide; [|done].
  rewrite filter_cons. case_decide; [|done]. by rewrite IH.
Qed.

(** The copy loop of [trigger]: the members that are not [P], each once. *)
Lemma copy_loop (P : A → Prop) `{∀ x, Decision (P x)} members acc :
  let r := foldl (λ acc e, if decide (P e) then acc else set_add e acc)
                 acc members in
  (NoDup acc → NoDup r) ∧
  (∀ e, e ∈ r ↔ e ∈ acc ∨ (e ∈ members ∧ ¬ P e)).
Proof.
  revert acc. induction members as [|x l IH]; intros acc; simpl.
  - split; [done|]. intros e. rewrite elem_of_nil. tauto.
  - destruct (IH (if decide (P x) then acc else set_add x acc))
      as [IH1 IH2].
    split.
    + intros Hacc. apply IH1. case_decide; [done|]. by apply NoDup_set_add.
    + intros e. rewrite IH2, elem_of_cons. case_decide as Hx.
      * naive_solver.
      * rewrite elem_of_set_add. naive_solver.
Qed.
End Sets.

Lemma NoDup_effectsToRun active members : NoDup (effectsToRun active members).
Proof.
  apply (copy_loop (λ e, Some e = active) members []), NoDup_nil_2.
Qed.

Lemma elem_of_effectsToRun active members e :
  e ∈ effectsToRun active members ↔ e ∈ members ∧ active ≠ Some e.
Proof.
  unfold effectsToRun.
  destruct (copy_loop (λ e, Some e = active) members []) as [_ H].
  rewrite H, elem_of_nil. naive_solver.
Qed.

(** On a duplicate-free Set the copy loop is a filter: the order of the live
    Set is kept. *)
Lemma effectsToRun_filter active members :
  NoDup members →
  effectsToRun active members = filter (λ e, active ≠ Some e) members.
Proof.
  intros Hnd. unfold effectsToRun.
  enough (∀ acc, (∀ x, x ∈ acc → x ∉ members) →
            foldl (λ acc e, if decide (Some e = active) then acc
                            else set_add e acc) acc members
            = acc ++ filter (λ e, active ≠ Some e) members) as H.
  { apply (H []). intros x. by rewrite elem_of_nil. }
  induction Hnd as [|x l Hx Hl IH]; intros acc Hacc; simpl.
  - by rewrite filter_nil, app_nil_r.
  - rewrite filter_cons. case_decide as H1; case_decide as H2; try congruence.
    + rewrite IH; [done|]. intros y Hy Hy'. apply (Hacc y Hy). by right.
    + unfold set_add. case_decide as H3.
      { exfalso. apply (Hacc x H3). by left. }
      rewrite IH; [by rewrite <- app_assoc|].
      intros y [Hy| ->%list_elem_of_singleton]%elem_of_app Hy'; [|done].
      apply (Hacc y Hy). by right.
Qed.

(** ** One induction for the whole runtime

    [D] relates the heap before a call to the heap after its normal return,
    [E] to the heap a [throw] leaves; [Df e] and [Ef e] do the same for a
    call of [effectFn e], seen from inside [effectFn].  Each place that calls
    [effectFn] says how [Df] and [Ef] turn into [D] and [E] there.  If the
    heap updates of the runtime respect the relations, every function does,
    at every call depth. *)

Section Soundness.
Variables D E : state → state → Prop.
Variables Df Ef : nat → state → state → Prop.

Hypothesis D_refl : ∀ s, D s s.
Hypothesis D_trans : ∀ s1 s2 s3, D s1 s2 → D s2 s3 → D s1 s3.
Hypothesis E_refl : ∀ s, E s s.
Hypothesis DE_trans : ∀ s1 s2 s3, D s1 s2 → E s2 s3 → E s1 s3.

Hypothesis D_track : ∀ t k s, D s (track t k s).
Hypothesis D_store : ∀ k v s, D s (store k v s).
Hypothesis D_print : ∀ v s, D s (print v s).
Hypothesis D_mark_dirty : ∀ c s, D s (mark_dirty c s).
Hypothesis D_set_cache : ∀ c v s, D s (set_cache c v s).
Hypothesis D_new_effect : ∀ f lazy sch s,
  D s (with_effects (effects s ++ [{| fn := f; opt_lazy := lazy;
                                      opt_scheduler := sch; deps := [] |}]) s).
Hypothesis D_computed : ∀ g s, D s (computed g s).2.
Hypothesis D_read : ∀ c e s, D s (log_event (EvValue c e) s).

(** Inside [effectFn]. *)
Hypothesis Df_effectFn : ∀ e r s s3,
  effects s !! e = Some r →
  D (enter e (cleanup e (log_event (EvRun e) s))) s3 → Df e s (leave s3).
Hypothesis Ef_effectFn : ∀ e r s s3,
  effects s !! e = Some r →
  E (enter e (cleanup e (log_event (EvRun e) s))) s3 → Ef e s s3.
Hypothesis Ef_missing : ∀ e s, effects s !! e = None → Ef e s s.

(** The four callers of [effectFn]: [trigger] for an effect without
    scheduler, [effect] for the effect it has made, a closure through the
    handle, and the accessor of a [computed]. *)
Hypothesis D_notify : ∀ e r s s',
  effects s !! e = Some r → opt_scheduler r = None → Df e s s' → D s s'.
Hypothesis E_notify : ∀ e r s s',
  effects s !! e = Some r → opt_scheduler r = None → Ef e s s' → E s s'.
Hypothesis D_effect : ∀ f lazy sch s s',
  Df (length (effects s))
     (with_effects (effects s ++ [{| fn := f; opt_lazy := lazy;
                                     opt_scheduler := sch; deps := [] |}]) s)
     s' →
  D s s'.
Hypothesis E_effect : ∀ f lazy sch s s',
  Ef (length (effects s))
     (with_effects (effects s ++ [{| fn := f; opt_lazy := lazy;
                                     opt_scheduler := sch; deps := [] |}]) s)
     s' →
  E s s'.
Hypothesis D_call : ∀ e s s', Df e (log_event (EvCall e) s) s' → D s s'.
Hypothesis E_call : ∀ e s s', Ef e (log_event (EvCall e) s) s' → E s s'.
Hypothesis D_value : ∀ c e s s', Df e (log_event (EvValue c e) s) s' → D s s'.
Hypothesis E_value : ∀ c e s s', Ef e (log_event (EvValue c e) s) s' → E s s'.

Lemma outcome_bind {A B} s (r : result A) (k : A → state → result B) :
  outcome D E s r →
  (∀ a s1, r = Done a s1 → outcome D E s1 (k a s1)) →
  outcome D E s (bind r k).
Proof using D_trans DE_trans.
  intros Hr Hk. destruct r as [a s1| |]; simpl in *; [|done..].
  specialize (Hk a s1 eq_refl). destruct (k a s1); simpl in *; eauto.
Qed.

Section Step.
Variable rec : callees.
Hypothesis IH : sound D E rec.

Lemma effectFn_sound e s : outcome (Df e) (Ef e) s (effectFn rec e s).
Proof using All.
  unfold effectFn. destruct (effects s !! e) as [r|] eqn:He;
    [|by apply Ef_missing].
  destruct IH as [IHc _].
  specialize (IHc (fn r) (enter e (cleanup e (log_event (EvRun e) s)))).
  destruct (run_closure rec _ _); simpl in *; eauto.
Qed.

Lemma computed_scheduler_sound c s :
  outcome D E s (computed_scheduler rec c s).
Proof using All.
  unfold computed_scheduler.
  destruct (computeds s !! c) as [cr|]; [|apply E_refl].
  destruct (c_dirty cr); [apply D_refl|].
  destruct IH as [_ IHt].
  specialize (IHt (TComputed c) "value" (mark_dirty c s)).
  destruct (run_trigger rec _ _ _); simpl in *; eauto.
Qed.

Lemma notify_sound e s : outcome D E s (notify rec e s).
Proof using All.
  unfold notify. destruct (effects s !! e) as [r|] eqn:He; [|apply E_refl].
  destruct (opt_scheduler r) as [[c|f]|] eqn:Hs.
  - apply computed_scheduler_sound.
  - apply outcome_bind; [apply IH|]. intros; apply D_refl.
  - pose proof (effectFn_sound e s) as Hrun.
    destruct (effectFn rec e s); simpl in *; eauto.
Qed.

Lemma forEach_sound l s : outcome D E s (forEach (notify rec) l s).
Proof using All.
  revert s. induction l as [|e l IHl]; intros s; simpl; [apply D_refl|].
  apply outcome_bind; [apply notify_sound | auto].
Qed.

Lemma trigger_sound t k s : outcome D E s (trigger rec t k s).
Proof using All.
  unfold trigger. destruct (bucket s !! t); [|apply D_refl].
  apply forEach_sound.
Qed.

Lemma effect_sound f lazy sch s : outcome D E s (effect rec f lazy sch s).
Proof using All.
  unfold effect. destruct lazy; [apply D_new_effect|].
  pose proof (effectFn_sound (length (effects s))
    (with_effects (effects s ++ [{| fn := f; opt_lazy := false;
                                     opt_scheduler := sch; deps := [] |}]) s))
    as Hrun.
  destruct (effectFn rec _ _); simpl in *; eauto.
Qed.

Lemma get_value_sound c s : outcome D E s (get_value rec c s).
Proof using All.
  unfold get_value. destruct (computeds s !! c) as [cr|]; [|apply E_refl].
  destruct (c_dirty cr).
  2:{ simpl. eapply D_trans; [apply D_read | apply D_track]. }
  pose proof (effectFn_sound (c_effectFn cr)
                (log_event (EvValue c (c_effectFn cr)) s)) as Hrun.
  destruct (effectFn rec _ _) as [v s1|s1|]; simpl in *; [| |done].
  - eapply D_trans; [by eapply D_value|].
    eapply D_trans; [apply D_set_cache | apply D_track].
  - by eapply E_value.
Qed.

Lemma set_trap_sound k v s : outcome D E s (set_trap rec k v s).
Proof using All.
  unfold set_trap. pose proof (trigger_sound TData k (store k v s)) as H.
  pose proof (D_store k v s).
  destruct (trigger rec _ _ _); simpl in *; eauto.
Qed.

Lemma exec_sound p s : outcome D E s (exec rec p s).
Proof using All.
  revert s.
  induction p as [v| |k cont IHp|k v cont IHp|v cont IHp
                  |f _ lazy sch cont IHp|e cont IHp|g _ cont IHp
                  |c cont IHp]; intros s; simpl.
  - apply D_refl.
  - apply E_refl.
  - pose proof (IHp (default VUndefined (data (track TData k s) !! k))
                    (track TData k s)) as H.
    pose proof (D_track TData k s).
    destruct (exec rec _ _); simpl in *; eauto.
  - apply outcome_bind; [apply set_trap_sound | auto].
  - pose proof (IHp (print v s)) as H. pose proof (D_print v s).
    destruct (exec rec _ _); simpl in *; eauto.
  - apply outcome_bind; [apply effect_sound | auto].
  - apply outcome_bind; [|auto].
    pose proof (effectFn_sound e (log_event (EvCall e) s)) as Hrun.
    destruct (effectFn rec _ _); simpl in *; eauto.
  - pose proof (IHp (length (computeds s)) (computed g s).2) as H.
    pose proof (D_computed g s).
    destruct (exec rec _ _); simpl in *; eauto.
  - apply outcome_bind; [apply get_value_sound | auto].
Qed.

Lemma next_sound : sound D E (next rec).
Proof using All. split; [apply exec_sound | apply trigger_sound]. Qed.
End Step.

Lemma level_sound n : sound D E (level n).
Proof using All.
  induction n as [|n IHn]; [by split | by apply next_sound].
Qed.

Lemma level_sound_effectFn n e s :
  outcome (Df e) (Ef e) s (effectFn (level n) e s).
Proof using All. apply effectFn_sound, level_sound. Qed.

Lemma level_sound_forEach n l s :
  outcome D E s (forEach (notify (level n)) l s).
Proof using All. apply forEach_sound, level_sound. Qed.

Lemma level_sound_get_value n c s :
  outcome D E s (get_value (level n) c s).
Proof using All. apply get_value_sound, level_sound. Qed.

Lemma level_sound_effect n f lazy sch s :
  outcome D E s (effect (level n) f lazy sch s).
Proof using All. apply effect_sound, level_sound. Qed.
End Soundness.

(** The runtime for relations that every single heap update respects. *)
Section Preorder.
Variable R : state → state → Prop.
Hypothesis HR : closed R.

Lemma R_effectFn_return e r s s3 :
  effects s !! e = Some r →
  R (enter e (cleanup e (log_event (EvRun e) s))) s3 → R s (leave s3).
Proof using HR.
  intros He H3. eapply (closed_trans R HR); [by eapply (closed_begin R HR)|].
  eapply (closed_trans R HR); [exact H3 | apply (closed_leave R HR)].
Qed.

Lemma R_effectFn_throw e r s s3 :
  effects s !! e = Some r →
  R (enter e (cleanup e (log_event (EvRun e) s))) s3 → R s s3.
Proof using HR.
  intros He H3. eapply (closed_trans R HR); [by eapply (closed_begin R HR)|].
  exact H3.
Qed.

Lemma R_after (s0 s s' : state) : R s0 s → R s s' → R s0 s'.
Proof using HR. apply (closed_trans R HR). Qed.

Ltac preorder lem :=
  apply (lem R R (λ _, R) (λ _, R));
    [ exact (closed_refl R HR) | exact (closed_trans R HR)
    | exact (closed_refl R HR) | exact (closed_trans R HR)
    | exact (closed_track R HR) | exact (closed_store R HR)
    | exact (closed_print R HR) | exact (closed_mark_dirty R HR)
    | exact (closed_set_cache R HR) | exact (closed_new_effect R HR)
    | exact (closed_computed R HR) | exact (closed_value R HR)
    | exact R_effectFn_return | exact R_effectFn_throw
    | intros; apply (closed_refl R HR)
    | intros; assumption
    | intros; assumption
    | intros; eapply R_after; [apply (closed_new_effect R HR) | eassumption]
    | intros; eapply R_after; [apply (closed_new_effect R HR) | eassumption]
    | intros; eapply R_after; [apply (closed_call R HR) | eassumption]
    | intros; eapply R_after; [apply (closed_call R HR) | eassumption]
    | intros; eapply R_after; [apply (closed_value R HR) | eassumption]
    | intros; eapply R_after; [apply (closed_value R HR) | eassumption] ].

Lemma preserves n : sound R R (level n).
Proof using HR. preorder level_sound. Qed.

Lemma preserves_effectFn n e s : outcome R R s (effectFn (level n) e s).
Proof using HR. preorder level_sound_effectFn. Qed.

Lemma preserves_forEach n l s :
  outcome R R s (forEach (notify (level n)) l s).
Proof using HR. preorder level_sound_forEach. Qed.

Lemma preserves_get_value n c s : outcome R R s (get_value (level n) c s).
Proof using HR. preorder level_sound_get_value. Qed.

Lemma preserves_effect n f lazy sch s :
  outcome R R s (effect (level n) f lazy sch s).
Proof using HR. preorder level_sound_effect. Qed.

Lemma preserves_exec n p s : outcome R R s (exec (level n) p s).
Proof using HR. apply (preserves (S n)). Qed.

Lemma preserves_trigger n t k s : outcome R R s (trigger (level n) t k s).
Proof using HR. apply (preserves (S n)). Qed.
End Preorder.

(** ** What never changes: [ext] *)

Lemma ext_refl s : ext s s.
Proof. split; eauto. Qed.

Lemma ext_trans s1 s2 s3 : ext s1 s2 → ext s2 s3 → ext s1 s3.
Proof.
  intros [H1 H2 H3 H4 H5] [G1 G2 G3 G4 G5]. split.
  - by etrans.
  - intros e r Hr. destruct (H2 e r Hr) as (r' & Hr' & ? & ? & ?).
    destruct (G2 e r' Hr') as (r'' & ? & ? & ? & ?).
    exists r''. split_and!; congruence.
  - intros c cr Hc. destruct (H3 c cr Hc) as (cr' & Hc' & ?).
    destruct (G3 c cr' Hc') as (cr'' & ? & ?). exists cr''. split; congruence.
  - eauto.
  - lia.
Qed.

Lemma lookup_alter_effect (f : effect_rec → effect_rec) (i : nat)
    (l : list effect_rec) (e : nat) r :
  (∀ x, fn (f x) = fn x ∧ opt_lazy (f x) = opt_lazy x ∧
        opt_scheduler (f x) = opt_scheduler x) →
  l !! e = Some r →
  ∃ r', alter f i l !! e = Some r' ∧ fn r' = fn r ∧
        opt_lazy r' = opt_lazy r ∧ opt_scheduler r' = opt_scheduler r.
Proof.
  intros Hf Hr. destruct (decide (i = e)) as [->|Hne].
  - rewrite list_lookup_alter_eq, Hr. simpl. eexists; split; [done|]. apply Hf.
  - rewrite list_lookup_alter_ne by done. eauto.
Qed.

Lemma set_at_default s t k : default ∅ (bucket s !! t) !! k = set_at s t k.
Proof. unfold set_at. destruct (bucket s !! t); simpl; [done|]. apply lookup_empty. Qed.

Lemma length_foldl_alter {A} (f : A → A) (l : list nat) (st : list A) :
  length (foldl (λ st i, alter f i st) st l) = length st.
Proof.
  revert st. induction l as [|i l IH]; intros st; simpl; [done|].
  by rewrite IH, length_alter.
Qed.

Lemma ext_subscribe a t k sid s : ext s (subscribe a t k sid s).
Proof.
  split; simpl; eauto.
  - by apply prefix_app_r.
  - intros e r Hr. by apply lookup_alter_effect.
  - by rewrite length_alter.
Qed.

Lemma ext_track t k s : ext s (track t k s).
Proof.
  unfold track. destruct (activeEffect s) as [a|]; [|apply ext_refl].
  rewrite set_at_default. destruct (set_at s t k) as [sid|] eqn:Hk.
  - apply ext_subscribe.
  - eapply ext_trans; [|apply ext_subscribe].
    split; simpl; eauto; [|rewrite length_app; lia].
    intros t' k' sid' H'. unfold set_at in *. simpl.
    destruct (decide (t = t')) as [->|Hne].
    + rewrite lookup_insert_eq. simpl.
      destruct (decide (k = k')) as [->|Hne'].
      * destruct (bucket s !! t'); simpl in *; congruence.
      * rewrite lookup_insert_ne by done. 
        destruct (bucket s !! t'); simpl in *; done.
    + by rewrite lookup_insert_ne.
Qed.

Lemma ext_begin e s : ext s (enter e (cleanup e (log_event (EvRun e) s))).
Proof.
  split; simpl; eauto.
  - by apply prefix_app_r.
  - intros e' r Hr. by apply lookup_alter_effect.
  - by rewrite length_foldl_alter.
Qed.

Lemma ext_leave s : ext s (leave s).
Proof. split; simpl; eauto. Qed.

Lemma ext_store k v s : ext s (store k v s).
Proof. split; simpl; eauto. by apply prefix_app_r. Qed.

Lemma ext_print v s : ext s (print v s).
Proof. split; simpl; eauto. Qed.

Lemma lookup_alter_computed (f : computed_rec → computed_rec) (i : nat)
    (l : list computed_rec) (c : nat) cr :
  (∀ x, c_effectFn (f x) = c_effectFn x) →
  l !! c = Some cr →
  ∃ cr', alter f i l !! c = Some cr' ∧ c_effectFn cr' = c_effectFn cr.
Proof.
  intros Hf Hr. destruct (decide (i = c)) as [->|Hne].
  - rewrite list_lookup_alter_eq, Hr. simpl. eexists; split; [done|]. apply Hf.
  - rewrite list_lookup_alter_ne by done. eauto.
Qed.

Lemma ext_mark_dirty c s : ext s (mark_dirty c s).
Proof. split; simpl; eauto. intros c' cr Hc. by apply lookup_alter_computed. Qed.

Lemma ext_set_cache c v s : ext s (set_cache c v s).
Proof. split; simpl; eauto. intros c' cr Hc. by apply lookup_alter_computed. Qed.

Lemma ext_new_effect r s : ext s (with_effects (effects s ++ [r]) s).
Proof.
  split; simpl; eauto. intros e r' Hr. exists r'.
  by rewrite (lookup_app_l_Some _ _ _ _ Hr).
Qed.

Lemma ext_computed g s : ext s (computed g s).2.
Proof.
  split; simpl; eauto.
  - intros e r' Hr. exists r'. by rewrite (lookup_app_l_Some _ _ _ _ Hr).
  - intros c cr Hc. exists cr. by rewrite (lookup_app_l_Some _ _ _ _ Hc).
Qed.

Lemma ext_log ev s : ext s (log_event ev s).
Proof. split; simpl; eauto. by apply prefix_app_r. Qed.

Lemma ext_closed : closed ext.
Proof.
  split; eauto using ext_refl, ext_trans, ext_track, ext_store, ext_print,
    ext_mark_dirty, ext_set_cache, ext_new_effect, ext_computed, ext_log,
    ext_begin, ext_leave.
Qed.

Lemma level_ext n : sound ext ext (level n).
Proof. apply preserves, ext_closed. Qed.

(** ** The stack discipline of [effectStack] *)

Lemma effectStack_track t k s : effectStack (track t k s) = effectStack s.
Proof.
  unfold track. destruct (activeEffect s); [|done].
  by destruct (default ∅ (bucket s !! t) !! k).
Qed.

Lemma stack_hypotheses :
  (∀ e r s s3, effects s !! e = Some r →
     same_stack (enter e (cleanup e (log_event (EvRun e) s))) s3 →
     same_stack s (leave s3)) ∧
  (∀ e r s s3, effects s !! e = Some r →
     grown_stack (enter e (cleanup e (log_event (EvRun e) s))) s3 →
     grown_stack s s3).
Proof.
  unfold same_stack, grown_stack. split.
  - intros e r s s3 _ H. simpl in *. rewrite H. apply removelast_last.
  - intros e r s s3 _ H. simpl in *. etrans; [|exact H]. by apply prefix_app_r.
Qed.

Lemma level_stack n : sound same_stack grown_stack (level n).
Proof.
  apply (level_sound same_stack grown_stack
           (λ _, same_stack) (λ _, grown_stack));
    try apply stack_hypotheses; unfold same_stack, grown_stack; try done.
  - congruence.
  - intros s1 s2 s3 ->. done.
  - apply effectStack_track.
Qed.

Lemma effectFn_stack n e s :
  outcome same_stack grown_stack s (effectFn (level n) e s).
Proof.
  apply (level_sound_effectFn same_stack grown_stack
           (λ _, same_stack) (λ _, grown_stack));
    try apply stack_hypotheses; unfold same_stack, grown_stack; try done.
  - congruence.
  - intros s1 s2 s3 ->. done.
  - apply effectStack_track.
Qed.

(** ** What the history says about the subscriptions *)

Lemma tracked_snoc e h ev : tracked e (h ++ [ev]) = tracked_step e (tracked e h) ev.
Proof. unfold tracked. by rewrite foldl_snoc. Qed.

Lemma tracked_app_run e h seg : tracked e (h ++ EvRun e :: seg) = tracked e seg.
Proof.
  unfold tracked. rewrite foldl_app. simpl. by rewrite decide_True.
Qed.

Lemma tracked_event e h t k sid :
  (t, k, sid) ∈ tracked e h → EvTrack e t k sid ∈ h.
Proof.
  induction h as [|ev h IH] using rev_ind; [by intros ?%elem_of_nil|].
  rewrite tracked_snoc, elem_of_app, list_elem_of_singleton.
  destruct ev as [e'|e' t' k' sid'| | |]; simpl; try case_decide; subst; auto.
  - by rewrite elem_of_nil.
  - rewrite elem_of_app, list_elem_of_singleton. intros [|[=]]; subst; auto.
Qed.

(** A subscription taken by [e] and not followed by a new entry of [e] is
    still among [tracked]. *)
Lemma tracked_since e pre t k sid post :
  EvRun e ∉ post →
  (t, k, sid) ∈ tracked e (pre ++ EvTrack e t k sid :: post).
Proof.
  induction post as [|ev post IH] using rev_ind; intros Hpost.
  - rewrite tracked_snoc. simpl. rewrite decide_True by done.
    rewrite elem_of_app, list_elem_of_singleton. auto.
  - rewrite app_comm_cons, app_assoc, tracked_snoc.
    rewrite elem_of_app, list_elem_of_singleton in Hpost.
    specialize (IH ltac:(tauto)).
    destruct ev as [e'|e' t' k' sid'| | |]; simpl; try case_decide; subst; auto.
    + tauto.
    + rewrite elem_of_app. auto.
Qed.

Lemma runs_app e h1 h2 : runs e (h1 ++ h2) = runs e h1 + runs e h2.
Proof. unfold runs. by rewrite filter_app, length_app. Qed.

(** ** The invariant of the registry *)

Lemma Inv_init d : Inv (init d).
Proof.
  split; simpl; try done.
  - intros e sid. unfold deps_of. simpl. rewrite elem_of_nil.
    split; [done|]. by intros (m & ? & _).
  - intros a. by rewrite elem_of_nil.
  - intros e t k sid. by rewrite elem_of_nil.
Qed.

Lemma Inv_active s a : Inv s → activeEffect s = Some a → a < length (effects s).
Proof.
  intros HI Ha. apply (inv_stack s HI). apply last_Some_elem_of.
  by rewrite <- (inv_scoped s HI).
Qed.

Lemma Inv_member s sid m e :
  Inv s → sets s !! sid = Some m → e ∈ m → e < length (effects s).
Proof.
  intros HI Hm He.
  assert (sid ∈ deps_of s e) as Hd by (apply (inv_consistent s HI); eauto).
  unfold deps_of in Hd. destruct (effects s !! e) eqn:Hl.
  - by eapply lookup_lt_Some.
  - by rewrite elem_of_nil in Hd.
Qed.

(** The characterization behind the pruning of stale dependencies: the
    registry holds for [e] exactly the fields [e] read since it was last
    entered. *)
Lemma subscribed_iff_reads s e t k :
  Inv s → subscribed s e t k ↔ (t, k) ∈ reads e (history s).
Proof.
  intros HI. unfold subscribed, reads. rewrite list_elem_of_fmap. split.
  - destruct (set_at s t k) as [sid|] eqn:Hk; [|done]. intros [_ Hd].
    rewrite (inv_traced s HI), list_elem_of_fmap in Hd.
    destruct Hd as ([[t' k'] sid'] & -> & Hin). simpl in *.
    pose proof (inv_hist s HI _ _ _ _ (tracked_event _ _ _ _ _ Hin)) as Hk'.
    destruct (inv_inj s HI _ _ _ _ _ Hk Hk') as [-> ->].
    by exists (t', k', sid').
  - intros ([[t' k'] sid] & [= <- <-] & Hin).
    rewrite (inv_hist s HI _ _ _ _ (tracked_event _ _ _ _ _ Hin)).
    assert (sid ∈ deps_of s e) as Hd.
    { rewrite (inv_traced s HI), list_elem_of_fmap. by exists (t, k, sid). }
    split; [|done].
    apply (inv_consistent s HI) in Hd as (m & -> & ?). done.
Qed.

(** *** Every heap update keeps the invariant *)

Lemma lookup_foldl_alter (f : list nat → list nat) (l : list nat)
    (st : list (list nat)) (j : nat) :
  (∀ x, f (f x) = f x) →
  foldl (λ st i, alter f i st) st l !! j
  = if decide (j ∈ l) then f <$> st !! j else st !! j.
Proof.
  intros Hf. revert st. induction l as [|i l IH]; intros st; simpl.
  - done.
  - rewrite IH. destruct (decide (j = i)) as [->|Hne].
    + rewrite list_lookup_alter_eq, (decide_True (P := i ∈ i :: l)) by (by left).
      case_decide; [|done]. destruct (st !! i); simpl; by rewrite ?Hf.
    + rewrite list_lookup_alter_ne by done.
      destruct (decide (j ∈ l)).
      * by rewrite decide_True by (by right).
      * rewrite decide_False; [done|]. rewrite elem_of_cons. tauto.
Qed.

Lemma deps_of_subscribe a t k sid s e :
  a < length (effects s) →
  deps_of (subscribe a t k sid s) e
  = if decide (e = a) then deps_of s a ++ [sid] else deps_of s e.
Proof.
  intros Ha. unfold deps_of. simpl. case_decide as He.
  - subst. rewrite list_lookup_alter_eq.
    destruct (effects s !! a) eqn:Hl; [done|].
    apply lookup_ge_None in Hl. lia.
  - by rewrite list_lookup_alter_ne.
Qed.

Lemma set_at_with_sets l s t k : set_at (with_sets l s) t k = set_at s t k.
Proof. done. Qed.

Lemma Inv_subscribe a t k sid s :
  Inv s → activeEffect s = Some a → set_at s t k = Some sid →
  Inv (subscribe a t k sid s).
Proof.
  intros HI Ha Hk.
  pose proof (Inv_active s a HI Ha) as Hlt.
  pose proof (inv_bucket s HI t k sid Hk) as Hsid.
  destruct (lookup_lt_is_Some_2 _ _ Hsid) as [m0 Hm0].
  split.
  - intros e sid'. rewrite deps_of_subscribe by done. simpl.
    pose proof (inv_consistent s HI e sid') as Hc.
    destruct (decide (sid' = sid)) as [->|Hne].
    + rewrite list_lookup_alter_eq, Hm0. simpl. rewrite Hm0 in Hc.
      case_decide as He.
      * subst. split; [|intros _; rewrite elem_of_app, list_elem_of_singleton; auto].
        intros _. exists (set_add a m0). split; [done|].
        apply elem_of_set_add. auto.
      * rewrite Hc. split.
        -- intros (m & [= <-] & Hin). eexists. split; [done|].
           apply elem_of_set_add. auto.
        -- intros (m & [= <-] & Hin). exists m0. split; [done|].
           apply elem_of_set_add in Hin as [|]; done.
    + rewrite list_lookup_alter_ne by done. case_decide as He; [|done].
      subst. rewrite elem_of_app, list_elem_of_singleton. rewrite <- Hc. naive_solver.
  - apply (inv_scoped s HI).
  - intros a' Ha'. simpl in *. rewrite length_alter. by apply (inv_stack s HI).
  - intros t' k' sid' H'. simpl. rewrite length_alter.
    by apply (inv_bucket s HI t' k').
  - apply (inv_inj s HI).
  - intros e. rewrite deps_of_subscribe by done. simpl.
    rewrite tracked_snoc. simpl. rewrite (decide_ext (a = e) (e = a)) by done.
    case_decide.
    + subst. rewrite fmap_app. simpl. by rewrite <- (inv_traced s HI).
    + apply (inv_traced s HI).
  - intros e t' k' sid'. simpl. rewrite elem_of_app, list_elem_of_singleton.
    intros [H|[= -> -> -> ->]]; [|done]. by apply (inv_hist s HI e).
Qed.

Lemma set_at_insert s t k sid t' k' :
  set_at (with_bucket (<[t := <[k := sid]> (default ∅ (bucket s !! t))]> (bucket s)) s)
         t' k'
  = if decide (t = t' ∧ k = k') then Some sid else set_at s t' k'.
Proof.
  unfold set_at. simpl. destruct (decide (t = t')) as [->|Hne].
  - rewrite lookup_insert_eq. simpl. destruct (decide (k = k')) as [->|Hne'].
    + rewrite lookup_insert_eq. by rewrite decide_True.
    + rewrite lookup_insert_ne by done. rewrite decide_False by tauto.
      by destruct (bucket s !! t').
  - rewrite lookup_insert_ne by done. by rewrite decide_False by tauto.
Qed.

Lemma Inv_track t k s : Inv s → Inv (track t k s).
Proof.
  intros HI. unfold track. destruct (activeEffect s) as [a|] eqn:Ha; [|done].
  rewrite set_at_default. destruct (set_at s t k) as [sid|] eqn:Hk.
  { by apply Inv_subscribe. }
  apply Inv_subscribe.
  - split; simpl.
    + intros e sid. unfold deps_of. simpl.
      rewrite (inv_consistent s HI e sid).
      split; intros (m & Hm & He).
      * exists m. split; [|done]. by apply lookup_app_l_Some.
      * apply lookup_app_Some in Hm as [Hm|[_ Hm]]; [eauto|].
        apply list_lookup_singleton_Some in Hm as [_ <-].
        by apply elem_of_nil in He.
    + apply (inv_scoped s HI).
    + apply (inv_stack s HI).
    + intros t' k' sid. rewrite (set_at_insert (with_sets _ s) t k).
      rewrite length_app. simpl. case_decide; [intros [= <-]; lia|].
      rewrite set_at_with_sets. intros H'%(inv_bucket s HI). lia.
    + intros t1 k1 t2 k2 sid.
      rewrite !(set_at_insert (with_sets _ s) t k), !set_at_with_sets.
      repeat case_decide.
      * naive_solver.
      * intros [= <-] H'%(inv_bucket s HI). lia.
      * intros H'%(inv_bucket s HI) [= <-]. lia.
      * apply (inv_inj s HI).
    + apply (inv_traced s HI).
    + intros e t' k' sid H'%(inv_hist s HI).
      rewrite (set_at_insert (with_sets _ s) t k), set_at_with_sets.
      case_decide as Heq; [|done]. destruct Heq as [<- <-]. congruence.
  - done.
  - rewrite (set_at_insert (with_sets _ s) t k). by rewrite decide_True.
Qed.

Lemma deps_of_cleanup e s e' :
  deps_of (cleanup e s) e' = if decide (e' = e) then [] else deps_of s e'.
Proof.
  unfold deps_of. simpl. case_decide as He.
  - subst. rewrite list_lookup_alter_eq. by destruct (effects s !! e).
  - by rewrite list_lookup_alter_ne.
Qed.

Lemma sets_cleanup e s sid :
  sets (cleanup e s) !! sid
  = if decide (sid ∈ deps_of s e) then set_delete e <$> sets s !! sid
    else sets s !! sid.
Proof. simpl. apply lookup_foldl_alter, set_delete_idemp. Qed.

(** After [cleanup] the effect is in no Set and its [deps] is empty; the
    other effects are where they were. *)
Lemma cleanup_spec e s :
  Inv s →
  deps_of (cleanup e s) e = [] ∧
  (∀ sid m, sets (cleanup e s) !! sid = Some m → e ∉ m) ∧
  (∀ sid e', e' ≠ e →
     (∃ m, sets (cleanup e s) !! sid = Some m ∧ e' ∈ m)
     ↔ (∃ m, sets s !! sid = Some m ∧ e' ∈ m)).
Proof.
  intros HI. split_and!.
  - rewrite deps_of_cleanup. by rewrite decide_True.
  - intros sid m. rewrite sets_cleanup. case_decide as Hd.
    + destruct (sets s !! sid) as [m0|]; simpl; [|done]. intros [= <-].
      rewrite elem_of_set_delete. tauto.
    + intros Hm Hin. apply Hd, (inv_consistent s HI). eauto.
  - intros sid e' Hne. rewrite sets_cleanup. case_decide; [|done].
    destruct (sets s !! sid) as [m0|]; simpl; [|naive_solver].
    split; intros (m & [= <-] & Hin); eexists; (split; [done|]).
    + apply elem_of_set_delete in Hin. tauto.
    + by apply elem_of_set_delete.
Qed.

Lemma Inv_cleanup_run e r s :
  Inv s → effects s !! e = Some r → Inv (cleanup e (log_event (EvRun e) s)).
Proof.
  intros HI He.
  change (cleanup e (log_event (EvRun e) s))
    with (log_event (EvRun e) (cleanup e s)).
  destruct (cleanup_spec e s) as (Hd & Hno & Hoth); [done|].
  split.
  - intros e' sid. change (deps_of (log_event (EvRun e) (cleanup e s)) e')
      with (deps_of (cleanup e s) e').
    change (sets (log_event (EvRun e) (cleanup e s))) with (sets (cleanup e s)).
    destruct (decide (e' = e)) as [->|Hne].
    + rewrite Hd, elem_of_nil. split; [done|].
      intros (m & Hm & Hin). by apply (Hno sid m).
    + rewrite (Hoth sid e' Hne), deps_of_cleanup, decide_False by done.
      apply (inv_consistent s HI).
  - apply (inv_scoped s HI).
  - intros a Ha. simpl in *. rewrite length_alter. by apply (inv_stack s HI).
  - intros t k sid H'. simpl. rewrite length_foldl_alter.
    by apply (inv_bucket s HI t k).
  - apply (inv_inj s HI).
  - intros e'. change (deps_of (log_event (EvRun e) (cleanup e s)) e')
      with (deps_of (cleanup e s) e').
    rewrite deps_of_cleanup. simpl. rewrite tracked_snoc. simpl.
    rewrite (decide_ext (e = e') (e' = e)) by done.
    case_decide; [done|]. apply (inv_traced s HI).
  - intros e' t k sid. simpl. rewrite elem_of_app, list_elem_of_singleton.
    intros [H|[=]]. by apply (inv_hist s HI e').
Qed.

Lemma Inv_enter e s : Inv s → e < length (effects s) → Inv (enter e s).
Proof.
  intros HI He. split; try apply HI.
  - simpl. by rewrite last_snoc.
  - intros a. simpl. rewrite elem_of_app, list_elem_of_singleton.
    intros [?| ->]; [|done]. by apply (inv_stack s HI).
Qed.

Lemma Inv_begin e r s :
  Inv s → effects s !! e = Some r →
  Inv (enter e (cleanup e (log_event (EvRun e) s))).
Proof.
  intros HI He. apply Inv_enter; [by eapply Inv_cleanup_run|].
  simpl. rewrite length_alter. by eapply lookup_lt_Some.
Qed.

Lemma elem_of_removelast (x : nat) l : x ∈ removelast l → x ∈ l.
Proof.
  destruct (decide (l = [])) as [->|Hne]; [done|].
  destruct (exists_last Hne) as (l' & a & ->).
  rewrite removelast_last, elem_of_app. auto.
Qed.

Lemma Inv_leave s : Inv s → Inv (leave s).
Proof.
  intros HI. split; try apply HI.
  - done.
  - intros a Ha%elem_of_removelast. by apply (inv_stack s HI).
Qed.

Lemma Inv_store k v s : Inv s → Inv (store k v s).
Proof.
  intros HI. split; try apply HI.
  - intros e. change (deps_of (store k v s) e) with (deps_of s e). simpl.
    rewrite tracked_snoc. apply (inv_traced s HI).
  - intros e t k' sid. simpl. rewrite elem_of_app, list_elem_of_singleton.
    intros [H|[=]]. by apply (inv_hist s HI e).
Qed.

Lemma Inv_print v s : Inv s → Inv (print v s).
Proof. intros HI. split; apply HI. Qed.

Lemma Inv_mark_dirty c s : Inv s → Inv (mark_dirty c s).
Proof. intros HI. split; apply HI. Qed.

Lemma Inv_set_cache c v s : Inv s → Inv (set_cache c v s).
Proof. intros HI. split; apply HI. Qed.

Lemma Inv_new_effect f lazy sch s :
  Inv s →
  Inv (with_effects (effects s ++ [{| fn := f; opt_lazy := lazy;
                                      opt_scheduler := sch; deps := [] |}]) s).
Proof.
  intros HI.
  assert (∀ e, deps_of (with_effects (effects s ++
            [{| fn := f; opt_lazy := lazy; opt_scheduler := sch;
                deps := [] |}]) s) e = deps_of s e) as Hdeps.
  { intros e. unfold deps_of. simpl.
    destruct (effects s !! e) as [r|] eqn:Hl.
    - by rewrite (lookup_app_l_Some _ _ _ _ Hl).
    - apply lookup_ge_None in Hl.
      rewrite lookup_app_r by done.
      by destruct (e - length (effects s)) as [|[|]]. }
  split; try apply HI.
  - intros e sid. rewrite Hdeps. apply (inv_consistent s HI).
  - intros a Ha. simpl in *. rewrite length_app. simpl.
    pose proof (inv_stack s HI a Ha). lia.
  - intros e. rewrite Hdeps. apply (inv_traced s HI).
Qed.

Lemma Inv_computed g s : Inv s → Inv (computed g s).2.
Proof.
  intros HI.
  pose proof (Inv_new_effect g true (Some (SchedComputed (length (computeds s))))
                s HI) as HI'.
  split; apply HI'.
Qed.

Lemma Inv_log ev s :
  (∀ e, ev ≠ EvRun e) → (∀ e t k sid, ev ≠ EvTrack e t k sid) →
  Inv s → Inv (log_event ev s).
Proof.
  intros Hrun Htrack HI. split; try apply HI.
  - intros e. change (deps_of (log_event ev s) e) with (deps_of s e). simpl.
    rewrite tracked_snoc, (inv_traced s HI).
    destruct ev; simpl; try done; case_decide; subst; try done.
    + by destruct (Hrun e).
    + by destruct (Htrack e t k sid).
  - intros e t k sid. simpl. rewrite elem_of_app, list_elem_of_singleton.
    intros [H|Heq]; [by apply (inv_hist s HI e)|].
    by destruct (Htrack e t k sid).
Qed.

Lemma Inv_closed : closed keeps.
Proof.
  split; unfold keeps;
    eauto using Inv_track, Inv_store, Inv_print, Inv_mark_dirty,
      Inv_set_cache, Inv_new_effect, Inv_computed, Inv_begin, Inv_leave.
  - intros c e s. by apply Inv_log.
  - intros e s. by apply Inv_log.
Qed.

Lemma level_Inv n : sound keeps keeps (level n).
Proof. apply preserves, Inv_closed. Qed.

(** ** From the callees to the functions themselves *)

Section Functions.
Variables D E : state → state → Prop.
Hypothesis H : ∀ n, sound D E (level n).

Lemma sound_exec n p s : outcome D E s (exec (level n) p s).
Proof using H. apply (H (S n)). Qed.

Lemma sound_trigger n t k s : outcome D E s (trigger (level n) t k s).
Proof using H. apply (H (S n)). Qed.

Lemma sound_set_trap n k v s : outcome D E s (set_trap (level n) k v s).
Proof using H.
  pose proof (sound_exec n (Put k v (Ret VUndefined)) s) as Hc. simpl in Hc.
  by destruct (set_trap (level n) k v s).
Qed.

End Functions.

(** ** The stack discipline of [4-6.js] *)

Lemma stack46_bind s r k :
  stack46 s r →
  (∀ s1, V46.effectStack s1 = V46.effectStack s → stack46 s1 (k s1)) →
  stack46 s (V46.bind r k).
Proof.
  intros Hr Hk. destruct r as [s1|s1|]; simpl in *; [|done..].
  specialize (Hk s1 Hr). destruct (k s1); simpl in *; congruence.
Qed.

Lemma stack46_track t k s : stack46 s (V46.track t k s).
Proof.
  unfold V46.track.
  destruct (default ∅ (V46.bucket s !! t) !! k);
    destruct (V46.activeEffect s); simpl; reflexivity.
Qed.

Section Stack46.
Variable rc : V46.prog → V46.state → V46.result.
Hypothesis IH : ∀ p s, stack46 s (rc p s).

Lemma stack46_effectFn e s : stack46 s (V46.effectFn rc e s).
Proof using IH.
  unfold V46.effectFn. destruct (V46.effects s !! e) as [r|]; [|simpl; reflexivity].
  specialize (IH (V46.fn r) (V46.enter e (V46.cleanup e s))).
  destruct (rc _ _) as [s3|s3|]; simpl in *; [| |done].
  - rewrite IH. apply removelast_last.
  - etrans; [|exact IH]. by apply prefix_app_r.
Qed.

Lemma stack46_forEach l s : stack46 s (V46.forEach (V46.call rc) l s).
Proof using IH.
  revert s. induction l as [|x l IHl]; intros s; simpl; [done|].
  apply stack46_bind; [|intros s1 _; apply IHl].
  destruct x; simpl; try reflexivity. apply stack46_effectFn.
Qed.

Lemma stack46_trigger t k s : stack46 s (V46.trigger rc t k s).
Proof using IH.
  unfold V46.trigger. destruct (V46.bucket s !! t); [|done].
  apply stack46_forEach.
Qed.

Lemma stack46_exec p s : stack46 s (V46.exec rc p s).
Proof using IH.
  revert s. induction p as [| |k cont IHp|k v cont IHp|v cont IHp|f _ cont IHp];
    intros s; simpl; try reflexivity.
  - apply stack46_bind; [apply stack46_track | auto].
  - apply stack46_bind; [apply (stack46_trigger TData k (V46.store k v s)) | auto].
  - apply (IHp (V46.print v s)).
  - apply stack46_bind; [|auto]. apply (stack46_effectFn _ (V46.Build_state _ _ _ _ _ _ _)).
Qed.
End Stack46.

Lemma stack46_level n p s : stack46 s (V46.level n p s).
Proof.
  revert p s. induction n as [|n IHn]; intros p s; [done|].
  by apply stack46_exec.
Qed.

Lemma forEach_pass f l s s' : forEach f l s = Done tt s' ↔ pass f l s s'.
Proof.
  revert s. induction l as [|e l IH]; intros s; simpl.
  - split; [intros [= <-]; constructor | by inversion 1].
  - split.
    + destruct (f e s) as [[] s1| |] eqn:He; simpl; [|done..].
      intros Hrest%IH. by econstructor.
    + inversion 1 as [|e0 l0 s0 s1 s2 He Hrest]; subst. rewrite He. simpl.
      by apply IH.
Qed.

Lemma effectFn_Inv n e s : Inv s → Inv (heap_of (effectFn (level n) e s) s).
Proof.
  intros HI. pose proof (preserves_effectFn keeps Inv_closed n e s) as H.
  destruct (effectFn (level n) e s); simpl in *; auto.
Qed.

Lemma exec_Inv n p s : Inv s → Inv (heap_of (exec (level n) p s) s).
Proof.
  intros HI. pose proof (sound_exec _ _ level_Inv n p s) as H.
  destruct (exec (level n) p s); simpl in *; auto.
Qed.

Lemma trigger_Inv n t k s : Inv s → Inv (heap_of (trigger (level n) t k s) s).
Proof.
  intros HI. pose proof (sound_trigger _ _ level_Inv n t k s) as H.
  destruct (trigger (level n) t k s); simpl in *; auto.
Qed.

Lemma get_value_Inv n c s : Inv s → Inv (heap_of (get_value (level n) c s) s).
Proof.
  intros HI. pose proof (preserves_get_value keeps Inv_closed n c s) as H.
  destruct (get_value (level n) c s); simpl in *; auto.
Qed.

Lemma effect_Inv n f lazy sch s :
  Inv s → Inv (heap_of (effect (level n) f lazy sch s) s).
Proof.
  intros HI. unfold effect.
  pose proof (Inv_new_effect f lazy sch s HI) as HI1.
  destruct lazy; [done|].
  pose proof (effectFn_Inv n (length (effects s)) _ HI1) as H.
  destruct (effectFn (level n) _ _); simpl in *; auto.
Qed.

(** * The claims *)

Lemma effectFn_Done rec e s v s' :
  effectFn rec e s = Done v s' →
  ∃ r s3, effects s !! e = Some r ∧
    run_closure rec (fn r) (enter e (cleanup e (log_event (EvRun e) s)))
      = Done v s3 ∧
    s' = leave s3.
Proof.
  unfold effectFn. destruct (effects s !! e) as [r|]; [|done].
  destruct (run_closure rec _ _) as [v' s3| |] eqn:Hrun; simpl; [|done..].
  intros [= <- <-]. eauto.
Qed.

Lemma effectFn_Raised rec e s r s' :
  effects s !! e = Some r →
  effectFn rec e s = Raised s' →
  run_closure rec (fn r) (enter e (cleanup e (log_event (EvRun e) s)))
    = Raised s'.
Proof.
  unfold effectFn. intros ->.
  destruct (run_closure rec _ _) as [v' s3| |] eqn:Hrun; simpl; congruence.
Qed.

Lemma forEach_app f l1 l2 s :
  forEach f (l1 ++ l2) s = bind (forEach f l1 s) (λ _ s1, forEach f l2 s1).
Proof.
  revert s. induction l1 as [|e l1 IH]; intros s; simpl; [done|].
  destruct (f e s); simpl; auto.
Qed.

Lemma trigger_subscribers rec t k s :
  trigger rec t k s
  = forEach (notify rec) (effectsToRun (activeEffect s) (subscribers s t k)) s.
Proof.
  unfold trigger, subscribers, set_at.
  destruct (bucket s !! t) as [m|]; simpl; [|done]. by destruct (m !! k).
Qed.

Lemma history_track t k s a :
  activeEffect s = Some a →
  ∃ sid, history (track t k s) = history s ++ [EvTrack a t k sid].
Proof.
  unfold track. intros ->.
  destruct (default ∅ (bucket s !! t) !! k); simpl; eauto.
Qed.

Lemma track_subscribes t k s a :
  Inv s → activeEffect s = Some a → subscribed (track t k s) a t k.
Proof.
  intros HI Ha. apply subscribed_iff_reads; [by apply Inv_track|].
  destruct (history_track t k s a Ha) as [sid ->].
  unfold reads. rewrite list_elem_of_fmap. exists (t, k, sid). split; [done|].
  apply (tracked_since a (history s) t k sid []), not_elem_of_nil.
Qed.

(** [track] of [4.8计算属性和lazy.js] is a no-op outside every effect. *)
Lemma track_without_active_unit t k s :
  activeEffect s = None → track t k s = s.
Proof. unfold track. by intros ->. Qed.

(** C8 (code defect in [4-6.js]): [track] of [4-6.js] has no guard on
    [activeEffect].  Whenever no effect is running ([activeEffect] is [null]
    at the start, [undefined] once an effect has returned), a read of a
    field throws on [activeEffect.deps], after [bucket] has been changed:
    the [Set] of the field, created if it was not there, has received
    [activeEffect].  The claim asks for no error and an untouched registry,
    which is what [track] of [4.8计算属性和lazy.js] does. *)
Theorem C8_track_4_6_outside_effect k s :
  (∀ e, V46.activeEffect s ≠ V46.Fn e) →
  ∃ s', V46.get_trap k s = V46.Raised s' ∧
    (default ∅ (V46.bucket s !! TData) !! k = None →
     V46.bucket s'
     = <[TData := <[k := length (V46.sets s)]>
                    (default ∅ (V46.bucket s !! TData))]> (V46.bucket s) ∧
     V46.sets s' = V46.sets s ++ [[V46.activeEffect s]]).
Proof.
  intros Hnone. unfold V46.get_trap, V46.track.
  destruct (default ∅ (V46.bucket s !! TData) !! k) as [sid|] eqn:Hk.
  - destruct (V46.activeEffect s) as [| |e] eqn:Ha;
      [eexists; split; [reflexivity | done]..|].
    by destruct (Hnone e).
  - assert (alter (set_add (V46.activeEffect s)) (length (V46.sets s))
                  (V46.sets s ++ [[]])
            = V46.sets s ++ [[V46.activeEffect s]]) as Hset.
    { rewrite alter_app_r_alt by lia.
      by replace (length (V46.sets s) - length (V46.sets s)) with 0 by lia. }
    destruct (V46.activeEffect s) as [| |e] eqn:Ha;
      [eexists; split; [reflexivity | by intros _; split]..|].
    by destruct (Hnone e).
Qed.

Lemma C8_witness :
  ∃ s', V46.get_trap "foo" (V46.init sample_data) = V46.Raised s' ∧
    (default ∅ (V46.bucket (V46.init sample_data) !! TData) !! "foo" = None →
     V46.bucket s'
     = <[TData := <["foo" := length (V46.sets (V46.init sample_data))]>
                    (default ∅ (V46.bucket (V46.init sample_data) !! TData))]>
         (V46.bucket (V46.init sample_data)) ∧
     V46.sets s'
     = V46.sets (V46.init sample_data)
       ++ [[V46.activeEffect (V46.init sample_data)]]).
Proof.
  apply (C8_track_4_6_outside_effect "foo" (V46.init sample_data)). done.
Defined.

(** Reading [obj.foo] when the script of [4-6.js] starts, before any effect
    exists. *)
Example read_before_any_effect_4_6 d :
  V46.get_trap "foo" (V46.init d)
  = V46.Raised
      {| V46.data := d;
         V46.bucket := {[TData := {["foo" := 0]}]};
         V46.sets := [[V46.Null]];
         V46.effects := [];
         V46.activeEffect := V46.Null;
         V46.effectStack := [];
         V46.console := [] |}.
Proof. reflexivity. Qed.

(** ** C6: leaving an effect *)


Lemma effectFn_returns_stack n e s v s' :
  effectFn (level n) e s = Done v s' →
  effectStack s' = effectStack s ∧ activeEffect s' = last (effectStack s).
Proof.
  intros Hrun.
  pose proof (effectFn_stack n e s) as Hs.
  rewrite Hrun in Hs. simpl in Hs. split; [done|].
  apply effectFn_Done in Hrun as (r & s3 & _ & _ & ->).
  rewrite <- Hs. done.
Qed.



(** ** C7: a subscriber that throws *)

(** C7 (counterexample): both effects are subscribed to [foo] and the second
    has printed 1 on creation.  The write of 7 notifies the first, which
    re-subscribes and throws; the second is not run (nothing more is
    printed) although it was in the snapshot, and the throw reaches the
    writer.  The same script behaves the same in [4-6.js]. *)
Lemma C7_counterexample :
  let s' := heap_of (run 2 two_subscribers sample_data) (init sample_data) in
  run 2 two_subscribers sample_data = Raised s' ∧
  subscribers s' TData "foo" = [1; 0] ∧
  data s' !! "foo" = Some (VNum 7) ∧
  runs 0 (history s') = 2 ∧ runs 1 (history s') = 1 ∧
  console s' = [VNum 1] ∧
  match V46.run 2 two_subscribers46 sample_data with
  | V46.Raised s46 =>
    V46.sets s46 = [[V46.Fn 1; V46.Fn 0]] ∧ V46.console s46 = [VNum 1] ∧
    V46.data s46 !! "foo" = Some (VNum 7)
  | _ => False
  end.
Proof. vm_compute. split_and!; reflexivity. Qed.

Lemma forEach46_app f l1 l2 s :
  V46.forEach f (l1 ++ l2) s = V46.bind (V46.forEach f l1 s) (V46.forEach f l2).
Proof.
  revert s. induction l1 as [|x l1 IH]; intros s; simpl; [done|].
  destruct (f x s); simpl; auto.
Qed.

(** C7 (amended): [trigger] runs the snapshot in order with no handler
    around the calls.  When a subscriber throws, the pass ends there: the
    throw leaves [trigger] with the heap of that moment, so no later unit of
    the snapshot is invoked; the earlier ones have run.  The same holds for
    [trigger] of [4-6.js]. *)
Theorem C7_throw_ends_the_pass t k :
  (∀ rec s l1 e l2 s1 s2,
     effectsToRun (activeEffect s) (subscribers s t k) = l1 ++ e :: l2 →
     forEach (notify rec) l1 s = Done tt s1 →
     notify rec e s1 = Raised s2 →
     trigger rec t k s = Raised s2) ∧
  (∀ rc s46 depsMap l1 x l2 s1 s2,
     V46.bucket s46 !! t = Some depsMap →
     V46.effectsToRun (V46.activeEffect s46)
       (match depsMap !! k with
        | Some sid => default [] (V46.sets s46 !! sid)
        | None => []
        end) = l1 ++ x :: l2 →
     V46.forEach (V46.call rc) l1 s46 = V46.Done s1 →
     V46.call rc x s1 = V46.Raised s2 →
     V46.trigger rc t k s46 = V46.Raised s2).
Proof.
  split.
  - intros rec s l1 e l2 s1 s2 Hsnap H1 He.
    rewrite trigger_subscribers, Hsnap, forEach_app, H1. simpl. by rewrite He.
  - intros rc s46 depsMap l1 x l2 s1 s2 Hb Hsnap H1 Hx.
    unfold V46.trigger. rewrite Hb. simpl. rewrite Hsnap, forEach46_app, H1.
    simpl. by rewrite Hx.
Qed.

Lemma C7_witness :
  trigger (level 1) TData "foo" (store "foo" (VNum 7) before_write)
  = Raised (heap_of (notify (level 1) 0 (store "foo" (VNum 7) before_write))
                    before_write) ∧
  V46.trigger (V46.level 1) TData "foo" (V46.store "foo" (VNum 7) before_write46)
  = V46.call (V46.level 1) (V46.Fn 0) (V46.store "foo" (VNum 7) before_write46).
Proof.
  split.
  - apply (proj1 (C7_throw_ends_the_pass TData "foo") (level 1)
             (store "foo" (VNum 7) before_write) [] 0 [1]
             (store "foo" (VNum 7) before_write)).
    + vm_compute. reflexivity.
    + reflexivity.
    + vm_compute. reflexivity.
  - replace (V46.call (V46.level 1) (V46.Fn 0)
               (V46.store "foo" (VNum 7) before_write46))
      with (V46.Raised
              (match V46.call (V46.level 1) (V46.Fn 0)
                       (V46.store "foo" (VNum 7) before_write46) with
               | V46.Raised s2 => s2
               | _ => before_write46
               end)) by (vm_compute; reflexivity).
    apply (proj2 (C7_throw_ends_the_pass TData "foo") (V46.level 1)
             (V46.store "foo" (VNum 7) before_write46) {["foo" := 0]}
             [] (V46.Fn 0) [V46.Fn 1]
             (V46.store "foo" (VNum 7) before_write46)).
    + vm_compute. reflexivity.
    + vm_compute. reflexivity.
    + reflexivity.
    + vm_compute. reflexivity.
Defined.

(** ** C9: nested effects *)


Lemma Inv_lazy_unit f : Inv (lazy_unit f).
Proof. apply (effect_Inv 0 f true None), Inv_init. Qed.

Lemma Inv_inside_outer : Inv inside_outer.
Proof. apply Inv_enter; [apply Inv_lazy_unit | vm_compute; lia]. Qed.


(** ** C10: the write and its notification *)

Lemma last_write_refl k s : last_write k s s.
Proof. exists []. by rewrite app_nil_r. Qed.

Lemma last_write_trans k s1 s2 s3 :
  last_write k s1 s2 → last_write k s2 s3 → last_write k s1 s3.
Proof.
  intros (seg1 & H1 & D1) (seg2 & H2 & D2). exists (seg1 ++ seg2). split.
  - by rewrite H2, H1, app_assoc.
  - unfold writes in *. rewrite omap_app, last_app, D2.
    destruct (last (omap _ seg2)); [done|]. by rewrite D1.
Qed.

Lemma last_write_quiet k s s' ev :
  data s' = data s → history s' = history s ++ [ev] →
  (∀ k' v, ev ≠ EvWrite k' v) →
  last_write k s s'.
Proof.
  intros Hd Hh Hev. exists [ev]. split; [done|]. rewrite Hd.
  destruct ev; simpl; try done. by destruct (Hev k0 v).
Qed.

Lemma last_write_silent k s s' :
  data s' = data s → history s' = history s → last_write k s s'.
Proof. intros Hd Hh. exists []. by rewrite Hd, Hh, app_nil_r. Qed.

Lemma data_track t k s : data (track t k s) = data s.
Proof.
  unfold track. destruct (activeEffect s); [|done].
  by destruct (default ∅ (bucket s !! t) !! k).
Qed.

Lemma last_write_track k t k' s : last_write k s (track t k' s).
Proof.
  destruct (activeEffect s) as [a|] eqn:Ha.
  - destruct (history_track t k' s a Ha) as [sid Hh].
    eapply last_write_quiet; [apply data_track | exact Hh | done].
  - rewrite track_without_active_unit by done. apply last_write_refl.
Qed.

Lemma last_write_store k k' v s : last_write k s (store k' v s).
Proof.
  exists [EvWrite k' v]. split; [done|]. simpl. case_decide as Hk; simpl.
  - subst. apply lookup_insert_eq.
  - by apply lookup_insert_ne.
Qed.

Lemma last_write_closed k : closed (last_write k).
Proof.
  split.
  - apply last_write_refl.
  - apply last_write_trans.
  - apply last_write_track.
  - apply last_write_store.
  - intros; by apply last_write_silent.
  - intros; by apply last_write_silent.
  - intros; by apply last_write_silent.
  - intros; by apply last_write_silent.
  - intros; by apply last_write_silent.
  - intros c e s. by eapply (last_write_quiet k s _ (EvValue c e)).
  - intros e s. by eapply (last_write_quiet k s _ (EvCall e)).
  - intros e r s _. by eapply (last_write_quiet k s _ (EvRun e)).
  - intros; by apply last_write_silent.
Qed.

Lemma last_write_unwritten k s s' :
  last_write k s s' →
  writes k (drop (length (history s)) (history s')) = [] →
  data s' !! k = data s !! k.
Proof.
  intros (seg & Hh & Hd). rewrite Hh, drop_app_length. intros Hw.
  by rewrite Hd, Hw.
Qed.

(** C10: the set trap stores the value, then calls [trigger] on the heap that
    holds it.  Without subscribers that is all that happens.  With
    subscribers, each one is started on a heap in which the field holds the
    written value, unless an earlier subscriber of the pass wrote the field
    again; a read of the field through the get trap returns what the heap
    holds; and after the pass the field still holds the value, unless the
    pass wrote it again.  The set trap of [4-6.js] is the same code. *)
Theorem C10_store_then_trigger n k v s :
  set_trap (level n) k v s = trigger (level n) TData k (store k v s) ∧
  data (store k v s) !! k = Some v ∧
  (subscribers s TData k = [] →
     set_trap (level n) k v s = Done tt (store k v s)) ∧
  (∀ l1 e l2 s1,
     effectsToRun (activeEffect s) (subscribers s TData k) = l1 ++ e :: l2 →
     forEach (notify (level n)) l1 (store k v s) = Done tt s1 →
     writes k (drop (length (history (store k v s))) (history s1)) = [] →
     data s1 !! k = Some v ∧ (get_trap k s1).1 = v) ∧
  (∀ s', set_trap (level n) k v s = Done tt s' →
     writes k (drop (length (history (store k v s))) (history s')) = [] →
     data s' !! k = Some v) ∧
  (∀ rc s46,
     V46.set_trap rc k v s46 = V46.trigger rc TData k (V46.store k v s46) ∧
     V46.data (V46.store k v s46) !! k = Some v ∧
     (V46.bucket s46 !! TData = None →
        V46.set_trap rc k v s46 = V46.Done (V46.store k v s46))).
Proof.
  assert (data (store k v s) !! k = Some v) as Hv by apply lookup_insert_eq.
  split_and!.
  6:{ intros rc s46. split_and!; [done | apply lookup_insert_eq |].
      intros Hb. unfold V46.set_trap, V46.trigger. simpl. by rewrite Hb. }
  - done.
  - done.
  - intros Hnone. unfold set_trap. rewrite trigger_subscribers.
    change (subscribers (store k v s) TData k) with (subscribers s TData k).
    by rewrite Hnone.
  - intros l1 e l2 s1 _ Hl1 Hw.
    pose proof (preserves_forEach _ (last_write_closed k) n l1 (store k v s)) as H.
    rewrite Hl1 in H. simpl in H.
    apply last_write_unwritten in H; [|done].
    split; [congruence|]. unfold get_trap. simpl.
    by rewrite data_track, H, Hv.
  - intros s' Hrun Hw. unfold set_trap in Hrun.
    pose proof (preserves_trigger _ (last_write_closed k) n TData k
                  (store k v s)) as H.
    rewrite Hrun in H. simpl in H.
    apply last_write_unwritten in H; [|done]. congruence.
Qed.

Lemma C10_witness :
  set_trap (level 1) "bar" (VNum 9) (init sample_data)
    = Done tt (store "bar" (VNum 9) (init sample_data)) ∧
  (let s1 := heap_of (forEach (notify (level 1)) [0]
                        (store "foo" (VNum 5) two_loggers)) two_loggers in
   data s1 !! "foo" = Some (VNum 5) ∧ (get_trap "foo" s1).1 = VNum 5) ∧
  data (heap_of (set_trap (level 1) "foo" (VNum 5) two_loggers) two_loggers)
    !! "foo" = Some (VNum 5).
Proof.
  split_and!.
  - apply (proj1 (proj2 (proj2
             (C10_store_then_trigger 1 "bar" (VNum 9) (init sample_data))))).
    vm_compute. reflexivity.
  - apply (proj1 (proj2 (proj2 (proj2
             (C10_store_then_trigger 1 "foo" (VNum 5) two_loggers))))
             [0] 1 []); vm_compute; reflexivity.
  - apply (proj1 (proj2 (proj2 (proj2 (proj2
             (C10_store_then_trigger 1 "foo" (VNum 5) two_loggers))))));
      vm_compute; reflexivity.
Defined.

(** ** C1 and C3: the registry after a run *)

Lemma effectFn_history n e s v s' :
  effectFn (level n) e s = Done v s' →
  ∃ seg, history s' = history s ++ EvRun e :: seg.
Proof.
  intros (r & s3 & _ & Hrun & ->)%effectFn_Done.
  pose proof (proj1 (level_ext n) (fn r)
    (enter e (cleanup e (log_event (EvRun e) s)))) as H.
  rewrite Hrun in H. destruct (ext_history _ _ H) as [seg Hseg].
  exists seg. simpl in *. by rewrite Hseg, <- app_assoc.
Qed.

Lemma subscribers_subscribed s e t k :
  Inv s → e ∈ subscribers s t k ↔ subscribed s e t k.
Proof.
  intros HI. unfold subscribers, subscribed.
  destruct (set_at s t k) as [sid|]; [|by rewrite elem_of_nil].
  split; [|tauto]. intros Hin. split; [done|].
  apply (inv_consistent s HI).
  destruct (sets s !! sid) as [m|]; [eauto|]. by apply elem_of_nil in Hin.
Qed.





Lemma Inv_branch_taken : Inv branch_taken.
Proof. apply Inv_store, (effect_Inv 1 branching false None), Inv_init. Qed.


(** The same through the set trap: the effect was subscribed to [ok] and
    [bar]; the write of [ok] re-runs it, and it ends up subscribed to [ok] and
    [foo] and no longer to [bar]. *)
Example branching_drops_bar :
  let s := heap_of (effect (level 1) branching false None
                      (init (<["ok" := VNum 0]> sample_data)))
                   (init (<["ok" := VNum 0]> sample_data)) in
  let s' := heap_of (set_trap (level 2) "ok" (VNum 1) s) s in
  (subscribers s TData "ok", subscribers s TData "foo",
   subscribers s TData "bar") = ([0], [], [0]) ∧
  (subscribers s' TData "ok", subscribers s' TData "foo",
   subscribers s' TData "bar") = ([0], [0], []).
Proof. vm_compute. split; reflexivity. Qed.

(** ** Closures that only read and print *)

Lemma calm_refl s : calm s s.
Proof.
  split; try done.
  - exists []. split; [by rewrite app_nil_r|]. intros e. apply not_elem_of_nil.
  - eauto.
Qed.

Lemma calm_trans s1 s2 s3 : calm s1 s2 → calm s2 s3 → calm s1 s3.
Proof.
  intros [D1 C1 A1 (g1 & H1 & N1) S1] [D2 C2 A2 (g2 & H2 & N2) S2].
  split; try congruence.
  - exists (g1 ++ g2). split; [by rewrite H2, H1, app_assoc|].
    intros e. rewrite elem_of_app. specialize (N1 e). specialize (N2 e). tauto.
  - intros sid m x Hm Hx.
    destruct (S2 sid m x Hm Hx) as [Ha|(m0 & Hm0 & Hx0)]; [left; congruence|].
    eauto.
Qed.

Lemma calm_subscribe a t k sid s :
  activeEffect s = Some a → calm s (subscribe a t k sid s).
Proof.
  intros Ha. split; try done.
  - exists [EvTrack a t k sid]. split; [done|].
    intros e. rewrite list_elem_of_singleton. done.
  - simpl. intros sid' m x Hm Hx. destruct (decide (sid = sid')) as [->|Hne].
    + rewrite list_lookup_alter_eq in Hm.
      destruct (sets s !! sid') as [m0|] eqn:Hm0; simpl in Hm; [|done].
      injection Hm as <-. apply elem_of_set_add in Hx as [->|Hx]; eauto.
    + rewrite list_lookup_alter_ne in Hm by done. eauto.
Qed.

Lemma calm_track t k s : calm s (track t k s).
Proof.
  unfold track. destruct (activeEffect s) as [a|] eqn:Ha; [|apply calm_refl].
  destruct (default ∅ (bucket s !! t) !! k) as [sid|].
  { by apply calm_subscribe. }
  eapply calm_trans; [|by apply calm_subscribe].
  split; try done.
  - exists []. split; [by rewrite app_nil_r|]. intros e. apply not_elem_of_nil.
  - simpl. intros sid m x Hm Hx. right.
    apply lookup_app_Some in Hm as [Hm|[_ Hm]]; [eauto|].
    apply list_lookup_singleton_Some in Hm as [_ <-]. by apply elem_of_nil in Hx.
Qed.

Lemma calm_print v s : calm s (print v s).
Proof.
  split; try done.
  - exists []. split; [by rewrite app_nil_r|]. intros e. apply not_elem_of_nil.
  - eauto.
Qed.

Lemma tracked_mono e h seg x :
  EvRun e ∉ seg → x ∈ tracked e h → x ∈ tracked e (h ++ seg).
Proof.
  induction seg as [|ev seg IH] using rev_ind; intros Hseg Hx.
  - by rewrite app_nil_r.
  - rewrite elem_of_app, list_elem_of_singleton in Hseg.
    rewrite app_assoc, tracked_snoc.
    specialize (IH ltac:(tauto) Hx).
    destruct ev as [e'|e' t' k' sid'| | |]; simpl; try case_decide; subst; auto.
    + tauto.
    + rewrite elem_of_app. auto.
Qed.

Lemma subscribed_calm s s' a t k :
  Inv s → Inv s' → calm s s' → subscribed s a t k → subscribed s' a t k.
Proof.
  intros HI HI' Hc. rewrite !subscribed_iff_reads by done.
  destruct (calm_history _ _ Hc) as (seg & -> & Hno).
  unfold reads. rewrite !list_elem_of_fmap.
  intros (x & -> & Hx). exists x. split; [done|]. by apply tracked_mono.
Qed.

(** A quiet closure returns, with the value [answer] says; it leaves the
    heap [calm]; and the effect it runs for is subscribed to every field it
    read. *)
Lemma exec_quiet rec p s :
  quiet p →
  ∃ s', exec rec p s = Done (answer p (data s)) s' ∧ calm s s' ∧
        (Inv s → Inv s' ∧
           ∀ a k, activeEffect s = Some a → k ∈ fields p (data s) →
                  subscribed s' a TData k).
Proof.
  intros Hq. revert s. induction Hq as [v|k cont _ IH|v cont _ IH]; intros s.
  - exists s. split_and!; [done | apply calm_refl |]. intros HI. split; [done|].
    intros a k _ Hk. by apply elem_of_nil in Hk.
  - simpl. rewrite data_track.
    destruct (IH (default VUndefined (data s !! k)) (track TData k s))
      as (s' & Hrun & Hc & Hsub).
    exists s'. rewrite Hrun, data_track. split_and!; [done | |].
    { eapply calm_trans; [apply calm_track | done]. }
    intros HI. pose proof (Inv_track TData k s HI) as HI1.
    destruct (Hsub HI1) as [HI' Hsub']. split; [done|].
    intros a k' Ha Hk'. apply elem_of_cons in Hk' as [->|Hk'].
    + apply (subscribed_calm (track TData k s)); [done..|].
      by apply track_subscribes.
    + apply Hsub'; [|by rewrite data_track].
      by rewrite (calm_active _ _ (calm_track TData k s)).
  - simpl. destruct (IH (print v s)) as (s' & Hrun & Hc & Hsub).
    exists s'. split_and!; [done | |].
    { eapply calm_trans; [apply calm_print | done]. }
    intros HI. apply (Hsub (Inv_print v s HI)).
Qed.

Lemma runs_none e seg : EvRun e ∉ seg → runs e seg = 0.
Proof.
  unfold runs. induction seg as [|ev seg IH]; [done|].
  rewrite not_elem_of_cons. intros [Hne Hseg].
  rewrite filter_cons_False by congruence. auto.
Qed.

Lemma runs_calm s s' e : calm s s' → runs e (history s') = runs e (history s).
Proof.
  intros Hc. destruct (calm_history _ _ Hc) as (seg & -> & Hno).
  rewrite runs_app, (runs_none e seg) by done. lia.
Qed.

Lemma runs_log e e' s :
  runs e' (history (log_event (EvRun e) s))
  = runs e' (history s) + (if decide (e' = e) then 1 else 0).
Proof.
  simpl. rewrite runs_app. unfold runs at 2. rewrite filter_cons, filter_nil.
  destruct (decide (e' = e)) as [->|Hne].
  - by rewrite decide_True.
  - rewrite decide_False; [done|]. congruence.
Qed.

(** One run of an effect with a quiet computation. *)
Lemma effectFn_quiet n e r s :
  effects s !! e = Some r → quiet (fn r) →
  ∃ s', effectFn (level (S n)) e s = Done (answer (fn r) (data s)) s' ∧
    data s' = data s ∧ computeds s' = computeds s ∧
    (∀ e', runs e' (history s')
           = runs e' (history s) + (if decide (e' = e) then 1 else 0)) ∧
    (∀ sid m x, sets s' !! sid = Some m → x ∈ m →
       x = e ∨ ∃ m0, sets s !! sid = Some m0 ∧ x ∈ m0) ∧
    (Inv s → ∀ k, k ∈ fields (fn r) (data s) → e ∈ subscribers s' TData k).
Proof.
  intros He Hq. unfold effectFn. rewrite He.
  set (s2 := enter e (cleanup e (log_event (EvRun e) s))).
  change (run_closure (level (S n))) with (exec (level n)).
  destruct (exec_quiet (level n) (fn r) s2 Hq) as (s3 & -> & Hc & Hsub).
  exists (leave s3). split_and!.
  - done.
  - apply (calm_data _ _ Hc).
  - apply (calm_computeds _ _ Hc).
  - intros e'. change (history (leave s3)) with (history s3).
    rewrite (runs_calm s2 s3 e' Hc). apply runs_log.
  - change (sets (leave s3)) with (sets s3). intros sid m x Hm Hx.
    destruct (calm_sets _ _ Hc sid m x Hm Hx) as [[= ->]|(m0 & Hm0 & Hx0)];
      [by left|].
    right. change (sets s2) with (sets (cleanup e s)) in Hm0.
    rewrite sets_cleanup in Hm0. case_decide; [|eauto].
    destruct (sets s !! sid) as [m1|]; simpl in Hm0; [|done].
    injection Hm0 as <-. apply elem_of_set_delete in Hx0 as [_ ?]. eauto.
  - intros HI k Hk. destruct (Hsub (Inv_begin e r s HI He)) as [HI3 Hs3].
    apply (subscribers_subscribed (leave s3)); [by apply Inv_leave|].
    apply (Hs3 e k eq_refl Hk).
Qed.

(** ** C2: one pass of [trigger] *)

Lemma leaf_ext s s' e : ext s s' → leaf s e → leaf s' e.
Proof.
  intros Hext (r & Hr & Hs & Hq).
  destruct (ext_effects _ _ Hext e r Hr) as (r' & Hr' & Hfn & _ & Hsch).
  exists r'. split_and!; [done | congruence | by rewrite Hfn].
Qed.

Lemma notify_leaf n e s :
  leaf s e →
  ∃ s', notify (level (S n)) e s = Done tt s' ∧ ext s s' ∧
    ∀ e', runs e' (history s')
          = runs e' (history s) + (if decide (e' = e) then 1 else 0).
Proof.
  intros (r & Hr & Hs & Hq). unfold notify. rewrite Hr, Hs.
  pose proof (preserves_effectFn ext ext_closed (S n) e s) as Hext.
  destruct (effectFn_quiet n e r s Hr Hq) as (s' & Hrun & _ & _ & Hruns & _).
  rewrite Hrun in *. simpl in *. eauto.
Qed.

Lemma forEach_leaves n l s :
  NoDup l → Forall (leaf s) l →
  ∃ s', forEach (notify (level (S n))) l s = Done tt s' ∧
    ∀ e, runs e (history s')
         = runs e (history s) + (if decide (e ∈ l) then 1 else 0).
Proof.
  intros Hnd. revert s. induction Hnd as [|x l Hx Hnd IH]; intros s Hl.
  - exists s. split; [done|]. intros e. simpl. lia.
  - apply Forall_cons in Hl as [Hx' Hl].
    destruct (notify_leaf n x s Hx') as (s1 & Hrun & Hext & Hruns).
    destruct (IH s1) as (s' & Hrest & Hruns').
    { eapply Forall_impl; [exact Hl|]. intros e. by apply leaf_ext. }
    exists s'. cbn [forEach]. rewrite Hrun. cbn [bind]. split; [done|].
    intros e. rewrite Hruns', Hruns.
    destruct (decide (e = x)) as [->|Hne].
    + rewrite (decide_False (P := x ∈ l)) by done.
      rewrite decide_True by (by left). lia.
    + destruct (decide (e ∈ l)).
      * rewrite decide_True by (by right). lia.
      * rewrite decide_False; [lia|]. rewrite elem_of_cons. tauto.
Qed.


Lemma quiet_log_foo : quiet log_foo.
Proof. repeat constructor. Qed.


(** The write inside the effect does not re-enter the effect; a later write
    from outside enters it once. *)
Example self_write_does_not_recurse :
  let s := heap_of (effect (level 1) bump_foo false None (init sample_data))
                   (init sample_data) in
  let s' := heap_of (set_trap (level 2) "foo" (VNum 10) s) s in
  effect (level 1) bump_foo false None (init sample_data) = Done 0 s ∧
  runs 0 (history s) = 1 ∧ data s !! "foo" = Some (VNum 2) ∧
  subscribers s TData "foo" = [0] ∧
  set_trap (level 2) "foo" (VNum 10) s = Done tt s' ∧
  runs 0 (history s') = 2 ∧ data s' !! "foo" = Some (VNum 11).
Proof. vm_compute. split_and!; reflexivity. Qed.

(** ** Heaps in which every subscriber is the effect of a [computed] *)

Lemma raised_flag_refl cr : raised_flag cr cr.
Proof. done. Qed.

Lemma dirtied_refl s : dirtied s s.
Proof.
  split; [by destruct s|]. apply Forall2_same_length_lookup_2; [done|].
  intros i x y Hx Hy. assert (x = y) as -> by congruence. done.
Qed.

Lemma dirtied_trans s1 s2 s3 : dirtied s1 s2 → dirtied s2 s3 → dirtied s1 s3.
Proof.
  intros [E1 F1] [E2 F2]. split.
  - rewrite E2 at 1. rewrite E1. done.
  - eapply Forall2_trans; [|exact F1|exact F2].
    intros x y z (? & ? & ?) (? & ? & ?). split_and!; [congruence..|auto].
Qed.

Lemma dirtied_mark_dirty c s : dirtied s (mark_dirty c s).
Proof.
  split; [done|]. simpl.
  apply Forall2_same_length_lookup_2; [by rewrite length_alter|].
  intros i x y Hx Hy. destruct (decide (c = i)) as [->|Hne].
  - rewrite list_lookup_alter_eq, Hx in Hy. injection Hy as <-. done.
  - rewrite list_lookup_alter_ne in Hy by done.
    assert (x = y) as -> by congruence. done.
Qed.

Lemma dirtied_store k v s s' :
  dirtied s s' → dirtied (store k v s) (store k v s').
Proof. intros [E F]. split; [|done]. rewrite E at 1. done. Qed.

Lemma dirtied_lookup s s' c cr :
  dirtied s s' → computeds s !! c = Some cr →
  ∃ cr', computeds s' !! c = Some cr' ∧ raised_flag cr cr'.
Proof. intros [_ F] Hc. by eapply Forall2_lookup_l. Qed.

Lemma clean_count_dirtied s s' : dirtied s s' → clean_count s' ≤ clean_count s.
Proof.
  intros [_ F]. unfold clean_count.
  induction F as [|x y l l' (_ & _ & Hd) _ IH]; [done|].
  rewrite !filter_cons.
  destruct (c_dirty x), (c_dirty y); simpl; try lia.
Qed.

Lemma clean_count_mark c cr s :
  computeds s !! c = Some cr → c_dirty cr = false →
  clean_count (mark_dirty c s) < clean_count s.
Proof.
  unfold clean_count. simpl. generalize (computeds s). intros l. revert c.
  induction l as [|x l IH]; intros c Hc Hd; [done|]. destruct c as [|c].
  - injection Hc as ->. simpl. rewrite !filter_cons, Hd. simpl. lia.
  - specialize (IH c Hc Hd).
    change (alter ?f (S c) (x :: l)) with (x :: alter f c l).
    rewrite !filter_cons. case_decide; simpl; lia.
Qed.

Lemma derived_unit_dirtied s s' e :
  dirtied s s' → derived_unit s e → derived_unit s' e.
Proof.
  intros Hd (r & c & cr & Hr & Hs & Hc).
  destruct (dirtied_lookup _ _ _ _ Hd Hc) as (cr' & Hc' & _).
  exists r, c, cr'. split_and!; [|done..]. destruct Hd as [-> _]. done.
Qed.

Lemma lazy_graph_dirtied s s' : dirtied s s' → lazy_graph s → lazy_graph s'.
Proof.
  intros Hd Hl sid m e Hm He. apply (derived_unit_dirtied s); [done|].
  apply (Hl sid m); [|done]. destruct Hd as [E _]. by rewrite E in Hm.
Qed.

Lemma lazy_graph_subscribers s t k e :
  lazy_graph s → e ∈ subscribers s t k → derived_unit s e.
Proof.
  intros Hl. unfold subscribers.
  destruct (set_at s t k) as [sid|]; [|by intros ?%elem_of_nil].
  destruct (sets s !! sid) as [m|] eqn:Hm; [|by intros ?%elem_of_nil].
  by apply (Hl sid m).
Qed.

Lemma flag_raised_dirtied s s' c :
  dirtied s s' → flag_raised s c → flag_raised s' c.
Proof.
  intros Hd (cr & Hc & Hdirty).
  destruct (dirtied_lookup _ _ _ _ Hd Hc) as (cr' & Hc' & _ & _ & Hm).
  exists cr'. auto.
Qed.

Lemma flag_raised_mark s c cr :
  computeds s !! c = Some cr → flag_raised (mark_dirty c s) c.
Proof.
  intros Hc. eexists. simpl. rewrite list_lookup_alter_eq, Hc. done.
Qed.

(** A pass over effects of [computed]s only raises flags, provided the
    schedulers one call level down do. *)
Lemma forEach_lazy n l s :
  (∀ t k s0, lazy_graph s0 → clean_count s0 < n →
     ∃ s1, run_trigger (level (S n)) t k s0 = Done tt s1 ∧ dirtied s0 s1) →
  lazy_graph s → clean_count s ≤ n → Forall (derived_unit s) l →
  ∃ s', forEach (notify (level (S n))) l s = Done tt s' ∧ dirtied s s' ∧
    ∀ e r c, e ∈ l → effects s !! e = Some r →
             opt_scheduler r = Some (SchedComputed c) → flag_raised s' c.
Proof.
  intros Hrec. revert s. induction l as [|e l IH]; intros s Hlazy Hcount Hl.
  - exists s. split_and!; [done | apply dirtied_refl |].
    intros e r c He. by apply elem_of_nil in He.
  - apply Forall_cons in Hl as [(r & c & cr & Hr & Hs & Hc) Hl].
    assert (∃ s1, notify (level (S n)) e s = Done tt s1 ∧ dirtied s s1 ∧
                  flag_raised s1 c) as (s1 & Hrun & Hd1 & Hf1).
    { unfold notify, computed_scheduler. rewrite Hr, Hs, Hc.
      destruct (c_dirty cr) eqn:Hdirty.
      - exists s. split_and!; [done | apply dirtied_refl | by exists cr].
      - pose proof (clean_count_mark c cr s Hc Hdirty) as Hlt.
        destruct (Hrec (TComputed c) "value" (mark_dirty c s)) as (s1 & -> & Hd).
        { apply (lazy_graph_dirtied s); [apply dirtied_mark_dirty | done]. }
        { lia. }
        exists s1. split_and!; [done | |].
        + eapply dirtied_trans; [apply dirtied_mark_dirty | done].
        + apply (flag_raised_dirtied (mark_dirty c s)); [done|].
          by eapply flag_raised_mark. }
    destruct (IH s1) as (s' & Hrest & Hd' & Hf').
    { by apply (lazy_graph_dirtied s). }
    { pose proof (clean_count_dirtied s s1 Hd1). lia. }
    { eapply Forall_impl; [exact Hl|]. intros x. by apply derived_unit_dirtied. }
    exists s'. cbn [forEach]. rewrite Hrun. cbn [bind].
    split_and!; [done | by eapply dirtied_trans |].
    intros e' r' c' He' Hr' Hs'. apply elem_of_cons in He' as [->|He'].
    + assert (r' = r) as -> by congruence.
      assert (c' = c) as -> by congruence.
      by apply (flag_raised_dirtied s1).
    + apply (Hf' e' r' c' He'); [|done].
      destruct Hd1 as [-> _]. done.
Qed.

(** In such a heap a write reaches no getter: [trigger] returns, given call
    depth for one scheduler per clean [computed], and all it has done is
    raise flags, among them the flag of every [computed] whose effect was in
    the snapshot. *)
Lemma trigger_lazy n t k s :
  lazy_graph s → clean_count s ≤ n →
  ∃ s', trigger (level (S n)) t k s = Done tt s' ∧ dirtied s s' ∧
    ∀ e r c, e ∈ effectsToRun (activeEffect s) (subscribers s t k) →
             effects s !! e = Some r →
             opt_scheduler r = Some (SchedComputed c) → flag_raised s' c.
Proof.
  revert t k s. induction n as [|n IH]; intros t k s Hlazy Hcount.
  - rewrite trigger_subscribers. apply forEach_lazy; [|done..|].
    + intros t0 k0 s0 _ Hlt. lia.
    + apply Forall_forall. intros e [He _]%elem_of_effectsToRun.
      by eapply lazy_graph_subscribers.
  - rewrite trigger_subscribers. apply forEach_lazy; [|done..|].
    + intros t0 k0 s0 Hl0 Hlt.
      destruct (IH t0 k0 s0 Hl0) as (s1 & Hrun & Hd & _); [lia|]. eauto.
    + apply Forall_forall. intros e [He _]%elem_of_effectsToRun.
      by eapply lazy_graph_subscribers.
Qed.

(** ** C4 and C5: [computed] *)

Lemma dirtied_stores ws s s' :
  dirtied s s' → dirtied (stores ws s) (stores ws s').
Proof.
  revert s s'. induction ws as [|[k v] ws IH]; intros s s' Hd; [done|].
  simpl. by apply IH, dirtied_store.
Qed.

Lemma stores_frame ws s :
  computeds (stores ws s) = computeds s ∧ sets (stores ws s) = sets s ∧
  effects (stores ws s) = effects s ∧ bucket (stores ws s) = bucket s ∧
  activeEffect (stores ws s) = activeEffect s ∧
  ∀ e, runs e (history (stores ws s)) = runs e (history s).
Proof.
  revert s. induction ws as [|[k v] ws IH]; intros s; [done|].
  simpl. destruct (IH (store k v s)) as (-> & -> & -> & -> & -> & Hr).
  split_and!; try done. intros e. rewrite Hr. simpl.
  rewrite runs_app. unfold runs at 2. by rewrite Nat.add_0_r.
Qed.

Lemma get_value_clean rec c cr s :
  computeds s !! c = Some cr → c_dirty cr = false →
  get_value rec c s
  = Done (c_value cr)
         (track (TComputed c) "value"
            (log_event (EvValue c (c_effectFn cr)) s)).
Proof. unfold get_value. by intros -> ->. Qed.

Lemma runs_log_other ev e s :
  ev ≠ EvRun e → runs e (history (log_event ev s)) = runs e (history s).
Proof.
  intros Hne. simpl. rewrite runs_app. unfold runs at 2.
  rewrite filter_cons_False, filter_nil by done. simpl. lia.
Qed.

Lemma exec_puts_lazy n ws s :
  lazy_graph s → clean_count s ≤ n →
  ∃ s', exec (level (S n)) (puts ws) s = Done VUndefined s' ∧
    dirtied (stores ws s) s' ∧
    ∀ k v e r c, (k, v) ∈ ws → e ∈ subscribers s TData k →
      activeEffect s ≠ Some e → effects s !! e = Some r →
      opt_scheduler r = Some (SchedComputed c) → flag_raised s' c.
Proof.
  revert s. induction ws as [|[k v] ws IH]; intros s Hlazy Hcount.
  - exists s. split_and!; [done | apply dirtied_refl |].
    intros k v e r c Hin. by apply elem_of_nil in Hin.
  - destruct (trigger_lazy n TData k (store k v s)) as (s1 & Hrun & Hd1 & Hf1);
      [done..|].
    destruct (IH s1) as (s' & Hrest & Hd' & Hf').
    { by apply (lazy_graph_dirtied (store k v s)). }
    { pose proof (clean_count_dirtied _ _ Hd1).
      change (clean_count (store k v s)) with (clean_count s) in *. lia. }
    exists s'. cbn [puts exec]. unfold set_trap. rewrite Hrun. cbn [bind].
    split_and!; [done | |].
    { eapply dirtied_trans; [|exact Hd']. cbn [stores foldl].
      by apply (dirtied_stores ws (store k v s) s1). }
    intros k0 v0 e r c Hin He Ha Hr Hs.
    apply elem_of_cons in Hin as [[= -> ->]|Hin].
    + apply (flag_raised_dirtied (stores ws s1)); [done|].
      destruct (Hf1 e r c) as (cr & Hc & Hdirty); [|done..|].
      { apply elem_of_effectsToRun. done. }
      exists cr. by rewrite (proj1 (stores_frame ws s1)).
    + apply (Hf' k0 v0 e r c Hin); destruct Hd1 as [-> _]; done.
Qed.

Lemma runs_prefix e (h h' : list event) : h `prefix_of` h' → runs e h ≤ runs e h'.
Proof. intros [seg ->]. rewrite runs_app. lia. Qed.

(** Reading [value] of a dirty [computed] enters its effect. *)
Lemma get_value_dirty_runs n c cr s v s' :
  computeds s !! c = Some cr → c_dirty cr = true →
  get_value (level n) c s = Done v s' →
  runs (c_effectFn cr) (history s) < runs (c_effectFn cr) (history s').
Proof.
  intros Hc Hd. unfold get_value. rewrite Hc, Hd.
  destruct (effectFn (level n) (c_effectFn cr)
              (log_event (EvValue c (c_effectFn cr)) s))
    as [v1 s1| |] eqn:Hrun; simpl; [|done..].
  intros [= <- <-].
  destruct (effectFn_history n _ _ v1 s1 Hrun) as [seg Hseg].
  destruct (ext_history _ _
              (ext_track (TComputed c) "value" (set_cache c v1 s1)))
    as [seg' ->].
  change (history (set_cache c v1 s1)) with (history s1).
  rewrite Hseg. simpl. rewrite !runs_app.
  change (EvRun (c_effectFn cr) :: seg)
    with ([EvRun (c_effectFn cr)] ++ seg).
  rewrite runs_app.
  assert (runs (c_effectFn cr) [EvRun (c_effectFn cr)] = 1) as ->.
  { unfold runs. by rewrite filter_cons_True. }
  lia.
Qed.

(** The body of a read of a dirty [computed] with a quiet getter, outside
    every effect, in a heap where only effects of [computed]s are
    subscribed. *)
Lemma recompute_quiet n c cr r s :
  Inv s → lazy_graph s → activeEffect s = None →
  computeds s !! c = Some cr →
  effects s !! c_effectFn cr = Some r →
  opt_scheduler r = Some (SchedComputed c) → quiet (fn r) →
  ∃ s1,
    bind (effectFn (level (S n)) (c_effectFn cr) s)
         (λ v s2, Done v (track (TComputed c) "value" (set_cache c v s2)))
    = Done (answer (fn r) (data s)) s1 ∧
    Inv s1 ∧ lazy_graph s1 ∧ activeEffect s1 = None ∧ data s1 = data s ∧
    computeds s1 !! c
      = Some {| c_value := answer (fn r) (data s); c_dirty := false;
                c_effectFn := c_effectFn cr |} ∧
    (∃ r', effects s1 !! c_effectFn cr = Some r' ∧ fn r' = fn r ∧
           opt_scheduler r' = opt_scheduler r) ∧
    (∀ e', runs e' (history s1)
           = runs e' (history s)
             + (if decide (e' = c_effectFn cr) then 1 else 0)) ∧
    (∀ k, k ∈ fields (fn r) (data s) → c_effectFn cr ∈ subscribers s1 TData k).
Proof.
  intros HI Hlazy Ha Hc Hr Hs Hq.
  set (e := c_effectFn cr) in *.
  destruct (effectFn_quiet n e r s Hr Hq)
    as (s1 & Hrun & Hdata & Hcomp & Hruns & Hsets & Hsub).
  pose proof (effectFn_Inv (S n) e s HI) as HI1.
  pose proof (preserves_effectFn ext ext_closed (S n) e s) as Hext.
  destruct (effectFn_returns_stack (S n) e s _ s1 Hrun) as [_ Hact].
  rewrite Hrun in HI1, Hext. simpl in HI1, Hext.
  rewrite <- (inv_scoped s HI), Ha in Hact.
  assert (∀ v, track (TComputed c) "value" (set_cache c v s1)
               = set_cache c v s1)
    as Htrack by (intros v; by apply track_without_active_unit).
  exists (set_cache c (answer (fn r) (data s)) s1).
  rewrite Hrun. cbn [bind]. rewrite Htrack.
  split_and!; try done.
  - by apply Inv_set_cache.
  - intros sid m x Hm Hx.
    assert (derived_unit s x) as (rx & cx & crx & Hrx & Hsx & Hcx).
    { destruct (Hsets sid m x Hm Hx) as [->|(m0 & Hm0 & Hx0)].
      - by exists r, c, cr.
      - by apply (Hlazy sid m0). }
    destruct (ext_effects _ _ Hext x rx Hrx) as (rx' & Hrx' & _ & _ & Hsx').
    destruct (lookup_lt_is_Some_2
                (computeds (set_cache c (answer (fn r) (data s)) s1)) cx)
      as [crx' Hcx'].
    { simpl. rewrite length_alter, Hcomp. by eapply lookup_lt_Some. }
    exists rx', cx, crx'. split_and!; [done | congruence | done].
  - simpl. by rewrite list_lookup_alter_eq, Hcomp, Hc.
  - destruct (ext_effects _ _ Hext e r Hr) as (r' & Hr' & Hfn & _ & Hs').
    exists r'. done.
  - intros k Hk. by apply Hsub.
Qed.

(** The first read of a dirty [computed] under the same conditions. *)
Lemma get_value_dirty_quiet n c cr r s :
  Inv s → lazy_graph s → activeEffect s = None →
  computeds s !! c = Some cr → c_dirty cr = true →
  effects s !! c_effectFn cr = Some r →
  opt_scheduler r = Some (SchedComputed c) → quiet (fn r) →
  ∃ s1, get_value (level (S n)) c s = Done (answer (fn r) (data s)) s1 ∧
    Inv s1 ∧ lazy_graph s1 ∧ activeEffect s1 = None ∧ data s1 = data s ∧
    computeds s1 !! c
      = Some {| c_value := answer (fn r) (data s); c_dirty := false;
                c_effectFn := c_effectFn cr |} ∧
    (∃ r', effects s1 !! c_effectFn cr = Some r' ∧ fn r' = fn r ∧
           opt_scheduler r' = opt_scheduler r) ∧
    (∀ e', runs e' (history s1)
           = runs e' (history s)
             + (if decide (e' = c_effectFn cr) then 1 else 0)) ∧
    (∀ k, k ∈ fields (fn r) (data s) → c_effectFn cr ∈ subscribers s1 TData k).
Proof.
  intros HI Hlazy Ha Hc Hd Hr Hs Hq.
  destruct (recompute_quiet n c cr r
              (log_event (EvValue c (c_effectFn cr)) s))
    as (s1 & Hrun & H1 & H2 & H3 & H4 & H5 & H6 & H7 & H8);
    [by apply Inv_log | done..|].
  exists s1. unfold get_value. rewrite Hc, Hd.
  split_and!; try done.
  intros e'. rewrite H7. by rewrite runs_log_other.
Qed.


(** ** Effects with a scheduler are entered on demand only *)

Lemma requests_app e h1 h2 :
  requests e (h1 ++ h2) = requests e h1 + requests e h2.
Proof. unfold requests. by rewrite filter_app, length_app. Qed.

Lemma requests_prefix e (h h' : list event) :
  h `prefix_of` h' → requests e h ≤ requests e h'.
Proof. intros [seg ->]. rewrite requests_app. lia. Qed.

Lemma requests_log ev e s :
  requests e (history (log_event ev s))
  = requests e (history s) + (if asks e ev then 1 else 0).
Proof.
  simpl. rewrite requests_app. unfold requests at 2.
  destruct (asks e ev) eqn:Hev.
  - rewrite filter_cons_True; [done | by apply Is_true_true].
  - rewrite filter_cons_False; [simpl; lia | by apply Is_true_false].
Qed.

Lemma scheduled_ext s s' e : ext s s' → scheduled s e → scheduled s' e.
Proof.
  intros Hext (r & Hr & Hs).
  destruct (ext_effects _ _ Hext e r Hr) as (r' & Hr' & _ & _ & Hs').
  exists r'. by rewrite Hs'.
Qed.

Lemma on_demand_silent e s s' :
  ext s s' → runs e (history s') = runs e (history s) → on_demand 0 e s s'.
Proof.
  intros Hext Hruns. split; [done|]. intros _.
  pose proof (requests_prefix e _ _ (ext_history _ _ Hext)). lia.
Qed.

Lemma on_demand_trans a b e s1 s2 s3 :
  on_demand a e s1 s2 → on_demand b e s2 s3 → on_demand (a + b) e s1 s3.
Proof.
  intros [H1 G1] [H2 G2]. split; [by eapply ext_trans|].
  intros Hs. specialize (G1 Hs). specialize (G2 (scheduled_ext _ _ _ H1 Hs)).
  lia.
Qed.

Lemma on_demand_begin e e' s :
  on_demand (if decide (e = e') then 1 else 0) e s
            (enter e' (cleanup e' (log_event (EvRun e') s))).
Proof.
  split; [apply ext_begin|]. intros _.
  change (history (enter e' (cleanup e' (log_event (EvRun e') s))))
    with (history (log_event (EvRun e') s)).
  rewrite runs_log, requests_log. simpl. lia.
Qed.


Lemma on_demand_weaken a b e s s' :
  a ≤ b → on_demand a e s s' → on_demand b e s s'.
Proof. intros Hab [H G]. split; [done|]. intros Hs. specialize (G Hs). lia. Qed.

Lemma on_demand_return e e' s s3 :
  on_demand 0 e (enter e' (cleanup e' (log_event (EvRun e') s))) s3 →
  on_demand (if decide (e = e') then 1 else 0) e s (leave s3).
Proof.
  intros H3. eapply on_demand_weaken;
    [|eapply on_demand_trans; [apply on_demand_begin|];
      eapply (on_demand_trans 0 0); [exact H3|];
      apply on_demand_silent; [apply ext_leave | reflexivity]].
  lia.
Qed.

Lemma on_demand_throw e e' s s3 :
  on_demand 0 e (enter e' (cleanup e' (log_event (EvRun e') s))) s3 →
  on_demand (if decide (e = e') then 1 else 0) e s s3.
Proof.
  intros H3. eapply on_demand_weaken;
    [|eapply on_demand_trans; [apply on_demand_begin | exact H3]].
  lia.
Qed.

(** [trigger] calls the scheduler of an effect that has one, never the
    effect. *)
Lemma on_demand_notify e e' r s s' :
  effects s !! e' = Some r → opt_scheduler r = None →
  on_demand (if decide (e = e') then 1 else 0) e s s' → on_demand 0 e s s'.
Proof.
  intros Hr Hs [H G]. split; [done|]. intros Hsch. specialize (G Hsch).
  destruct (decide (e = e')) as [->|]; [|lia].
  destruct Hsch as (r0 & Hr0 & Hs0). rewrite Hr in Hr0.
  injection Hr0 as <-. rewrite Hs in Hs0. by destruct Hs0.
Qed.

(** [effect] enters the effect it has just made. *)
Lemma on_demand_effect e r s s' :
  on_demand (if decide (e = length (effects s)) then 1 else 0) e
            (with_effects (effects s ++ [r]) s) s' →
  on_demand 0 e s s'.
Proof.
  intros [H G]. split; [eapply ext_trans; [apply ext_new_effect | exact H]|].
  intros Hsch.
  specialize (G (scheduled_ext _ _ _ (ext_new_effect r s) Hsch)).
  destruct Hsch as (r0 & Hr0 & _). apply lookup_lt_Some in Hr0.
  rewrite decide_False in G by lia. exact G.
Qed.

(** A call of the handle and a read of [value] are in the history. *)
Lemma on_demand_asked ev e e' s s' :
  (∀ x, ev ≠ EvRun x) → asks e ev = bool_decide (e' = e) →
  on_demand (if decide (e = e') then 1 else 0) e (log_event ev s) s' →
  on_demand 0 e s s'.
Proof.
  intros Hev Hasks [H G]. split; [eapply ext_trans; [apply ext_log | exact H]|].
  intros Hsch. specialize (G (scheduled_ext _ _ _ (ext_log ev s) Hsch)).
  rewrite requests_log, runs_log_other, Hasks in G by done.
  destruct (decide (e = e')) as [->|Hne].
  - rewrite bool_decide_eq_true_2 in G by done. lia.
  - rewrite bool_decide_eq_false_2 in G by done. lia.
Qed.

Lemma level_on_demand e n : sound (on_demand 0 e) (on_demand 0 e) (level n).
Proof.
  assert (∀ s s', ext s s' → history s' = history s → on_demand 0 e s s')
    as Hsame.
  { intros s s' Hext Hh. apply on_demand_silent; [done | by rewrite Hh]. }
  apply (level_sound _ _
           (λ e', on_demand (if decide (e = e') then 1 else 0) e)
           (λ e', on_demand (if decide (e = e') then 1 else 0) e)).
  - intros s. apply Hsame; [apply ext_refl | done].
  - apply (on_demand_trans 0 0).
  - intros s. apply Hsame; [apply ext_refl | done].
  - apply (on_demand_trans 0 0).
  - intros t k s. apply on_demand_silent; [apply ext_track|].
    apply runs_calm, calm_track.
  - intros k v s. apply on_demand_silent; [apply ext_store|].
    exact (runs_log_other (EvWrite k v) e (with_data (<[k:=v]> (data s)) s)
             ltac:(done)).
  - intros v s. apply Hsame; [apply ext_print | done].
  - intros c s. apply Hsame; [apply ext_mark_dirty | done].
  - intros c v s. apply Hsame; [apply ext_set_cache | done].
  - intros f lazy sch s. apply Hsame; [apply ext_new_effect | done].
  - intros g s. apply Hsame; [apply ext_computed | done].
  - intros c e' s. apply on_demand_silent; [apply ext_log|].
    by apply runs_log_other.
  - intros e' r s s3 _. apply on_demand_return.
  - intros e' r s s3 _. apply on_demand_throw.
  - intros e' s _. eapply on_demand_weaken;
      [|apply Hsame; [apply ext_refl | done]].
    lia.
  - intros e' r s s'. apply on_demand_notify.
  - intros e' r s s'. apply on_demand_notify.
  - intros f lazy sch s s'. apply on_demand_effect.
  - intros f lazy sch s s'. apply on_demand_effect.
  - intros e' s s'. by apply on_demand_asked.
  - intros e' s s'. by apply on_demand_asked.
  - intros c e' s s'. by apply on_demand_asked.
  - intros c e' s s'. by apply on_demand_asked.
Qed.

(** While a closure runs, an effect with a scheduler is entered at most as
    often as it is asked for. *)
Lemma exec_on_demand n e p s :
  scheduled s e →
  match exec (level n) p s with
  | Done _ s' | Raised s' =>
    runs e (history s') + requests e (history s)
    ≤ runs e (history s) + requests e (history s')
  | OutOfFuel => True
  end.
Proof.
  intros Hs. pose proof (proj1 (level_on_demand e (S n)) p s) as H.
  change (run_closure (level (S n)) p s) with (exec (level n) p s) in H.
  destruct (exec (level n) p s) as [v s'|s'|]; simpl in H; [| |done].
  - destruct H as [_ H]. specialize (H Hs). lia.
  - destruct H as [_ H]. specialize (H Hs). lia.
Qed.


Lemma quiet_sum_getter : quiet sum_getter.
Proof. repeat constructor. Qed.

Lemma Inv_fresh_sum : Inv fresh_sum.
Proof. apply Inv_computed, Inv_init. Qed.

Lemma lazy_graph_fresh_sum : lazy_graph fresh_sum.
Proof. intros sid m e Hm. change (sets fresh_sum) with (@nil (list nat)) in Hm. by rewrite lookup_nil in Hm. Qed.

Lemma lazy_graph_read_sum : lazy_graph read_sum.
Proof.
  destruct (get_value_dirty_quiet 0 0 _ _ fresh_sum Inv_fresh_sum
              lazy_graph_fresh_sum eq_refl eq_refl eq_refl eq_refl eq_refl
              quiet_sum_getter) as (s1 & Hrun & _ & Hlazy & _).
  unfold read_sum. by rewrite Hrun.
Qed.





(** The script prints 3, 3, 4, 4 and 5.  The getter (effect 0) has run three
    times: for the first read, for the read after the first [obj.foo++], and
    when the second [obj.foo++] re-ran the printing effect (effect 1). *)
Example script_output :
  let s := heap_of (run 3 script sample_data) (init sample_data) in
  run 3 script sample_data = Done VUndefined s ∧
  console s = [VNum 3; VNum 3; VNum 4; VNum 4; VNum 5] ∧
  runs 0 (history s) = 3 ∧ runs 1 (history s) = 2.
Proof. vm_compute. split_and!; reflexivity. Qed.

(** Three writes after the first read leave the getter count at 1; the read
    that follows makes it 2 and returns the new sum. *)
Example three_writes_one_recompute :
  let s := heap_of (exec (level 2)
                      (puts [("foo", VNum 5); ("foo", VNum 6); ("bar", VNum 7)])
                      read_sum) read_sum in
  let s' := heap_of (get_value (level 1) 0 s) s in
  runs 0 (history read_sum) = 1 ∧ runs 0 (history s) = 1 ∧
  get_value (level 1) 0 s = Done (VNum 13) s' ∧ runs 0 (history s') = 2.
Proof. vm_compute. split_and!; reflexivity. Qed.

(** * Further properties of the runtime *)

(** ** What the registry never loses *)

(** X1: whatever a closure does, and whether it returns or throws: no effect is
    removed and none changes its [fn] or its [options], a [computed] keeps
    its effect, a field that has a [Set] in [bucket] keeps that very [Set]
    ([cleanup] empties Sets, it never takes them out of [depsMap]), and no
    [Set] object disappears. *)
Theorem registry_only_grows n p s :
  match exec (level n) p s with
  | Done _ s' | Raised s' => ext s s'
  | OutOfFuel => True
  end.
Proof.
  pose proof (preserves_exec ext ext_closed n p s) as H.
  by destruct (exec (level n) p s).
Qed.

(** X2: the handle that [effect] returns is new, and it still carries [fn] and
    the options it was made with when [effect] returns, whatever the first
    run of [fn] did. *)
Theorem effect_returns_fresh_handle n f lazy sch s h s' :
  effect (level n) f lazy sch s = Done h s' →
  h = length (effects s) ∧ effects s !! h = None ∧
  ∃ r, effects s' !! h = Some r ∧ fn r = f ∧ opt_lazy r = lazy ∧
       opt_scheduler r = sch.
Proof.
  unfold effect.
  set (s1 := with_effects _ s).
  assert (effects s1 !! length (effects s)
          = Some {| fn := f; opt_lazy := lazy; opt_scheduler := sch;
                    deps := [] |}) as Hnew.
  { simpl. by rewrite lookup_app_r, Nat.sub_diag by lia. }
  assert (effects s !! length (effects s) = None) as Hfresh
    by (by apply lookup_ge_None_2).
  destruct lazy.
  - intros [= <- <-]. split_and!; [done..|]. eexists. by split_and!.
  - pose proof (preserves_effectFn ext ext_closed n (length (effects s)) s1)
      as Hext.
    destruct (effectFn (level n) _ s1) as [v s2| |]; simpl; [|done..].
    intros [= <- <-]. split_and!; [done..|]. simpl in Hext.
    destruct (ext_effects _ _ Hext _ _ Hnew) as (r' & Hr' & H1 & H2 & H3).
    exists r'. by split_and!.
Qed.

Lemma effect_returns_fresh_handle_witness :
  0 = length (effects (init sample_data)) ∧
  effects (init sample_data) !! 0 = None ∧
  ∃ r, effects (heap_of (effect (level 2) log_foo false None
                           (init sample_data)) (init sample_data)) !! 0
       = Some r ∧
       fn r = log_foo ∧ opt_lazy r = false ∧ opt_scheduler r = None.
Proof.
  apply (effect_returns_fresh_handle 2 log_foo false None (init sample_data)
           0 _).
  vm_compute. reflexivity.
Defined.

(** ** [deps] is an array, the subscribers are a [Set] *)

(** X3: a second read of the same field inside one run changes nothing in
    [bucket] and in the subscriber [Set] ([deps.add] finds the effect
    there), but pushes the [Set] onto [effectFn.deps] once more: [deps]
    holds one entry for each read, not for each field. *)
Theorem track_twice t k s a :
  Inv s → activeEffect s = Some a →
  ∃ sid,
    set_at (track t k s) t k = Some sid ∧
    a ∈ subscribers (track t k s) t k ∧
    deps_of (track t k s) a = deps_of s a ++ [sid] ∧
    bucket (track t k (track t k s)) = bucket (track t k s) ∧
    sets (track t k (track t k s)) = sets (track t k s) ∧
    deps_of (track t k (track t k s)) a = deps_of s a ++ [sid; sid].
Proof.
  intros HI Ha.
  assert (∀ s0 sid, Inv s0 → activeEffect s0 = Some a →
            set_at s0 t k = Some sid →
            track t k s0 = subscribe a t k sid s0) as Hknown.
  { intros s0 sid _ Ha0 Hk. unfold track. by rewrite Ha0, set_at_default, Hk. }
  assert (∃ sid, set_at (track t k s) t k = Some sid ∧
                 a ∈ subscribers (track t k s) t k ∧
                 deps_of (track t k s) a = deps_of s a ++ [sid])
    as (sid & Hk1 & Hin1 & Hd1).
  { pose proof (Inv_active s a HI Ha) as Hlt.
    unfold track. rewrite Ha, set_at_default.
    destruct (set_at s t k) as [sid|] eqn:Hk.
    - exists sid. pose proof (inv_bucket s HI t k sid Hk) as Hsid.
      destruct (lookup_lt_is_Some_2 _ _ Hsid) as [m0 Hm0].
      split_and!.
      + done.
      + unfold subscribers.
        change (set_at (subscribe a t k sid s) t k) with (set_at s t k).
        rewrite Hk. simpl. rewrite list_lookup_alter_eq, Hm0. simpl.
        apply elem_of_set_add. by left.
      + rewrite deps_of_subscribe by done. by rewrite decide_True.
    - exists (length (sets s)).
      set (s0 := with_bucket _ (with_sets (sets s ++ [[]]) s)).
      assert (set_at s0 t k = Some (length (sets s))) as Hk0.
      { pose proof (set_at_insert (with_sets (sets s ++ [[]]) s) t k
                      (length (sets s)) t k) as H.
        rewrite decide_True in H by done. exact H. }
      split_and!.
      + done.
      + unfold subscribers.
        change (set_at (subscribe a t k (length (sets s)) s0) t k)
          with (set_at s0 t k).
        rewrite Hk0. simpl. rewrite list_lookup_alter_eq.
        rewrite lookup_app_r, Nat.sub_diag by lia. simpl.
        apply elem_of_set_add. by left.
      + rewrite deps_of_subscribe by done. by rewrite decide_True. }
  exists sid. split_and!; [done..| | |].
  - rewrite (Hknown (track t k s) sid); [done | by apply Inv_track | | done].
    pose proof (Inv_track t k s HI) as HI1.
    rewrite (inv_scoped _ HI1), effectStack_track, <- (inv_scoped _ HI). done.
  - pose proof (Inv_track t k s HI) as HI1.
    assert (activeEffect (track t k s) = Some a) as Ha1.
    { rewrite (inv_scoped _ HI1), effectStack_track, <- (inv_scoped _ HI).
      done. }
    rewrite (Hknown (track t k s) sid) by done. simpl.
    unfold subscribers in Hin1. rewrite Hk1 in Hin1.
    destruct (sets (track t k s) !! sid) as [m|] eqn:Hm;
      [|by apply elem_of_nil in Hin1].
    simpl in Hin1. apply list_eq. intros j.
    destruct (decide (j = sid)) as [->|Hne].
    + rewrite list_lookup_alter_eq, Hm. simpl. unfold set_add.
      by rewrite decide_True.
    + by rewrite list_lookup_alter_ne.
  - pose proof (Inv_track t k s HI) as HI1.
    assert (activeEffect (track t k s) = Some a) as Ha1.
    { rewrite (inv_scoped _ HI1), effectStack_track, <- (inv_scoped _ HI).
      done. }
    rewrite (Hknown (track t k s) sid) by done.
    rewrite deps_of_subscribe by (by apply Inv_active).
    rewrite decide_True by done. rewrite Hd1. by rewrite <- app_assoc.
Qed.

Lemma track_twice_witness :
  ∃ sid,
    set_at (track TData "foo" inside_outer) TData "foo" = Some sid ∧
    0 ∈ subscribers (track TData "foo" inside_outer) TData "foo" ∧
    deps_of (track TData "foo" inside_outer) 0
    = deps_of inside_outer 0 ++ [sid] ∧
    bucket (track TData "foo" (track TData "foo" inside_outer))
    = bucket (track TData "foo" inside_outer) ∧
    sets (track TData "foo" (track TData "foo" inside_outer))
    = sets (track TData "foo" inside_outer) ∧
    deps_of (track TData "foo" (track TData "foo" inside_outer)) 0
    = deps_of inside_outer 0 ++ [sid; sid].
Proof.
  apply (track_twice TData "foo" inside_outer 0); [|reflexivity].
  apply Inv_enter; [|vm_compute; lia].
  apply (effect_Inv 0 nested true None), Inv_init.
Defined.

(** ** The script of the file, lines 176-189 *)


(** ** [4-6.js] and the later file agree *)

#[local] Instance Fn_inj : Inj (=) (=) V46.Fn.
Proof. by intros x y [= ->]. Qed.

Lemma set_add_fmap_Fn a (m : list nat) :
  set_add (V46.Fn a) (V46.Fn <$> m) = V46.Fn <$> set_add a m.
Proof.
  unfold set_add. destruct (decide (a ∈ m)) as [Hin|Hin].
  - by rewrite decide_True by (by apply list_elem_of_fmap_2).
  - rewrite decide_False.
    + by rewrite fmap_app.
    + intros H. apply Hin. by apply (list_elem_of_fmap_inj_2 V46.Fn).
Qed.

Lemma set_delete_fmap_Fn a (m : list nat) :
  set_delete (V46.Fn a) (V46.Fn <$> m) = V46.Fn <$> set_delete a m.
Proof.
  unfold set_delete. induction m as [|x m IH]; [done|]. csimpl.
  destruct (decide (x = a)) as [->|Hne].
  - rewrite !filter_cons_False by naive_solver. done.
  - rewrite !filter_cons_True by naive_solver. csimpl. by rewrite IH.
Qed.

Lemma effectsToRun_fmap_Fn x (m : list nat) :
  V46.effectsToRun x (V46.Fn <$> m) = V46.Fn <$> effectsToRun (unit_of x) m.
Proof.
  unfold V46.effectsToRun, effectsToRun.
  change (@nil V46.slot) with (V46.Fn <$> @nil nat).
  generalize (@nil nat). induction m as [|e m IH]; intros acc; [done|].
  csimpl. destruct (decide (Some e = unit_of x)) as [Heq|Hne].
  - rewrite decide_True; [apply IH|]. by destruct x as [| |e']; simplify_eq/=.
  - rewrite decide_False by (intros <-; by apply Hne).
    rewrite set_add_fmap_Fn. apply IH.
Qed.

Lemma agree_deps_of s46 s e : agree s46 s → deps_of s e = V46.deps_of s46 e.
Proof.
  intros H. unfold deps_of, V46.deps_of.
  rewrite (agree_effects _ _ H), list_lookup_fmap.
  by destruct (V46.effects s46 !! e).
Qed.

Lemma agree_log ev s46 s : agree s46 s → agree s46 (log_event ev s).
Proof. by intros []. Qed.

Lemma agree_track t k s46 s s46' :
  agree s46 s → V46.track t k s46 = V46.Done s46' → agree s46' (track t k s).
Proof.
  intros [Hd Hb Hs He Ha Hst Hc]. unfold V46.track, track.
  rewrite Ha, Hb.
  assert (∀ (sid : nat) (l : list (list nat)),
            alter (set_add (V46.activeEffect s46)) sid
                     ((λ m : list nat, V46.Fn <$> m) <$> l)
                   = match V46.activeEffect s46 with
                     | V46.Fn a =>
                       (λ m : list nat, V46.Fn <$> m) <$> alter (set_add a) sid l
                     | _ => alter (set_add (V46.activeEffect s46)) sid
                              ((λ m : list nat, V46.Fn <$> m) <$> l)
                     end) as Hsets.
  { intros sid l. destruct (V46.activeEffect s46) as [| |a]; [done..|].
    symmetry. apply list_fmap_alter, Forall_forall. intros m _.
    symmetry. apply set_add_fmap_Fn. }
  assert (∀ a sid : nat, alter (push_dep sid) a (lift_rec <$> V46.effects s46)
                   = lift_rec <$>
                       alter (λ r, {| V46.fn := V46.fn r;
                                      V46.deps := V46.deps r ++ [sid] |})
                             a (V46.effects s46)) as Heff.
  { intros a sid. symmetry. by apply list_fmap_alter, Forall_forall. }
  destruct (default ∅ (V46.bucket s46 !! t) !! k) as [sid|] eqn:Hk.
  - destruct (V46.activeEffect s46) as [| |a] eqn:Ha46; [done..|].
    intros [= <-]. simpl. split; simpl; try done.
    + rewrite Hs, Hsets. done.
    + by rewrite He, Heff.
  - destruct (V46.activeEffect s46) as [| |a] eqn:Ha46; [done..|].
    intros [= <-]. simpl. split; simpl; try done.
    + by rewrite Hs, length_fmap.
    + rewrite Hs.
      change (((λ m : list nat, V46.Fn <$> m) <$> sets s) ++ [[]])
        with (((λ m : list nat, V46.Fn <$> m) <$> sets s)
              ++ ((λ m : list nat, V46.Fn <$> m) <$> [[]])).
      rewrite <- fmap_app, Hsets, length_fmap. done.
    + by rewrite He, Heff, Hs, length_fmap.
Qed.

Lemma agree_cleanup e s46 s :
  agree s46 s → agree (V46.cleanup e s46) (cleanup e s).
Proof.
  intros H. pose proof (agree_deps_of _ _ e H) as Hdeps.
  destruct H as [Hd Hb Hs He Ha Hst Hc]. split; simpl; try done.
  - rewrite Hdeps, Hs. clear. generalize (sets s).
    induction (V46.deps_of s46 e) as [|sid l IH]; intros st; [done|].
    simpl. rewrite <- IH. f_equal. symmetry.
    apply list_fmap_alter, Forall_forall. intros m _.
    symmetry. apply set_delete_fmap_Fn.
  - rewrite He. symmetry. by apply list_fmap_alter, Forall_forall.
Qed.

Lemma agree_enter e s46 s : agree s46 s → agree (V46.enter e s46) (enter e s).
Proof. intros [Hd Hb Hs He Ha Hst Hc]. split; simpl; try done. by rewrite Hst. Qed.

Lemma agree_leave s46 s : agree s46 s → agree (V46.leave s46) (leave s).
Proof.
  intros [Hd Hb Hs He Ha Hst Hc]. split; simpl; try done.
  - rewrite Hst. by destruct (last (removelast (V46.effectStack s46))).
  - by rewrite Hst.
Qed.

Lemma agree_store k v s46 s :
  agree s46 s → agree (V46.store k v s46) (store k v s).
Proof. intros [Hd Hb Hs He Ha Hst Hc]. split; simpl; try done. by rewrite Hd. Qed.

Lemma agree_print v s46 s : agree s46 s → agree (V46.print v s46) (print v s).
Proof. intros [Hd Hb Hs He Ha Hst Hc]. split; simpl; try done. by rewrite Hc. Qed.

Lemma agree_new_effect f s46 s :
  agree s46 s →
  agree {| V46.data := V46.data s46; V46.bucket := V46.bucket s46;
           V46.sets := V46.sets s46;
           V46.effects := V46.effects s46
                          ++ [{| V46.fn := f; V46.deps := [] |}];
           V46.activeEffect := V46.activeEffect s46;
           V46.effectStack := V46.effectStack s46;
           V46.console := V46.console s46 |}
        (with_effects
           (effects s ++ [{| fn := lift f; opt_lazy := false;
                             opt_scheduler := None; deps := [] |}]) s).
Proof.
  intros [Hd Hb Hs He Ha Hst Hc]. split; simpl; try done.
  rewrite fmap_app, He. done.
Qed.

Lemma agree_init d : agree (V46.init d) (init d).
Proof. by split. Qed.

Section Agree.
Variable rec46 : V46.prog → V46.state → V46.result.
Variable rec : callees.
Hypothesis IH : ∀ p s46 s s46',
  agree s46 s → rec46 p s46 = V46.Done s46' →
  ∃ v s', run_closure rec (lift p) s = Done v s' ∧ agree s46' s'.

Lemma effectFn_agree e s46 s s46' :
  agree s46 s → V46.effectFn rec46 e s46 = V46.Done s46' →
  ∃ v s', effectFn rec e s = Done v s' ∧ agree s46' s'.
Proof using IH.
  intros H. unfold V46.effectFn, effectFn.
  rewrite (agree_effects _ _ H), list_lookup_fmap.
  destruct (V46.effects s46 !! e) as [r|]; [|done]. simpl.
  destruct (rec46 (V46.fn r) (V46.enter e (V46.cleanup e s46)))
    as [s3| |] eqn:Hrun; [|done..].
  intros [= <-].
  destruct (IH _ _ (enter e (cleanup e (log_event (EvRun e) s))) _
              (agree_enter e _ _ (agree_cleanup e _ _ (agree_log _ _ _ H)))
              Hrun) as (v & s3' & -> & H3).
  exists v, (leave s3'). split; [done|]. by apply agree_leave.
Qed.

Lemma forEach_agree (l : list nat) s46 s s46' :
  agree s46 s →
  V46.forEach (V46.call rec46) (V46.Fn <$> l) s46 = V46.Done s46' →
  ∃ s', forEach (notify rec) l s = Done tt s' ∧ agree s46' s'.
Proof using IH.
  revert s46 s. induction l as [|e l IHl]; intros s46 s H; csimpl.
  - intros [= <-]. by exists s.
  - destruct (V46.effectFn rec46 e s46) as [s1| |] eqn:Hrun; [|done..].
    simpl. intros Hrest.
    destruct (effectFn_agree e _ _ _ H Hrun) as (v & s1' & Hrun' & H1).
    destruct (IHl _ _ H1 Hrest) as (s' & Hrest' & H').
    exists s'. split; [|done]. unfold notify.
    assert (∃ r, effects s !! e = Some r ∧ opt_scheduler r = None)
      as (r & -> & ->).
    { unfold V46.effectFn in Hrun.
      rewrite (agree_effects _ _ H), list_lookup_fmap.
      destruct (V46.effects s46 !! e) as [r|]; [|done]. by eexists. }
    rewrite Hrun'. done.
Qed.

Lemma trigger_agree t k s46 s s46' :
  agree s46 s → V46.trigger rec46 t k s46 = V46.Done s46' →
  ∃ s', trigger rec t k s = Done tt s' ∧ agree s46' s'.
Proof using IH.
  intros H. unfold V46.trigger, trigger. rewrite (agree_bucket _ _ H).
  destruct (V46.bucket s46 !! t) as [depsMap|].
  2:{ intros [= <-]. by exists s. }
  rewrite (agree_active _ _ H).
  assert (match depsMap !! k with
          | Some sid => default [] (V46.sets s46 !! sid)
          | None => []
          end
          = V46.Fn <$> match depsMap !! k with
                       | Some sid => default [] (sets s !! sid)
                       | None => []
                       end) as ->.
  { destruct (depsMap !! k) as [sid|]; [|done].
    rewrite (agree_sets _ _ H), list_lookup_fmap.
    by destruct (sets s !! sid). }
  rewrite effectsToRun_fmap_Fn. by apply forEach_agree.
Qed.

Lemma exec_agree p s46 s s46' :
  agree s46 s → V46.exec rec46 p s46 = V46.Done s46' →
  ∃ v s', exec rec (lift p) s = Done v s' ∧ agree s46' s'.
Proof using IH.
  revert s46 s.
  induction p as [| |k cont IHp|k v cont IHp|v cont IHp|f _ cont IHp];
    intros s46 s H; simpl.
  - intros [= <-]. by exists VUndefined, s.
  - done.
  - unfold V46.get_trap.
    destruct (V46.track TData k s46) as [s1| |] eqn:Htrack; [|done..].
    simpl. intros Hrest.
    pose proof (agree_track _ _ _ _ _ H Htrack) as H1.
    rewrite (agree_data _ _ H1). by apply (IHp _ s1).
  - unfold V46.set_trap, set_trap.
    destruct (V46.trigger rec46 TData k (V46.store k v s46)) as [s1| |]
      eqn:Hrun; [|done..].
    simpl. intros Hrest.
    destruct (trigger_agree _ _ _ _ _ (agree_store k v _ _ H) Hrun)
      as (s1' & -> & H1).
    simpl. by apply (IHp s1).
  - intros Hrest. apply (IHp (V46.print v s46)); [|done].
    by apply agree_print.
  - unfold V46.effect, effect.
    match goal with
    | |- context [V46.effectFn rec46 ?e ?x] =>
      destruct (V46.effectFn rec46 e x) as [s1| |] eqn:Hrun; [|done..]
    end.
    simpl. intros Hrest.
    destruct (effectFn_agree _ _
                (with_effects
                   (effects s ++ [{| fn := lift f; opt_lazy := false;
                                     opt_scheduler := None; deps := [] |}]) s)
                _ (agree_new_effect f _ _ H) Hrun)
      as (v & s1' & Hrun' & H1).
    assert (length (effects s) = length (V46.effects s46)) as ->
      by (by rewrite (agree_effects _ _ H), length_fmap).
    rewrite Hrun'. simpl. by apply (IHp s1).
Qed.
End Agree.

(** X5: a closure of [4-6.js] that returns there, returns under the runtime of
    the later file as well, from any heap that agrees with the heap of
    [4-6.js], and leaves the same [data], registry, effects, [effectStack]
    and output.  (A closure that throws in [4-6.js] may return in the later
    file: that is the guard of [track].) *)
Theorem runs_of_4_6_carry_over n p s46 s s46' :
  agree s46 s → V46.exec (V46.level n) p s46 = V46.Done s46' →
  ∃ v s', exec (level n) (lift p) s = Done v s' ∧ agree s46' s'.
Proof.
  revert p s46 s s46'. induction n as [|n IHn]; intros p s46 s s46'.
  - by apply exec_agree.
  - apply exec_agree. exact IHn.
Qed.

Lemma runs_of_4_6_carry_over_witness :
  ∃ v s', exec (level 1) (lift script46) (init sample_data) = Done v s' ∧
          agree after_script46 s'.
Proof.
  apply (runs_of_4_6_carry_over 1 script46 (V46.init sample_data)
           (init sample_data) after_script46 (agree_init sample_data)).
  vm_compute. reflexivity.
Defined.

(** ** The order of the subscribers *)

Lemma set_add_idemp (x : nat) (l : list nat) :
  set_add x (set_add x l) = set_add x l.
Proof.
  unfold set_add at 1. rewrite decide_True; [done|].
  apply elem_of_set_add. by left.
Qed.

Lemma set_delete_absent (x : nat) (l : list nat) : x ∉ l → set_delete x l = l.
Proof.
  intros Hx. unfold set_delete. induction l as [|y l IH]; [done|].
  apply not_elem_of_cons in Hx as [Hne Hx].
  rewrite filter_cons_True by done. by rewrite IH.
Qed.

Lemma set_add_after_delete (x : nat) (l : list nat) :
  set_add x (set_delete x l) = set_delete x l ++ [x].
Proof.
  unfold set_add. rewrite decide_False; [done|].
  rewrite elem_of_set_delete. naive_solver.
Qed.

Lemma subscribers_subscribe a t k sid s t' k' :
  Inv s → set_at s t k = Some sid →
  subscribers (subscribe a t k sid s) t' k'
  = if decide (t' = t ∧ k' = k) then set_add a (subscribers s t k)
    else subscribers s t' k'.
Proof.
  intros HI Hk. unfold subscribers.
  change (set_at (subscribe a t k sid s) t' k') with (set_at s t' k').
  change (sets (subscribe a t k sid s)) with (alter (set_add a) sid (sets s)).
  pose proof (inv_bucket s HI t k sid Hk) as Hsid.
  destruct (lookup_lt_is_Some_2 _ _ Hsid) as [m0 Hm0].
  case_decide as Heq.
  - destruct Heq as [-> ->]. rewrite Hk, list_lookup_alter_eq, Hm0. done.
  - destruct (set_at s t' k') as [sid'|] eqn:Hk'; [|done].
    rewrite list_lookup_alter_ne; [done|]. intros <-.
    destruct (inv_inj s HI _ _ _ _ _ Hk Hk') as [<- <-]. by apply Heq.
Qed.

Lemma subscribers_track t k s a t' k' :
  Inv s → activeEffect s = Some a →
  subscribers (track t k s) t' k'
  = if decide (t' = t ∧ k' = k) then set_add a (subscribers s t k)
    else subscribers s t' k'.
Proof.
  intros HI Ha. unfold track. rewrite Ha, set_at_default.
  destruct (set_at s t k) as [sid|] eqn:Hk.
  { by apply subscribers_subscribe. }
  unfold subscribers at 1.
  match goal with
  | |- context [set_at (subscribe a t k ?i ?x) t' k'] =>
    change (set_at (subscribe a t k i x) t' k') with (set_at x t' k');
    change (sets (subscribe a t k i x))
      with (alter (set_add a) i (sets s ++ [[]]))
  end.
  rewrite (set_at_insert (with_sets _ s) t k), set_at_with_sets.
  case_decide as Heq.
  - rewrite decide_True by naive_solver.
    rewrite list_lookup_alter_eq, lookup_app_r, Nat.sub_diag by lia.
    unfold subscribers. destruct Heq as [<- <-]. by rewrite Hk.
  - rewrite decide_False by naive_solver. unfold subscribers.
    destruct (set_at s t' k') as [sid'|] eqn:Hk'; [|done].
    pose proof (inv_bucket s HI _ _ _ Hk').
    rewrite list_lookup_alter_ne by lia. by rewrite lookup_app_l by lia.
Qed.

Lemma subscribers_cleanup e s t k :
  Inv s → subscribers (cleanup e s) t k = set_delete e (subscribers s t k).
Proof.
  intros HI. unfold subscribers.
  change (set_at (cleanup e s) t k) with (set_at s t k).
  destruct (set_at s t k) as [sid|] eqn:Hk; [|done].
  rewrite sets_cleanup. case_decide as Hin.
  - by destruct (sets s !! sid).
  - destruct (sets s !! sid) as [m|] eqn:Hm; [|done]. simpl.
    rewrite set_delete_absent; [done|]. intros He. apply Hin.
    apply (inv_consistent s HI). eauto.
Qed.

(** A quiet closure run for the effect [a]. *)
Lemma exec_quiet_lists rec p s a :
  quiet p → Inv s → activeEffect s = Some a →
  ∃ s', exec rec p s = Done (answer p (data s)) s' ∧ Inv s' ∧ calm s s' ∧
    console s' = console s ++ prints p (data s) ∧
    effectStack s' = effectStack s ∧
    (∀ k, subscribers s' TData k
          = if decide (k ∈ fields p (data s))
            then set_add a (subscribers s TData k)
            else subscribers s TData k) ∧
    (∀ c k, subscribers s' (TComputed c) k = subscribers s (TComputed c) k).
Proof.
  intros Hq. revert s. induction Hq as [v|k cont _ IH|v cont _ IH];
    intros s HI Ha.
  - exists s. split_and!; try done.
    + apply calm_refl.
    + simpl. by rewrite app_nil_r.
  - simpl. rewrite data_track.
    pose proof (calm_track TData k s) as Hc1.
    destruct (IH (default VUndefined (data s !! k)) (track TData k s))
      as (s' & Hrun & HI' & Hc & Hcon & Hst & Hsub & Hother).
    { by apply Inv_track. }
    { by rewrite (calm_active _ _ Hc1). }
    exists s'. rewrite Hrun, data_track. split_and!; try done.
    + by eapply calm_trans.
    + rewrite Hcon, data_track.
      assert (console (track TData k s) = console s) as ->; [|done].
      unfold track. rewrite Ha.
      by destruct (default ∅ (bucket s !! TData) !! k).
    + by rewrite Hst, effectStack_track.
    + intros k'. rewrite Hsub, data_track.
      rewrite !(subscribers_track TData k s a) by done.
      destruct (decide (k' = k)) as [->|Hne].
      * rewrite (decide_True (P := TData = TData ∧ k = k)) by done.
        rewrite (decide_True (P := k ∈ k :: _)) by (by left).
        case_decide; [apply set_add_idemp | done].
      * rewrite (decide_False (P := TData = TData ∧ k' = k)) by naive_solver.
        destruct (decide (k' ∈ fields (cont (default VUndefined (data s !! k)))
                                   (data s))) as [Hin|Hin].
        -- by rewrite decide_True by (by right).
        -- rewrite decide_False; [done|].
           rewrite not_elem_of_cons. done.
    + intros c k'. rewrite Hother.
      rewrite (subscribers_track TData k s a) by done.
      by rewrite decide_False by naive_solver.
  - simpl. destruct (IH (print v s)) as (s' & Hrun & HI' & Hc & Hcon & Hst
                                          & Hsub & Hother);
      [by apply Inv_print | done |].
    exists s'. split_and!; try done.
    + eapply calm_trans; [apply calm_print | done].
    + rewrite Hcon. simpl. by rewrite <- app_assoc.
Qed.

(** One run of an effect with a quiet computation, in full. *)
Lemma effectFn_quiet_lists n e r s :
  Inv s → effects s !! e = Some r → quiet (fn r) →
  ∃ s', effectFn (level (S n)) e s = Done (answer (fn r) (data s)) s' ∧
    Inv s' ∧ data s' = data s ∧ computeds s' = computeds s ∧
    console s' = console s ++ prints (fn r) (data s) ∧
    effectStack s' = effectStack s ∧ activeEffect s' = activeEffect s ∧
    (∀ e', runs e' (history s')
           = runs e' (history s) + (if decide (e' = e) then 1 else 0)) ∧
    (∀ k, subscribers s' TData k
          = if decide (k ∈ fields (fn r) (data s))
            then set_delete e (subscribers s TData k) ++ [e]
            else set_delete e (subscribers s TData k)) ∧
    (∀ c k, subscribers s' (TComputed c) k
            = set_delete e (subscribers s (TComputed c) k)).
Proof.
  intros HI He Hq. unfold effectFn. rewrite He.
  set (s2 := enter e (cleanup e (log_event (EvRun e) s))).
  change (run_closure (level (S n))) with (exec (level n)).
  destruct (exec_quiet_lists (level n) (fn r) s2 e Hq)
    as (s3 & -> & HI3 & Hc & Hcon & Hst & Hsub & Hother);
    [by eapply Inv_begin | done |].
  assert (∀ t k, subscribers s2 t k = set_delete e (subscribers s t k))
    as Hclean.
  { intros t k. rewrite <- (subscribers_cleanup e s t k HI). done. }
  exists (leave s3). cbn [bind]. split_and!.
  - done.
  - by apply Inv_leave.
  - apply (calm_data _ _ Hc).
  - apply (calm_computeds _ _ Hc).
  - done.
  - simpl. rewrite Hst. simpl. by rewrite removelast_last.
  - simpl. rewrite Hst. simpl. rewrite removelast_last.
    symmetry. apply (inv_scoped s HI).
  - intros e'. change (history (leave s3)) with (history s3).
    rewrite (runs_calm s2 s3 e' Hc). apply runs_log.
  - intros k. change (subscribers (leave s3) TData k)
      with (subscribers s3 TData k).
    rewrite Hsub, Hclean. change (data s2) with (data s).
    case_decide; [apply set_add_after_delete | done].
  - intros c k. change (subscribers (leave s3) (TComputed c) k)
      with (subscribers s3 (TComputed c) k).
    by rewrite Hother, Hclean.
Qed.

(** X6: after a re-run, a unit is the last subscriber of every field it has
    read, it is in no other [Set], and the subscribers that were there keep
    their order: the next write to such a field notifies it last. *)
Theorem rerun_moves_to_the_back n e r s :
  Inv s → effects s !! e = Some r → quiet (fn r) →
  ∃ v s', effectFn (level (S n)) e s = Done v s' ∧
    ∀ k, subscribers s' TData k
         = set_delete e (subscribers s TData k)
           ++ (if decide (k ∈ fields (fn r) (data s)) then [e] else []).
Proof.
  intros HI He Hq.
  destruct (effectFn_quiet_lists n e r s HI He Hq)
    as (s' & Hrun & _ & _ & _ & _ & _ & _ & _ & Hsub & _).
  exists (answer (fn r) (data s)), s'. split; [done|].
  intros k. rewrite Hsub. case_decide; [done | by rewrite app_nil_r].
Qed.

Lemma rerun_moves_to_the_back_witness :
  ∃ v s', effectFn (level 1) 0 two_loggers = Done v s' ∧
    ∀ k, subscribers s' TData k
         = set_delete 0 (subscribers two_loggers TData k)
           ++ (if decide (k ∈ fields log_foo (data two_loggers))
               then [0] else []).
Proof.
  apply (rerun_moves_to_the_back 0 0
           {| fn := log_foo; opt_lazy := false; opt_scheduler := None;
              deps := [0] |} two_loggers).
  - apply (exec_Inv 1 _ (init sample_data)), Inv_init.
  - reflexivity.
  - repeat constructor.
Defined.

(** The first of two effects that print [foo] re-runs: it goes behind the
    second one. *)
Example rerun_order :
  subscribers two_loggers TData "foo" = [0; 1] ∧
  subscribers (heap_of (effectFn (level 1) 0 two_loggers) two_loggers)
              TData "foo" = [1; 0].
Proof. vm_compute. by split. Qed.

(** ** An effect that reads [value] *)

Lemma effectsToRun_one (a : option nat) (x : nat) :
  a ≠ Some x → effectsToRun a [x] = [x].
Proof.
  intros Ha. unfold effectsToRun. simpl. by rewrite decide_False by done.
Qed.

Lemma console_track t k s : console (track t k s) = console s.
Proof.
  unfold track. destruct (activeEffect s); [|done].
  by destruct (default ∅ (bucket s !! t) !! k).
Qed.

(** X7: a write to a field that only the effect of a clean [computed] is
    subscribed to, when one effect that prints [value] is subscribed to the
    [computed]: the scheduler sets [dirty] and notifies the printing effect,
    which runs once, makes the getter run once on the data as written and
    prints its result; the new value is cached and the effect is subscribed
    to [value] again. *)
Theorem write_reruns_reader_of_computed n c cr r0 w rw k v s :
  Inv s → activeEffect s = None →
  computeds s !! c = Some cr → c_dirty cr = false →
  effects s !! c_effectFn cr = Some r0 →
  opt_scheduler r0 = Some (SchedComputed c) → quiet (fn r0) →
  effects s !! w = Some rw → opt_scheduler rw = None →
  fn rw = print_value c →
  subscribers s TData k = [c_effectFn cr] →
  subscribers s (TComputed c) "value" = [w] →
  ∃ s', set_trap (level (S (S (S n)))) k v s = Done tt s' ∧
    console s'
    = console s ++ prints (fn r0) (<[k := v]> (data s))
      ++ [answer (fn r0) (<[k := v]> (data s))] ∧
    computeds s' !! c
    = Some {| c_value := answer (fn r0) (<[k := v]> (data s));
              c_dirty := false; c_effectFn := c_effectFn cr |} ∧
    runs (c_effectFn cr) (history s') = runs (c_effectFn cr) (history s) + 1 ∧
    runs w (history s') = runs w (history s) + 1 ∧
    subscribers s' (TComputed c) "value" = [w].
Proof.
  intros HI Ha Hc Hd Hr0 Hs0 Hq Hrw Hsw Hfw Hk Hval.
  set (e0 := c_effectFn cr) in *.
  assert (e0 ≠ w) as Hne by (intros ->; congruence).
  set (s2 := mark_dirty c (store k v s)).
  set (s3 := enter w (cleanup w (log_event (EvRun w) s2))).
  set (s4 := log_event (EvValue c e0) s3).
  assert (Inv s2) as HI2 by (by apply Inv_mark_dirty, Inv_store).
  assert (Inv s4) as HI4.
  { apply Inv_log; [done..|]. by apply (Inv_begin w rw). }
  assert (effects s4 !! e0 = Some r0) as Hr4.
  { change (effects s4) with (alter clear_deps w (effects s)).
    by rewrite list_lookup_alter_ne. }
  assert (∀ x, runs x (history s4)
               = runs x (history s) + (if decide (x = w) then 1 else 0))
    as Hruns4.
  { intros x.
    change (history s4)
      with (((history s ++ [EvWrite k v]) ++ [EvRun w]) ++ [EvValue c e0]).
    rewrite !runs_app. unfold runs at 2 3 4.
    rewrite (filter_cons_False _ (EvWrite k v)) by done.
    rewrite (filter_cons_False _ (EvValue c e0)) by done.
    rewrite filter_nil. simpl.
    destruct (decide (x = w)) as [->|Hx].
    - rewrite filter_cons_True by done. simpl. lia.
    - rewrite filter_cons_False by congruence. simpl. lia. }
  destruct (effectFn_quiet_lists n e0 r0 s4 HI4 Hr4 Hq)
    as (s5 & Hrun & HI5 & Hdata5 & Hcomp5 & Hcon5 & Hst5 & Hact5 & Hruns5
        & _ & Hother5).
  change (data s4) with (<[k := v]> (data s)) in *.
  set (val := answer (fn r0) (<[k := v]> (data s))) in *.
  set (s6 := set_cache c val s5).
  assert (activeEffect s6 = Some w) as Ha6.
  { change (activeEffect s6) with (activeEffect s5). by rewrite Hact5. }
  assert (Inv s6) as HI6 by (by apply Inv_set_cache).
  exists (leave (print val (track (TComputed c) "value" s6))).
  split_and!.
  - unfold set_trap. rewrite trigger_subscribers.
    change (subscribers (store k v s) TData k) with (subscribers s TData k).
    change (activeEffect (store k v s)) with (activeEffect s).
    rewrite Hk, Ha, effectsToRun_one by done. cbn [forEach].
    unfold notify at 1. change (effects (store k v s)) with (effects s).
    rewrite Hr0, Hs0. unfold computed_scheduler.
    change (computeds (store k v s)) with (computeds s). rewrite Hc, Hd.
    change (run_trigger (level (S (S (S n)))))
      with (trigger (level (S (S n)))).
    rewrite trigger_subscribers. fold s2.
    change (subscribers s2 (TComputed c) "value")
      with (subscribers s (TComputed c) "value").
    change (activeEffect s2) with (activeEffect s).
    rewrite Hval, Ha, effectsToRun_one by done. cbn [forEach].
    unfold notify. change (effects s2) with (effects s). rewrite Hrw, Hsw.
    unfold effectFn at 1. change (effects s2) with (effects s). rewrite Hrw.
    fold s3. change (run_closure (level (S (S n)))) with (exec (level (S n))).
    rewrite Hfw. unfold print_value. cbn [exec]. unfold get_value.
    change (computeds s3)
      with (alter (λ r, {| c_value := c_value r; c_dirty := true;
                           c_effectFn := c_effectFn r |}) c (computeds s)).
    rewrite list_lookup_alter_eq, Hc. simpl. fold e0. fold s4.
    change (next (level n)) with (level (S n)). rewrite Hrun. done.
  - simpl. rewrite console_track. simpl. rewrite Hcon5.
    by rewrite <- app_assoc.
  - change (computeds (leave (print val (track (TComputed c) "value" s6))))
      with (computeds (track (TComputed c) "value" s6)).
    rewrite (calm_computeds _ _ (calm_track (TComputed c) "value" s6)).
    simpl. rewrite Hcomp5.
    change (computeds s4)
      with (alter (λ r, {| c_value := c_value r; c_dirty := true;
                           c_effectFn := c_effectFn r |}) c (computeds s)).
    by rewrite !list_lookup_alter_eq, Hc.
  - change (history (leave (print val (track (TComputed c) "value" s6))))
      with (history (track (TComputed c) "value" s6)).
    rewrite (runs_calm _ _ _ (calm_track (TComputed c) "value" s6)).
    change (history s6) with (history s5).
    rewrite Hruns5, Hruns4.
    rewrite (decide_True (P := e0 = e0)), (decide_False (P := e0 = w)) by done.
    lia.
  - change (history (leave (print val (track (TComputed c) "value" s6))))
      with (history (track (TComputed c) "value" s6)).
    rewrite (runs_calm _ _ _ (calm_track (TComputed c) "value" s6)).
    change (history s6) with (history s5).
    rewrite Hruns5, Hruns4.
    rewrite (decide_True (P := w = w)), (decide_False (P := w = e0)) by done.
    lia.
  - change (subscribers (leave (print val (track (TComputed c) "value" s6)))
              (TComputed c) "value")
      with (subscribers (track (TComputed c) "value" s6) (TComputed c) "value").
    rewrite (subscribers_track _ _ s6 w) by done.
    rewrite decide_True by done.
    change (subscribers s6 (TComputed c) "value")
      with (subscribers s5 (TComputed c) "value").
    rewrite Hother5.
    change (subscribers s4 (TComputed c) "value")
      with (subscribers (cleanup w s) (TComputed c) "value").
    rewrite subscribers_cleanup, Hval by done.
    unfold set_delete. rewrite filter_cons_False by naive_solver.
    rewrite filter_nil. simpl. done.
Qed.

Lemma write_reruns_reader_of_computed_witness :
  ∃ s', set_trap (level 3) "foo" (VNum 5) watched_sum = Done tt s' ∧
    console s'
    = console watched_sum
      ++ prints sum_getter (<["foo" := VNum 5]> (data watched_sum))
      ++ [answer sum_getter (<["foo" := VNum 5]> (data watched_sum))] ∧
    computeds s' !! 0
    = Some {| c_value := answer sum_getter
                           (<["foo" := VNum 5]> (data watched_sum));
              c_dirty := false; c_effectFn := 0 |} ∧
    runs 0 (history s') = runs 0 (history watched_sum) + 1 ∧
    runs 1 (history s') = runs 1 (history watched_sum) + 1 ∧
    subscribers s' (TComputed 0) "value" = [1].
Proof.
  apply (write_reruns_reader_of_computed 0 0
           {| c_value := VNum 3; c_dirty := false; c_effectFn := 0 |}
           {| fn := sum_getter; opt_lazy := true;
              opt_scheduler := Some (SchedComputed 0); deps := [0; 1] |}
           1
           {| fn := print_value 0; opt_lazy := false; opt_scheduler := None;
              deps := [2] |}
           "foo" (VNum 5) watched_sum);
    try reflexivity.
  - apply (exec_Inv 3 _ (init sample_data)), Inv_init.
  - repeat constructor.
Defined.

(** ** An effect that nothing refers to is not entered *)

Section Idle.
Variable e : nat.

Lemma left_alone_intro s s' :
  ext s s' → (idle s e → left_alone e s s') → left_alone e s s'.
Proof. intros Hext H. split; [done|]. intros Hi. by apply H. Qed.

Lemma left_alone_trans s1 s2 s3 :
  left_alone e s1 s2 → left_alone e s2 s3 → left_alone e s1 s3.
Proof.
  intros [H1 G1] [H2 G2]. split; [by eapply ext_trans|]. intros Hi Hreq.
  pose proof (requests_prefix e _ _ (ext_history _ _ H1)).
  pose proof (requests_prefix e _ _ (ext_history _ _ H2)).
  destruct G1 as [Hi2 Hr2]; [done | lia |].
  destruct G2 as [Hi3 Hr3]; [done | lia |].
  split; [done | lia].
Qed.

Lemma left_alone_asked s s' :
  ext s s' → requests e (history s) < requests e (history s') →
  left_alone e s s'.
Proof. intros Hext Hlt. split; [done|]. lia. Qed.

(** A heap update that leaves the Sets, the stack and the active effect as
    they are and enters nothing. *)
Lemma left_alone_frame s s' :
  ext s s' → sets s' = sets s → effectStack s' = effectStack s →
  activeEffect s' = activeEffect s →
  runs e (history s') = runs e (history s) → left_alone e s s'.
Proof.
  intros Hext Hs Hst Ha Hr. split; [done|].
  intros (Hlt & Hstack & Hact & Hsets) _. split; [|done].
  split_and!.
  - destruct (lookup_lt_is_Some_2 _ _ Hlt) as [r Hr0].
    destruct (ext_effects _ _ Hext e r Hr0) as (r' & Hr' & _).
    by eapply lookup_lt_Some.
  - by rewrite Hst.
  - by rewrite Ha.
  - by rewrite Hs.
Qed.

Lemma left_alone_refl s : left_alone e s s.
Proof. by apply left_alone_frame; [apply ext_refl|..]. Qed.

Lemma left_alone_track t k s : left_alone e s (track t k s).
Proof.
  pose proof (calm_track t k s) as Hc. pose proof (ext_track t k s) as Hext.
  split; [done|]. intros (Hlt & Hstack & Hact & Hsets) _. split.
  - split_and!.
    + destruct (lookup_lt_is_Some_2 _ _ Hlt) as [r Hr0].
      destruct (ext_effects _ _ Hext e r Hr0) as (r' & Hr' & _).
      by eapply lookup_lt_Some.
    + by rewrite effectStack_track.
    + by rewrite (calm_active _ _ Hc).
    + intros sid m Hm Hin.
      destruct (calm_sets _ _ Hc sid m e Hm Hin) as [Ha|(m0 & Hm0 & Hin0)];
        [done | by eapply Hsets].
  - by apply runs_calm.
Qed.

Lemma left_alone_log ev s :
  (∀ x, ev ≠ EvRun x) → left_alone e s (log_event ev s).
Proof.
  intros Hev. apply left_alone_frame; [apply ext_log | done..|].
  by apply runs_log_other.
Qed.

Lemma left_alone_begin x r s :
  x ≠ e → effects s !! x = Some r →
  left_alone e s (enter x (cleanup x (log_event (EvRun x) s))).
Proof.
  intros Hne Hx. split; [by eapply ext_begin|].
  intros (Hlt & Hstack & Hact & Hsets) _. split.
  - split_and!.
    + simpl. by rewrite length_alter.
    + simpl. rewrite elem_of_app, list_elem_of_singleton. naive_solver.
    + simpl. congruence.
    + intros sid m Hm Hin.
      change (sets (enter x (cleanup x (log_event (EvRun x) s))))
        with (sets (cleanup x s)) in Hm.
      rewrite sets_cleanup in Hm. case_decide; [|by eapply Hsets].
      destruct (sets s !! sid) as [m0|] eqn:Hm0; [|done].
      injection Hm as <-. apply elem_of_set_delete in Hin as [_ Hin].
      by eapply Hsets.
  - change (history (enter x (cleanup x (log_event (EvRun x) s))))
      with (history (log_event (EvRun x) s)).
    rewrite runs_log. by rewrite decide_False by done.
Qed.

Lemma left_alone_leave s : left_alone e s (leave s).
Proof.
  split; [apply ext_leave|].
  intros (Hlt & Hstack & Hact & Hsets) _. split; [|done]. split_and!.
  - done.
  - simpl. intros Hin%elem_of_removelast. done.
  - simpl. intros Hlast. apply Hstack.
    apply elem_of_removelast, list_elem_of_lookup.
    rewrite last_lookup in Hlast. eauto.
  - done.
Qed.

Variable n : nat.
Hypothesis IH : sound (left_alone e) (left_alone e) (level n).

Lemma effectFn_left_alone x s :
  x ≠ e → outcome (left_alone e) (left_alone e) s (effectFn (level n) x s).
Proof using IH.
  intros Hne. unfold effectFn.
  destruct (effects s !! x) as [r|] eqn:Hx; [|apply left_alone_refl].
  pose proof (proj1 IH (fn r)
                (enter x (cleanup x (log_event (EvRun x) s)))) as Hrun.
  pose proof (left_alone_begin x r s Hne Hx) as Hb.
  destruct (run_closure (level n) _ _) as [v s3|s3|]; simpl in *; [| |done].
  - eapply left_alone_trans; [exact Hb|].
    eapply left_alone_trans; [exact Hrun | apply left_alone_leave].
  - by eapply left_alone_trans.
Qed.

Lemma bind_left_alone {A B} s (r : result A) (k : A → state → result B) :
  outcome (left_alone e) (left_alone e) s r →
  (∀ a s1, outcome (left_alone e) (left_alone e) s1 (k a s1)) →
  outcome (left_alone e) (left_alone e) s (bind r k).
Proof.
  intros Hr Hk. destruct r as [a s1| |]; simpl in *; [|done..].
  specialize (Hk a s1). destruct (k a s1); simpl in *;
    [by eapply left_alone_trans..|done].
Qed.

Lemma computed_scheduler_left_alone c s :
  outcome (left_alone e) (left_alone e) s (computed_scheduler (level n) c s).
Proof using IH.
  unfold computed_scheduler.
  destruct (computeds s !! c) as [cr|]; [|apply left_alone_refl].
  destruct (c_dirty cr); [apply left_alone_refl|].
  pose proof (proj2 IH (TComputed c) "value" (mark_dirty c s)) as Hrun.
  assert (left_alone e s (mark_dirty c s)) as Hm
    by (by apply left_alone_frame; [apply ext_mark_dirty|..]).
  destruct (run_trigger (level n) _ _ _); simpl in *;
    [by eapply left_alone_trans..|done].
Qed.

Lemma notify_left_alone x s :
  x ≠ e → outcome (left_alone e) (left_alone e) s (notify (level n) x s).
Proof using IH.
  intros Hne. unfold notify.
  destruct (effects s !! x) as [r|]; [|apply left_alone_refl].
  destruct (opt_scheduler r) as [[c|f]|].
  - apply computed_scheduler_left_alone.
  - apply bind_left_alone; [apply IH|]. intros; apply left_alone_refl.
  - apply bind_left_alone; [by apply effectFn_left_alone|].
    intros; apply left_alone_refl.
Qed.

Lemma forEach_left_alone l s :
  e ∉ l →
  outcome (left_alone e) (left_alone e) s (forEach (notify (level n)) l s).
Proof using IH.
  revert s. induction l as [|x l IHl]; intros s Hl; simpl.
  - apply left_alone_refl.
  - apply not_elem_of_cons in Hl as [Hne Hl].
    apply bind_left_alone; [by apply notify_left_alone | auto].
Qed.

Lemma outcome_left_alone_intro {A} s (r : result A) :
  outcome ext ext s r →
  (idle s e → outcome (left_alone e) (left_alone e) s r) →
  outcome (left_alone e) (left_alone e) s r.
Proof.
  intros Hext H. destruct r as [a s'|s'|]; simpl in *; [| |done];
    by apply left_alone_intro.
Qed.

Lemma trigger_left_alone t k s :
  outcome (left_alone e) (left_alone e) s (trigger (level n) t k s).
Proof using IH.
  apply outcome_left_alone_intro;
    [apply (preserves_trigger ext ext_closed)|].
  intros (_ & _ & _ & Hsets). rewrite trigger_subscribers.
  apply forEach_left_alone. rewrite elem_of_effectsToRun.
  intros [Hin _]. unfold subscribers in Hin.
  destruct (set_at s t k) as [sid|]; [|by apply elem_of_nil in Hin].
  destruct (sets s !! sid) as [m|] eqn:Hm; [|by apply elem_of_nil in Hin].
  by eapply Hsets.
Qed.

Lemma effect_left_alone f lazy sch s :
  outcome (left_alone e) (left_alone e) s (effect (level n) f lazy sch s).
Proof using IH.
  apply outcome_left_alone_intro;
    [apply (preserves_effect ext ext_closed)|].
  intros (Hlt & _). unfold effect.
  assert (left_alone e s
            (with_effects
               (effects s ++ [{| fn := f; opt_lazy := lazy;
                                 opt_scheduler := sch; deps := [] |}]) s))
    as Hnew by (by apply left_alone_frame; [apply ext_new_effect|..]).
  destruct lazy; [done|].
  apply bind_left_alone; [|intros; apply left_alone_refl].
  pose proof (effectFn_left_alone (length (effects s))
    (with_effects
       (effects s ++ [{| fn := f; opt_lazy := false;
                         opt_scheduler := sch; deps := [] |}]) s)
    ltac:(lia)) as Hrun.
  destruct (effectFn (level n) _ _); simpl in *;
    [by eapply left_alone_trans..|done].
Qed.

(** A call of the handle [x], or a read of [value] of a [computed] whose
    effect is [x]: [ev] records it. *)
Lemma asked_left_alone ev x s :
  (∀ y, ev ≠ EvRun y) → asks e ev = bool_decide (x = e) →
  outcome (left_alone e) (left_alone e) s
          (effectFn (level n) x (log_event ev s)).
Proof using IH.
  intros Hev Hasks. destruct (decide (x = e)) as [->|Hne].
  - pose proof (preserves_effectFn ext ext_closed n e (log_event ev s))
      as Hext.
    assert (requests e (history s) < requests e (history (log_event ev s)))
      as Hlt.
    { rewrite requests_log, Hasks, bool_decide_eq_true_2 by done.
      simpl. lia. }
    destruct (effectFn (level n) e _) as [v s'|s'|]; simpl in Hext |- *;
      [| |done].
    + apply left_alone_asked; [eapply ext_trans; [apply ext_log | done]|].
      pose proof (requests_prefix e _ _ (ext_history _ _ Hext)). lia.
    + apply left_alone_asked; [eapply ext_trans; [apply ext_log | done]|].
      pose proof (requests_prefix e _ _ (ext_history _ _ Hext)). lia.
  - pose proof (effectFn_left_alone x (log_event ev s) Hne) as Hrun.
    pose proof (left_alone_log ev s Hev) as Hlog.
    destruct (effectFn (level n) x _); simpl in *;
      [by eapply left_alone_trans..|done].
Qed.

Lemma get_value_left_alone c s :
  outcome (left_alone e) (left_alone e) s (get_value (level n) c s).
Proof using IH.
  unfold get_value.
  destruct (computeds s !! c) as [cr|]; [|apply left_alone_refl].
  destruct (c_dirty cr).
  - apply bind_left_alone; [by apply asked_left_alone|].
    intros v s1. simpl. eapply left_alone_trans; [|apply left_alone_track].
    by apply left_alone_frame; [apply ext_set_cache|..].
  - simpl. destruct (decide (c_effectFn cr = e)) as [Heq|Hne].
    + apply left_alone_asked.
      * eapply ext_trans; [apply ext_log | apply ext_track].
      * pose proof (requests_prefix e _ _
          (ext_history _ _
             (ext_track (TComputed c) "value"
                (log_event (EvValue c (c_effectFn cr)) s)))) as Hle.
        rewrite requests_log in Hle. simpl in Hle.
        rewrite bool_decide_eq_true_2 in Hle by done. lia.
    + eapply left_alone_trans; [|apply left_alone_track].
      by apply left_alone_log.
Qed.

Lemma exec_left_alone p s :
  outcome (left_alone e) (left_alone e) s (exec (level n) p s).
Proof using IH.
  revert s.
  induction p as [v| |k cont IHp|k v cont IHp|v cont IHp
                  |f _ lazy sch cont IHp|x cont IHp|g _ cont IHp
                  |c cont IHp]; intros s; simpl.
  - apply left_alone_refl.
  - apply left_alone_refl.
  - pose proof (IHp (default VUndefined (data (track TData k s) !! k))
                    (track TData k s)) as H.
    pose proof (left_alone_track TData k s).
    destruct (exec (level n) _ _); simpl in *;
      [by eapply left_alone_trans..|done].
  - apply bind_left_alone; [|auto]. unfold set_trap.
    pose proof (trigger_left_alone TData k (store k v s)) as H.
    assert (left_alone e s (store k v s)) as Hst.
    { apply left_alone_frame; [apply ext_store | done..|].
      exact (runs_log_other (EvWrite k v) e (with_data _ s) ltac:(done)). }
    destruct (trigger (level n) _ _ _); simpl in *;
      [by eapply left_alone_trans..|done].
  - pose proof (IHp (print v s)) as H.
    assert (left_alone e s (print v s)) as Hpr
      by (by apply left_alone_frame; [apply ext_print|..]).
    destruct (exec (level n) _ _); simpl in *;
      [by eapply left_alone_trans..|done].
  - apply bind_left_alone; [apply effect_left_alone | auto].
  - apply bind_left_alone; [by apply asked_left_alone | auto].
  - pose proof (IHp (computed g s).1 (computed g s).2) as H.
    assert (left_alone e s (computed g s).2) as Hc
      by (by apply left_alone_frame; [apply ext_computed|..]).
    destruct (exec (level n) _ _); simpl in *;
      [by eapply left_alone_trans..|done].
  - apply bind_left_alone; [apply get_value_left_alone | auto].
Qed.
End Idle.

Lemma level_left_alone e n : sound (left_alone e) (left_alone e) (level n).
Proof.
  induction n as [|n IHn]; [by split|]. split.
  - intros p s. by apply exec_left_alone.
  - intros t k s. by apply trigger_left_alone.
Qed.

(** X8: [effect(fn, {lazy: true})] makes an effect that is idle: it is not
    running and no [Set] holds it.  And whatever a closure then does,
    whether it returns or throws, an idle effect is entered only by a call
    of its handle or by a read of [value] of its [computed]: as long as the
    history records neither, it has not run and is still idle; no write
    reaches it. *)
Theorem lazy_effect_waits :
  (∀ n f sch s,
     Inv s →
     ∃ s1, effect (level n) f true sch s = Done (length (effects s)) s1 ∧
           idle s1 (length (effects s)) ∧ history s1 = history s) ∧
  (∀ n e p s,
     idle s e →
     match exec (level n) p s with
     | Done _ s' | Raised s' =>
       requests e (history s') = requests e (history s) →
       idle s' e ∧ runs e (history s') = runs e (history s)
     | OutOfFuel => True
     end).
Proof.
  split.
  - intros n f sch s HI. eexists. split; [reflexivity|]. split; [|done].
    split_and!; simpl.
    + rewrite length_app. simpl. lia.
    + intros Hin%(inv_stack s HI). lia.
    + intros Ha%(Inv_active s _ HI). lia.
    + intros sid m Hm Hin. pose proof (Inv_member s sid m _ HI Hm Hin). lia.
  - intros n e p s Hidle.
    pose proof (exec_left_alone e n (level_left_alone e n) p s) as H.
    destruct (exec (level n) p s) as [v s'|s'|]; simpl in H; [| |done];
      intros Hreq; by apply H.
Qed.

Lemma lazy_effect_waits_witness :
  idle (lazy_unit log_foo) 0 ∧
  match exec (level 2) (Put "foo" (VNum 7) (Ret VUndefined))
             (lazy_unit log_foo) with
  | Done _ s' | Raised s' =>
    requests 0 (history s') = requests 0 (history (lazy_unit log_foo)) →
    idle s' 0 ∧ runs 0 (history s') = runs 0 (history (lazy_unit log_foo))
  | OutOfFuel => True
  end.
Proof.
  destruct lazy_effect_waits as [H1 H2].
  destruct (H1 0 log_foo None (init sample_data) (Inv_init sample_data))
    as (s1 & Hrun & Hidle & _).
  injection Hrun as <-.
  split; [exact Hidle | apply H2; exact Hidle].
Defined.

(** ** A [computed] that reads a [computed] *)

Lemma readers_raised_refl s : readers_raised s s.
Proof.
  intros c cr e r c' Hc Hd (cr' & Hc' & Hd'). congruence.
Qed.

Lemma readers_raised_trans s1 s2 s3 :
  dirtied s1 s2 → dirtied s2 s3 →
  readers_raised s1 s2 → readers_raised s2 s3 → readers_raised s1 s3.
Proof.
  intros D1 D2 R1 R2 c cr e r c' Hc Hd Hf He Hr Hs.
  destruct (dirtied_lookup _ _ _ _ D1 Hc) as (cr2 & Hc2 & _).
  destruct (c_dirty cr2) eqn:Hd2.
  - apply (flag_raised_dirtied s2); [done|].
    apply (R1 c cr e r c'); try done. by exists cr2.
  - apply (R2 c cr2 e r c'); try done; destruct D1 as [-> _]; done.
Qed.

Lemma forEach_chain n l s :
  (∀ t k s0, lazy_graph s0 → activeEffect s0 = None → clean_count s0 < n →
     ∃ s1, run_trigger (level (S n)) t k s0 = Done tt s1 ∧ dirtied s0 s1 ∧
       (∀ e r c, e ∈ subscribers s0 t k → effects s0 !! e = Some r →
          opt_scheduler r = Some (SchedComputed c) → flag_raised s1 c) ∧
       readers_raised s0 s1) →
  lazy_graph s → activeEffect s = None → clean_count s ≤ n →
  Forall (derived_unit s) l →
  ∃ s', forEach (notify (level (S n))) l s = Done tt s' ∧ dirtied s s' ∧
    (∀ e r c, e ∈ l → effects s !! e = Some r →
       opt_scheduler r = Some (SchedComputed c) → flag_raised s' c) ∧
    readers_raised s s'.
Proof.
  intros Hrec. revert s.
  induction l as [|e l IH]; intros s Hlazy Ha Hcount Hl.
  - exists s. split_and!; [done | apply dirtied_refl | |
                           apply readers_raised_refl].
    intros e r c He. by apply elem_of_nil in He.
  - apply Forall_cons in Hl as [(r & c & cr & Hr & Hs & Hc) Hl].
    assert (∃ s1, notify (level (S n)) e s = Done tt s1 ∧ dirtied s s1 ∧
                  flag_raised s1 c ∧ readers_raised s s1)
      as (s1 & Hrun & Hd1 & Hf1 & Hr1).
    { unfold notify, computed_scheduler. rewrite Hr, Hs, Hc.
      destruct (c_dirty cr) eqn:Hdirty.
      - exists s. split_and!; [done | apply dirtied_refl | by exists cr |
                               apply readers_raised_refl].
      - pose proof (clean_count_mark c cr s Hc Hdirty) as Hlt.
        destruct (Hrec (TComputed c) "value" (mark_dirty c s))
          as (s1 & -> & Hd & Hflags & Hreaders).
        { apply (lazy_graph_dirtied s); [apply dirtied_mark_dirty | done]. }
        { done. }
        { lia. }
        exists s1. split_and!; [done | | |].
        + eapply dirtied_trans; [apply dirtied_mark_dirty | done].
        + apply (flag_raised_dirtied (mark_dirty c s)); [done|].
          by eapply flag_raised_mark.
        + intros c0 cr0 e0 r0 c0' Hc0 Hd0 Hf0 He0 Hr0 Hs0.
          destruct (decide (c0 = c)) as [->|Hne].
          * by apply (Hflags e0 r0 c0').
          * apply (Hreaders c0 cr0 e0 r0 c0'); try done.
            simpl. by rewrite list_lookup_alter_ne. }
    destruct (IH s1) as (s' & Hrest & Hd' & Hf' & Hrr').
    { by apply (lazy_graph_dirtied s). }
    { destruct Hd1 as [-> _]. done. }
    { pose proof (clean_count_dirtied s s1 Hd1). lia. }
    { eapply Forall_impl; [exact Hl|]. intros x. by apply derived_unit_dirtied. }
    exists s'. cbn [forEach]. rewrite Hrun. cbn [bind].
    split_and!; [done | by eapply dirtied_trans | |
                 by eapply readers_raised_trans].
    intros e' r' c' He' Hre' Hs'. apply elem_of_cons in He' as [->|He'].
    + assert (r' = r) as -> by congruence.
      assert (c' = c) as -> by congruence.
      by apply (flag_raised_dirtied s1).
    + apply (Hf' e' r' c' He'); [|done].
      destruct Hd1 as [-> _]. done.
Qed.

Lemma trigger_chain n t k s :
  lazy_graph s → activeEffect s = None → clean_count s ≤ n →
  ∃ s', trigger (level (S n)) t k s = Done tt s' ∧ dirtied s s' ∧
    (∀ e r c, e ∈ subscribers s t k → effects s !! e = Some r →
       opt_scheduler r = Some (SchedComputed c) → flag_raised s' c) ∧
    readers_raised s s'.
Proof.
  revert t k s. induction n as [|n IH]; intros t k s Hlazy Ha Hcount.
  - rewrite trigger_subscribers.
    destruct (forEach_chain 0 (effectsToRun (activeEffect s)
                                 (subscribers s t k)) s)
      as (s' & Hrun & Hd & Hf & Hr); try done.
    + intros t0 k0 s0 _ _ Hlt. lia.
    + apply Forall_forall. intros e [He _]%elem_of_effectsToRun.
      by eapply lazy_graph_subscribers.
    + exists s'. split_and!; try done. intros e r c He.
      apply Hf, elem_of_effectsToRun. by rewrite Ha.
  - rewrite trigger_subscribers.
    destruct (forEach_chain (S n) (effectsToRun (activeEffect s)
                                     (subscribers s t k)) s)
      as (s' & Hrun & Hd & Hf & Hr); try done.
    + intros t0 k0 s0 Hl0 Ha0 Hlt. apply IH; [done..|lia].
    + apply Forall_forall. intros e [He _]%elem_of_effectsToRun.
      by eapply lazy_graph_subscribers.
    + exists s'. split_and!; try done. intros e r c He.
      apply Hf, elem_of_effectsToRun. by rewrite Ha.
Qed.

(** X9: a write in a heap where only effects of [computed]s are subscribed, from
    outside every effect: it returns, nothing is entered or read, the
    [computed]s whose effects are subscribed to the field are dirty, and
    every [computed] that the write has made dirty has taken along the
    [computed]s that read it, through [trigger(obj, 'value')] in the
    scheduler: the flag travels down a chain of [computed]s without any
    getter being run. *)
Theorem dirty_flag_reaches_readers n k v s :
  lazy_graph s → activeEffect s = None → clean_count s ≤ n →
  ∃ s', set_trap (level (S n)) k v s = Done tt s' ∧
    history s' = history s ++ [EvWrite k v] ∧
    (∀ e r c, e ∈ subscribers s TData k → effects s !! e = Some r →
       opt_scheduler r = Some (SchedComputed c) → flag_raised s' c) ∧
    readers_raised s s'.
Proof.
  intros Hlazy Ha Hcount.
  destruct (trigger_chain n TData k (store k v s))
    as (s' & Hrun & Hd & Hf & Hr); [done..|].
  exists s'. split_and!; [done | | done | done].
  destruct Hd as [-> _]. done.
Qed.

Lemma lazy_graph_chained : lazy_graph chained.
Proof.
  assert (sets chained = [[0]; [0]; [1]]) as Hsets
    by (vm_compute; reflexivity).
  assert (derived_unit chained 0) as H0.
  { exists {| fn := sum_getter; opt_lazy := true;
              opt_scheduler := Some (SchedComputed 0); deps := [0; 1] |}, 0,
           {| c_value := VNum 3; c_dirty := false; c_effectFn := 0 |}.
    split_and!; [vm_compute; reflexivity | reflexivity |
                 vm_compute; reflexivity]. }
  assert (derived_unit chained 1) as H1.
  { exists {| fn := successor_of 0; opt_lazy := true;
              opt_scheduler := Some (SchedComputed 1); deps := [2] |}, 1,
           {| c_value := VNum 4; c_dirty := false; c_effectFn := 1 |}.
    split_and!; [vm_compute; reflexivity | reflexivity |
                 vm_compute; reflexivity]. }
  intros sid m e Hm He. rewrite Hsets in Hm.
  destruct sid as [|[|[|sid]]]; simpl in Hm; [| | |done];
    injection Hm as <-; apply list_elem_of_singleton in He as ->; done.
Qed.

Lemma dirty_flag_reaches_readers_witness :
  ∃ s', set_trap (level 3) "foo" (VNum 5) chained = Done tt s' ∧
    history s' = history chained ++ [EvWrite "foo" (VNum 5)] ∧
    (∀ e r c, e ∈ subscribers chained TData "foo" →
       effects chained !! e = Some r →
       opt_scheduler r = Some (SchedComputed c) → flag_raised s' c) ∧
    readers_raised chained s'.
Proof.
  apply (dirty_flag_reaches_readers 2 "foo" (VNum 5) chained).
  - apply lazy_graph_chained.
  - vm_compute. reflexivity.
  - vm_compute. lia.
Defined.

(** The sum and its successor are both dirty after [obj.foo = 5], and no
    getter has run. *)
Example chain_is_dirty :
  let s := heap_of (set_trap (level 3) "foo" (VNum 5) chained) chained in
  c_dirty <$> computeds chained = [false; false] ∧
  c_dirty <$> computeds s = [true; true] ∧
  runs 0 (history s) = runs 0 (history chained) ∧
  runs 1 (history s) = runs 1 (history chained).
Proof. vm_compute. split_and!; reflexivity. Qed.

(** ** The registry after a throw *)

(** X10: the invariant of the registry does not depend on the closure returning:
    when an error leaves a closure, every [Set] listed in some [deps] still
    holds that effect and the other way round, [activeEffect] is the top of
    [effectStack], and every effect on the stack exists. *)
Theorem registry_stays_consistent n p s :
  Inv s →
  match exec (level n) p s with
  | Done _ s' | Raised s' =>
    Inv s' ∧
    (∀ e sid, sid ∈ deps_of s' e ↔ ∃ m, sets s' !! sid = Some m ∧ e ∈ m) ∧
    activeEffect s' = last (effectStack s')
  | OutOfFuel => True
  end.
Proof.
  intros HI. pose proof (exec_Inv n p s HI) as H.
  destruct (exec (level n) p s) as [v s'|s'|]; simpl in H; [| |done];
    (split; [done|]; split; [apply (inv_consistent s' H) |
                             apply (inv_scoped s' H)]).
Qed.

Lemma registry_stays_consistent_witness :
  match exec (level 2) two_subscribers (init sample_data) with
  | Done _ s' | Raised s' =>
    Inv s' ∧
    (∀ e sid, sid ∈ deps_of s' e ↔ ∃ m, sets s' !! sid = Some m ∧ e ∈ m) ∧
    activeEffect s' = last (effectStack s')
  | OutOfFuel => True
  end.
Proof.
  apply (registry_stays_consistent 2 two_subscribers (init sample_data)).
  apply Inv_init.
Defined.

(** [two_subscribers] ends in a throw, with the effect that threw still on
    the stack. *)
Example two_subscribers_throws :
  match exec (level 2) two_subscribers (init sample_data) with
  | Raised s' => effectStack s' = [0] ∧ activeEffect s' = Some 0
  | _ => False
  end.
Proof. vm_compute. by split. Qed.

(** ** Two effects that write what the other one reads *)

(** X11: [trigger] leaves out the effect that is running, nothing more.
    When two effects without scheduler are each subscribed to the field the
    other one writes, a write to one of the fields never comes back: the
    first effect re-runs and writes, which re-runs the second, which writes
    and re-runs the first, which is on [effectStack] but is not
    [activeEffect]; at every call depth the run is still going on (in
    JavaScript the call stack overflows). *)
Theorem crossed_effects_never_settle n x y vx vy a b w s :
  Inv s → x ≠ y → a ≠ b → crossed x y vx vy a b s →
  activeEffect s ≠ Some b →
  set_trap (level n) y w s = OutOfFuel.
Proof.
  revert x y vx vy a b w s. induction n as [|n IH];
    intros x y vx vy a b w s HI Hxy Hab [Ha Hb Hx Hy] Hact;
    destruct Hb as (rb & Hrb & Hfb & Hsb);
    unfold set_trap; rewrite trigger_subscribers;
    change (subscribers (store y w s) TData y) with (subscribers s TData y);
    change (activeEffect (store y w s)) with (activeEffect s);
    rewrite Hy, effectsToRun_one by done; cbn [forEach];
    unfold notify; change (effects (store y w s)) with (effects s);
    rewrite Hrb, Hsb; unfold effectFn;
    change (effects (store y w s)) with (effects s); rewrite Hrb, Hfb.
  - done.
  - change (run_closure (level (S n))) with (exec (level n)).
    unfold relay. cbn [exec get_trap].
    set (s2 := enter b (cleanup b (log_event (EvRun b) (store y w s)))).
    assert (Inv s2) as HI2.
    { apply (Inv_begin b rb); [by apply Inv_store | done]. }
    assert (∀ k, subscribers s2 TData k = set_delete b (subscribers s TData k))
      as Hclean.
    { intros k. rewrite <- (subscribers_cleanup b s TData k HI). done. }
    rewrite (IH y x vy vx b a vx (track TData y s2)); [done | | done | done | |].
    + by apply Inv_track.
    + destruct Ha as (ra & Hra & Hfa & Hsa).
      pose proof (ext_trans _ _ _ (ext_begin b (store y w s))
                    (ext_track TData y s2)) as Hext.
      pose proof (ext_trans _ _ _ (ext_store y w s) Hext) as Hext'.
      split.
      * destruct (ext_effects _ _ Hext' b rb Hrb) as (r' & Hr' & Hf' & _ & Hs').
        exists r'. split_and!; congruence.
      * destruct (ext_effects _ _ Hext' a ra Hra) as (r' & Hr' & Hf' & _ & Hs').
        exists r'. split_and!; congruence.
      * rewrite (subscribers_track TData y s2 b) by done.
        rewrite decide_True by done.
        rewrite Hclean, Hy. unfold set_delete.
        rewrite filter_cons_False by naive_solver. done.
      * rewrite (subscribers_track TData y s2 b) by done.
        rewrite decide_False by naive_solver.
        rewrite Hclean, Hx. unfold set_delete.
        rewrite filter_cons_True by done. done.
    + rewrite (calm_active _ _ (calm_track TData y s2)). simpl. congruence.
Qed.

Lemma crossed_effects_never_settle_witness :
  set_trap (level 7) "foo" (VNum 0) crossing = OutOfFuel.
Proof.
  apply (crossed_effects_never_settle 7 "bar" "foo" (VNum 0) (VNum 0) 1 0
           (VNum 0) crossing).
  - apply Inv_track, Inv_enter; [|vm_compute; lia].
    apply (exec_Inv 2 _ (init sample_data)), Inv_init.
  - done.
  - done.
  - split.
    + eexists. split_and!; [vm_compute; reflexivity | reflexivity..].
    + eexists. split_and!; [vm_compute; reflexivity | reflexivity..].
    + vm_compute. reflexivity.
    + vm_compute. reflexivity.
  - vm_compute. congruence.
Defined.

(** Creating the second of the two effects is enough: its first run writes
    [foo]. *)
Example second_effect_never_returns :
  run 9 (Effect (relay "foo" "bar" (VNum 0)) false None (λ _,
         Effect (relay "bar" "foo" (VNum 0)) false None (λ _,
         Ret VUndefined))) sample_data = OutOfFuel.
Proof. vm_compute. reflexivity. Qed.
